(** * HydrogenCG ray casting (part 2): spheres, scene queries, lights, integrators

    A shallow embedding of [core/math/math.hpp], [core/math/vec.hpp],
    [core/ray.hpp], [core/intersection.hpp], [core/sphere.hpp],
    [core/light.hpp], [core/scene.hpp] and the transparency and diffuse
    integrators of [core/integrator.hpp].

    The C++ type [float] is IEEE-754 binary32.  It is modelled by the
    Standard Library's executable specification of floating-point
    arithmetic ([SpecFloat]) instantiated at precision 24 and maximal
    exponent 128, with round-to-nearest-even, signed zeros, infinities and
    NaN.  Every arithmetic operator of the source is one rounding operation
    of the model, in the order the source evaluates it.

    Statements about accuracy (how far a rounded result is from the exact
    one) read a finite binary32 value as the real number it stands for,
    [FloatSpec.value]; everything else is stated on the binary32 values
    themselves. *)

From Stdlib Require Import Reals Lra.
From Stdlib Require Import ZArith List Bool Lia Permutation.
From Stdlib Require Import SpecFloat.
Import ListNotations.
Local Open Scope Z_scope.

(** ** Scalars: binary32 *)

Module F32.
Definition prec : Z := 24.
Definition emax : Z := 128.

Definition t : Type := spec_float.

Definition add : t -> t -> t := SFadd prec emax.
Definition sub : t -> t -> t := SFsub prec emax.
Definition mul : t -> t -> t := SFmul prec emax.
Definition div : t -> t -> t := SFdiv prec emax.
Definition sqrt : t -> t := SFsqrt prec emax.
Definition neg : t -> t := SFopp.

(** The comparison operators [<], [<=], [>], [>=] and [==] of C++: all
    false as soon as one operand is NaN. *)
Definition ltb (x y : t) : bool := SFltb x y.
Definition leb (x y : t) : bool := SFleb x y.
Definition gtb (x y : t) : bool := SFltb y x.
Definition geb (x y : t) : bool := SFleb y x.
Definition eqb (x y : t) : bool := SFeqb x y.

(** Bit-exact equality (same sign, mantissa and exponent), which tells
    [+0] from [-0]. *)
Definition same (x y : t) : bool :=
  match x, y with
  | S754_zero s1, S754_zero s2 => Bool.eqb s1 s2
  | S754_infinity s1, S754_infinity s2 => Bool.eqb s1 s2
  | S754_nan, S754_nan => true
  | S754_finite s1 m1 e1, S754_finite s2 m2 e2 =>
      Bool.eqb s1 s2 && Pos.eqb m1 m2 && Z.eqb e1 e2
  | _, _ => false
  end.

(** The binary32 value nearest to [m * 2^e]; used for literals. *)
Definition of_Z (m e : Z) : t := binary_normalize prec emax m e false.

Definition zero : t := S754_zero false.
Definition one : t := S754_finite false 8388608 (-23).

(** The values a C++ [float] can hold: mantissa and exponent in
    canonical binary32 form. *)
Definition is_float (x : t) : Prop := valid_binary prec emax x = true.
End F32.

Abbreviation float := F32.t.

Declare Scope f32_scope.
Delimit Scope f32_scope with f32.
Bind Scope f32_scope with F32.t.
Infix "+" := F32.add : f32_scope.
Infix "-" := F32.sub : f32_scope.
Infix "*" := F32.mul : f32_scope.
Infix "/" := F32.div : f32_scope.
Notation "- x" := (F32.neg x) : f32_scope.
Infix "<?" := F32.ltb : f32_scope.
Infix "<=?" := F32.leb : f32_scope.
Infix ">?" := F32.gtb : f32_scope.
Infix ">=?" := F32.geb : f32_scope.
Infix "=?" := F32.eqb : f32_scope.

(** ** math.hpp *)

Section Math.
Local Open Scope f32_scope.

Definition min (lhs rhs : float) : float := if lhs <=? rhs then lhs else rhs.
Definition max (lhs rhs : float) : float := if lhs >=? rhs then lhs else rhs.
Definition clamp (arg minVal maxVal : float) : float :=
  max (min arg maxVal) minVal.

Definition smoothstepCubic (x : float) : float :=
  x * x * (F32.of_Z 3 0 - F32.of_Z 2 0 * x).

Definition smoothstep (edge0 edge1 x : float) : float :=
  let y := clamp ((x - edge0) / (edge1 - edge0)) F32.zero F32.one in
  smoothstepCubic y.

(** [0.0001f], [numeric_limits<float>::infinity()], [(float)3.14159...L],
    [1.0f / PI]. *)
Definition EPSILON : float := S754_finite false 13743895 (-37).
Definition INFINITY : float := S754_infinity false.
Definition PI : float := S754_finite false 13176795 (-22).
Definition INV_PI : float := F32.one / PI.
End Math.

(** ** vec.hpp: three-component vectors *)

Module vec3.
Record t : Type := make { x : float; y : float; z : float }.

Section Ops.
Local Open Scope f32_scope.

(** [explicit vec3(float scalar)] *)
Definition splat (scalar : float) : t := make scalar scalar scalar.

Definition neg (arg : t) : t := make (- x arg) (- y arg) (- z arg).
Definition add (lhs rhs : t) : t :=
  make (x lhs + x rhs) (y lhs + y rhs) (z lhs + z rhs).
Definition sub (lhs rhs : t) : t :=
  make (x lhs - x rhs) (y lhs - y rhs) (z lhs - z rhs).
(** Hadamard product [vec3 * vec3]. *)
Definition mul (lhs rhs : t) : t :=
  make (x lhs * x rhs) (y lhs * y rhs) (z lhs * z rhs).
(** [vec3 * float] *)
Definition mul_scalar (lhs : t) (rhs : float) : t :=
  make (x lhs * rhs) (y lhs * rhs) (z lhs * rhs).
(** [float * vec3] *)
Definition scalar_mul (lhs : float) (rhs : t) : t :=
  make (lhs * x rhs) (lhs * y rhs) (lhs * z rhs).
(** [vec3 / float]: multiplies by the rounded reciprocal, as the source
    does ("precision is not as good as dividing each component"). *)
Definition div_scalar (lhs : t) (rhs : float) : t :=
  let invRhs := F32.one / rhs in
  make (x lhs * invRhs) (y lhs * invRhs) (z lhs * invRhs).

Definition dot (lhs rhs : t) : float :=
  x lhs * x rhs + y lhs * y rhs + z lhs * z rhs.
Definition lengthSquared (arg : t) : float := dot arg arg.
Definition length (arg : t) : float := F32.sqrt (lengthSquared arg).
Definition normalize (arg : t) : t := div_scalar arg (length arg).

Definition cross (lhs rhs : t) : t :=
  make (y lhs * z rhs - z lhs * y rhs)
       (z lhs * x rhs - x lhs * z rhs)
       (x lhs * y rhs - y lhs * x rhs).

(** [clamp(const vec3&, float, float)], componentwise. *)
Definition clamp (arg : t) (minVal maxVal : float) : t :=
  make (clamp (x arg) minVal maxVal) (clamp (y arg) minVal maxVal)
       (clamp (z arg) minVal maxVal).
End Ops.
End vec3.

Abbreviation vec3 := vec3.t.
Abbreviation dot := vec3.dot.
Abbreviation length := vec3.length.

Declare Scope vec3_scope.
Delimit Scope vec3_scope with vec3.
Bind Scope vec3_scope with vec3.t.
Infix "+" := vec3.add : vec3_scope.
Infix "-" := vec3.sub : vec3_scope.
Infix "*" := vec3.mul : vec3_scope.
Notation "- v" := (vec3.neg v) : vec3_scope.
Infix ":*" := vec3.mul_scalar (at level 40, left associativity) : vec3_scope.
Infix "*:" := vec3.scalar_mul (at level 40, left associativity) : vec3_scope.
Infix ":/" := vec3.div_scalar (at level 40, left associativity) : vec3_scope.

(** ** ray.hpp *)

Module Ray.
Record t : Type := make { o : vec3; d : vec3 }.

(** [Ray::at] ([at] is a keyword here, hence the underscore). *)
Definition at_ (ray : t) (dist : float) : vec3 :=
  (o ray + dist *: d ray)%vec3.
End Ray.

(** ** intersection.hpp *)

Module Intersection.
Record t : Type :=
  make { dist : float; pos : vec3; normal : vec3; color : vec3 }.

Definition noIntersection : t :=
  make INFINITY (vec3.splat F32.zero) (vec3.splat F32.zero) (vec3.splat F32.zero).

Definition valid (intersection : t) : bool :=
  (dist intersection <? INFINITY)%f32.

(** The assignment [result.dist = maxT]. *)
Definition set_dist (i : t) (v : float) : t :=
  make v (pos i) (normal i) (color i).
End Intersection.

Abbreviation noIntersection := Intersection.noIntersection.
Abbreviation valid := Intersection.valid.

(** ** sphere.hpp *)

Module Sphere.
Record t : Type := make { origin : vec3; radius : float; color : vec3 }.

Definition normal (s : t) (p : vec3) : vec3 :=
  ((p - origin s) :/ radius s)%vec3.

Section Intersect.
Local Open Scope f32_scope.

Definition intersect (s : t) (ray : Ray.t) (minT maxT : float)
  : Intersection.t :=
  let oPos := (origin s - Ray.o ray)%vec3 in
  let b := dot (Ray.d ray) oPos in
  let c := dot oPos oPos - radius s * radius s in
  let d := b * b - c in
  if d <=? F32.zero then noIntersection
  else
    let sqrtD := F32.sqrt d in
    let t1 := b - sqrtD in
    if (t1 >? minT) && (t1 <? maxT) then
      let pos := Ray.at_ ray t1 in
      Intersection.make t1 pos (normal s pos) (color s)
    else
      let t2 := b + sqrtD in
      if (t2 >? minT) && (t2 <? maxT) then
        let pos := Ray.at_ ray t2 in
        Intersection.make t2 pos (normal s pos) (color s)
      else noIntersection.

Definition intersectAny (s : t) (ray : Ray.t) (minT maxT : float) : bool :=
  let oPos := (origin s - Ray.o ray)%vec3 in
  let b := dot (Ray.d ray) oPos in
  let c := dot oPos oPos - radius s * radius s in
  let d := b * b - c in
  let sqrtD := F32.sqrt d in
  let t1 := b - sqrtD in
  let t2 := b + sqrtD in
  (d >? F32.zero)
  && (((t1 >? minT) && (t1 <? maxT)) || ((t2 >? minT) && (t2 <? maxT))).
End Intersect.
End Sphere.

(** ** light.hpp *)

(** The sine of the C math library at binary32 is not part of the
    repository; the cone and cylinder textures take it as a parameter. *)
Class MathLib : Type := { sinf : float -> float }.

Module LightSample.
Record t : Type :=
  make { radiance : vec3; direction : vec3; distanceToLight : float }.
End LightSample.

Module AmbientLight.
Record t : Type := make { radiance : vec3 }.

Definition sampleRadiance (l : t) (pos : vec3) : LightSample.t :=
  LightSample.make (radiance l) (vec3.splat F32.zero) F32.zero.
End AmbientLight.

Module PointLight.
Record t : Type := make { intensity : vec3; origin : vec3 }.

Definition sampleRadiance (l : t) (pos : vec3) : LightSample.t :=
  let posToLight := (origin l - pos)%vec3 in
  let distanceToLight := length posToLight in
  let posToLight := (posToLight :/ distanceToLight)%vec3 in
  let squaredDistanceToLight := (distanceToLight * distanceToLight)%f32 in
  LightSample.make
    (intensity l :/ squaredDistanceToLight)%vec3
    posToLight
    distanceToLight.
End PointLight.

Module DirectionalLight.
Record t : Type := make { radiosity : vec3; direction : vec3 }.

Definition sampleRadiance (l : t) (pos : vec3) : LightSample.t :=
  LightSample.make (radiosity l) (- direction l)%vec3 INFINITY.
End DirectionalLight.

Module ConeLight.
Record t : Type :=
  make { intensity : vec3; origin : vec3; direction : vec3; cosPhi : float }.

Definition sampleRadiance `{MathLib} (l : t) (pos : vec3) : LightSample.t :=
  let pointLight := PointLight.make (intensity l) (origin l) in
  let lightSample := PointLight.sampleRadiance pointLight pos in
  let cosLightCone :=
    (- dot (LightSample.direction lightSample) (direction l))%f32 in
  let att := smoothstep (cosPhi l) F32.one cosLightCone in
  let tex :=
    (F32.of_Z 1 (-1) + F32.of_Z 1 (-1) * sinf (F32.of_Z 200 0 * cosLightCone))%f32 in
  LightSample.make
    (LightSample.radiance lightSample :* (att * tex)%f32)%vec3
    (LightSample.direction lightSample)
    (LightSample.distanceToLight lightSample).
End ConeLight.

Module CylinderLight.
Record t : Type :=
  make { radiosity : vec3; origin : vec3; direction : vec3; radius : float }.

Definition sampleRadiance `{MathLib} (l : t) (pos : vec3) : LightSample.t :=
  let directionalLight := DirectionalLight.make (radiosity l) (direction l) in
  let lightSample := DirectionalLight.sampleRadiance directionalLight pos in
  let lightToPos := (pos - origin l)%vec3 in
  let projOnLightDir := (dot lightToPos (direction l) *: direction l)%vec3 in
  let projOnLightPlane := (lightToPos - projOnLightDir)%vec3 in
  let magnitudeProjectedVector := length projOnLightPlane in
  let att :=
    smoothstep F32.zero F32.one (radius l - magnitudeProjectedVector)%f32 in
  let tex :=
    (F32.of_Z 1 (-1)
     + F32.of_Z 1 (-1) * sinf (F32.of_Z 15 0 * magnitudeProjectedVector))%f32 in
  LightSample.make
    (LightSample.radiance lightSample :* (tex * att)%f32)%vec3
    (LightSample.direction lightSample)
    (LightSample.distanceToLight lightSample).
End CylinderLight.

(** ** scene.hpp *)

Module Scene.
Record t : Type :=
  make {
      spheres : list Sphere.t;
      ambientLight : AmbientLight.t;
      pointLights : list PointLight.t;
      directionalLights : list DirectionalLight.t;
      coneLights : list ConeLight.t;
      cylinderLights : list CylinderLight.t
    }.

Section Queries.
Local Open Scope f32_scope.

(** Body of the loop of [Scene::intersect]: the sphere is queried with
    the upper bound narrowed to [result.dist]. *)
Definition intersect_step (ray : Ray.t) (minT : float)
  (result : Intersection.t) (s : Sphere.t) : Intersection.t :=
  let temp := Sphere.intersect s ray minT (Intersection.dist result) in
  if Intersection.dist temp <? Intersection.dist result then temp else result.

Definition intersect (scene : t) (ray : Ray.t) (minT maxT : float)
  : Intersection.t :=
  let result := Intersection.set_dist noIntersection maxT in
  let result := fold_left (intersect_step ray minT) (spheres scene) result in
  if Intersection.dist result <? maxT then result else noIntersection.

(** The loop of [Scene::intersectAny], returning at the first hit. *)
Fixpoint intersectAny_from (l : list Sphere.t) (ray : Ray.t)
  (minT maxT : float) : bool :=
  match l with
  | [] => false
  | s :: rest =>
      if Sphere.intersectAny s ray minT maxT then true
      else intersectAny_from rest ray minT maxT
  end.

Definition intersectAny (scene : t) (ray : Ray.t) (minT maxT : float) : bool :=
  intersectAny_from (spheres scene) ray minT maxT.

(** [operator()]; a caller that leaves the bounds out passes the defaults
    [0.0f] and [INFINITY]. *)
Definition call (scene : t) (ray : Ray.t) (minT maxT : float) : Intersection.t :=
  intersect scene ray minT maxT.
End Queries.
End Scene.

(** The overloaded free function [add(Scene&, const T&)]: [push_back] on
    the collection of the item's kind. *)
Class SceneItem (T : Type) : Type := { add : Scene.t -> T -> Scene.t }.

#[export] Instance add_Sphere : SceneItem Sphere.t :=
  {| add scene sphere :=
       Scene.make (Scene.spheres scene ++ [sphere]) (Scene.ambientLight scene)
         (Scene.pointLights scene) (Scene.directionalLights scene)
         (Scene.coneLights scene) (Scene.cylinderLights scene) |}.

#[export] Instance add_PointLight : SceneItem PointLight.t :=
  {| add scene light :=
       Scene.make (Scene.spheres scene) (Scene.ambientLight scene)
         (Scene.pointLights scene ++ [light]) (Scene.directionalLights scene)
         (Scene.coneLights scene) (Scene.cylinderLights scene) |}.

#[export] Instance add_DirectionalLight : SceneItem DirectionalLight.t :=
  {| add scene light :=
       Scene.make (Scene.spheres scene) (Scene.ambientLight scene)
         (Scene.pointLights scene) (Scene.directionalLights scene ++ [light])
         (Scene.coneLights scene) (Scene.cylinderLights scene) |}.

#[export] Instance add_ConeLight : SceneItem ConeLight.t :=
  {| add scene light :=
       Scene.make (Scene.spheres scene) (Scene.ambientLight scene)
         (Scene.pointLights scene) (Scene.directionalLights scene)
         (Scene.coneLights scene ++ [light]) (Scene.cylinderLights scene) |}.

#[export] Instance add_CylinderLight : SceneItem CylinderLight.t :=
  {| add scene light :=
       Scene.make (Scene.spheres scene) (Scene.ambientLight scene)
         (Scene.pointLights scene) (Scene.directionalLights scene)
         (Scene.coneLights scene) (Scene.cylinderLights scene ++ [light]) |}.

(** ** integrator.hpp *)

(** The camera-facing normal, as every integrator computes it:
    [(cosRayNormal < 0.0f) ? intersection.normal : -intersection.normal]. *)
Definition facing_normal (ray : Ray.t) (intersection : Intersection.t) : vec3 :=
  let cosRayNormal := dot (Ray.d ray) (Intersection.normal intersection) in
  if (cosRayNormal <? F32.zero)%f32 then Intersection.normal intersection
  else (- Intersection.normal intersection)%vec3.

(** [static_cast<float>(bool)] *)
Definition float_of_bool (b : bool) : float := if b then F32.one else F32.zero.

Module BinaryIntegrator.
Definition radiance (scene : Scene.t) (ray : Ray.t) : vec3 :=
  let doesIntersect := valid (Scene.call scene ray F32.zero INFINITY) in
  vec3.splat (float_of_bool doesIntersect).
End BinaryIntegrator.

Module ColorIntegrator.
Definition radiance (scene : Scene.t) (ray : Ray.t) : vec3 :=
  Intersection.color (Scene.call scene ray F32.zero INFINITY).
End ColorIntegrator.

Module InverseDistanceIntegrator.
Definition radiance (scene : Scene.t) (ray : Ray.t) : vec3 :=
  vec3.splat (F32.one / Intersection.dist (Scene.call scene ray F32.zero INFINITY))%f32.
End InverseDistanceIntegrator.

Module NormalIntegrator.
Definition radiance (scene : Scene.t) (ray : Ray.t) : vec3 :=
  let intersection := Scene.intersect scene ray F32.zero INFINITY in
  let normal := facing_normal ray intersection in
  (float_of_bool (valid intersection)
   *: (F32.of_Z 1 (-1) *: normal + vec3.splat (F32.of_Z 1 (-1))))%vec3.
End NormalIntegrator.

Module TransparencyIntegrator.
(** The loop [for (int i = 0; i < 11; ++i)], by the number of iterations
    still allowed; [color] and [ray] are the loop-carried variables. *)
Fixpoint radiance_loop (scene : Scene.t) (iterations : nat)
  (color : vec3) (ray : Ray.t) : vec3 :=
  match iterations with
  | O => vec3.splat F32.zero
  | S iterations' =>
      let intersection := Scene.intersect scene ray F32.zero INFINITY in
      if negb (valid intersection) then color
      else
        let normal := facing_normal ray intersection in
        let color := (color * Intersection.color intersection)%vec3 in
        let ray :=
          Ray.make (Intersection.pos intersection - EPSILON *: normal)%vec3
                   (Ray.d ray) in
        radiance_loop scene iterations' color ray
  end.

Definition radiance (scene : Scene.t) (r : Ray.t) : vec3 :=
  radiance_loop scene 11 (vec3.splat F32.one) r.
End TransparencyIntegrator.

Module DiffuseLocalDirectIlluminationIntegrator.
(** Body shared by the four light loops:
    [color += albedo * radiance * cosLambert * visibility] with
    [visibility = 1.0f]. *)
Definition accumulate (albedo normal : vec3) (color : vec3)
  (lightSample : LightSample.t) : vec3 :=
  let radiance := LightSample.radiance lightSample in
  let direction := LightSample.direction lightSample in
  let cosLambert := max F32.zero (dot normal direction) in
  let visibility := F32.one in
  (color + albedo * radiance :* cosLambert :* visibility)%vec3.

Definition radiance `{MathLib} (scene : Scene.t) (ray : Ray.t) : vec3 :=
  let intersection := Scene.intersect scene ray F32.zero INFINITY in
  if negb (valid intersection) then vec3.splat F32.zero
  else
    let color := vec3.splat F32.zero in
    let pos := Intersection.pos intersection in
    let albedo := (Intersection.color intersection :* INV_PI)%vec3 in
    let normal := facing_normal ray intersection in
    let color :=
      (color
       + PI *: albedo
         * LightSample.radiance
             (AmbientLight.sampleRadiance (Scene.ambientLight scene) pos))%vec3 in
    let color :=
      fold_left
        (fun color l => accumulate albedo normal color (PointLight.sampleRadiance l pos))
        (Scene.pointLights scene) color in
    let color :=
      fold_left
        (fun color l => accumulate albedo normal color (DirectionalLight.sampleRadiance l pos))
        (Scene.directionalLights scene) color in
    let color :=
      fold_left
        (fun color l => accumulate albedo normal color (ConeLight.sampleRadiance l pos))
        (Scene.coneLights scene) color in
    let color :=
      fold_left
        (fun color l => accumulate albedo normal color (CylinderLight.sampleRadiance l pos))
        (Scene.cylinderLights scene) color in
    color.
End DiffuseLocalDirectIlluminationIntegrator.

Module DiffuseDirectIlluminationIntegrator.
(** Body shared by the four light loops: the shadow ray leaves the offset
    point [pos] toward the light and is bounded by [distanceToLight]. *)
Definition accumulate (scene : Scene.t) (albedo normal pos : vec3)
  (color : vec3) (lightSample : LightSample.t) : vec3 :=
  let radiance := LightSample.radiance lightSample in
  let direction := LightSample.direction lightSample in
  let cosLambert := max F32.zero (dot normal direction) in
  let shadowRay := Ray.make pos direction in
  let distanceToLight := LightSample.distanceToLight lightSample in
  let visibility :=
    if negb (Scene.intersectAny scene shadowRay F32.zero distanceToLight)
    then F32.one else F32.zero in
  (color + albedo * radiance :* cosLambert :* visibility)%vec3.

Definition radiance `{MathLib} (scene : Scene.t) (ray : Ray.t) : vec3 :=
  let intersection := Scene.intersect scene ray F32.zero INFINITY in
  if negb (valid intersection) then vec3.splat F32.zero
  else
    let color := vec3.splat F32.zero in
    let albedo := (Intersection.color intersection :* INV_PI)%vec3 in
    let normal := facing_normal ray intersection in
    let pos := (Intersection.pos intersection + EPSILON *: normal)%vec3 in
    let color :=
      (color
       + PI *: albedo
         * LightSample.radiance
             (AmbientLight.sampleRadiance (Scene.ambientLight scene)
                (Intersection.pos intersection)))%vec3 in
    let color :=
      fold_left
        (fun color l => accumulate scene albedo normal pos color (PointLight.sampleRadiance l pos))
        (Scene.pointLights scene) color in
    let color :=
      fold_left
        (fun color l => accumulate scene albedo normal pos color (DirectionalLight.sampleRadiance l pos))
        (Scene.directionalLights scene) color in
    let color :=
      fold_left
        (fun color l => accumulate scene albedo normal pos color (ConeLight.sampleRadiance l pos))
        (Scene.coneLights scene) color in
    let color :=
      fold_left
        (fun color l => accumulate scene albedo normal pos color (CylinderLight.sampleRadiance l pos))
        (Scene.cylinderLights scene) color in
    color.
End DiffuseDirectIlluminationIntegrator.

(** ** Specification-level definitions *)

(** [t] lies strictly inside [(minT, maxT)]. *)
Definition inside (minT maxT t : float) : bool :=
  ((t >? minT) && (t <? maxT))%f32.

Module SphereSpec.
Section Roots.
Local Open Scope f32_scope.

(** The coefficients of the quadratic and its discriminant. *)
Definition b (s : Sphere.t) (ray : Ray.t) : float :=
  dot (Ray.d ray) (Sphere.origin s - Ray.o ray)%vec3.
Definition c (s : Sphere.t) (ray : Ray.t) : float :=
  let oc := (Sphere.origin s - Ray.o ray)%vec3 in
  dot oc oc - Sphere.radius s * Sphere.radius s.
Definition discriminant (s : Sphere.t) (ray : Ray.t) : float :=
  b s ray * b s ray - c s ray.

Definition t1 (s : Sphere.t) (ray : Ray.t) : float :=
  b s ray - F32.sqrt (discriminant s ray).
Definition t2 (s : Sphere.t) (ray : Ray.t) : float :=
  b s ray + F32.sqrt (discriminant s ray).

(** The first of [t1], [t2], in that order, strictly inside the
    bounds; none when the discriminant is [<= 0]. *)
Definition first_root (s : Sphere.t) (ray : Ray.t) (minT maxT : float)
  : option float :=
  if discriminant s ray <=? F32.zero then None
  else find (inside minT maxT) [t1 s ray; t2 s ray].
End Roots.

(** The record of a hit at distance [t]. *)
Definition hit_at (s : Sphere.t) (ray : Ray.t) (t : float) : Intersection.t :=
  let position := (Ray.o ray + t *: Ray.d ray)%vec3 in
  Intersection.make t position
    ((position - Sphere.origin s) :/ Sphere.radius s)%vec3
    (Sphere.color s).
End SphereSpec.

Module SceneSpec.
(** The hit of every sphere within the full bounds, in scene order. *)
Definition hits (scene : Scene.t) (ray : Ray.t) (minT maxT : float)
  : list Intersection.t :=
  map (fun s => Sphere.intersect s ray minT maxT) (Scene.spheres scene).

(** Keep the strictly nearer record. *)
Definition pick (best h : Intersection.t) : Intersection.t :=
  if (Intersection.dist h <? Intersection.dist best)%f32 then h else best.

(** Nearest hit without narrowing: every sphere is queried with the full
    bounds [(minT, maxT)]. *)
Definition nearest (scene : Scene.t) (ray : Ray.t) (minT maxT : float)
  : Intersection.t :=
  fold_left pick (hits scene ray minT maxT) noIntersection.

(** What is left of a record once the upper bound is lowered to [B]. *)
Definition keep_below (B : float) (h : Intersection.t) : Intersection.t :=
  if (Intersection.dist h <? B)%f32 then h else noIntersection.

(** Two records tie when both are valid and their distances are
    bit-exact equal. *)
Definition tie (h h' : Intersection.t) : bool :=
  valid h && valid h' && F32.same (Intersection.dist h) (Intersection.dist h').

(** A distance or the sentinel: any value but NaN. *)
Definition ordered (h : Intersection.t) : Prop :=
  (Intersection.dist h <=? INFINITY)%f32 = true.

(** Relation maintained between the narrowing scan of [Scene::intersect]
    ([result]) and the scan with the full bounds ([best]). *)
Definition scan_inv (maxT : float) (result best : Intersection.t) : Prop :=
  (best = noIntersection /\ result = Intersection.set_dist noIntersection maxT)
  \/ (result = best /\ (Intersection.dist best <? maxT)%f32 = true).

Fixpoint no_ties (hs : list Intersection.t) : bool :=
  match hs with
  | [] => true
  | h :: rest => forallb (fun h' => negb (tie h h')) rest && no_ties rest
  end.
End SceneSpec.

Module ShadingSpec.
Section Lights.
Context `{MathLib}.

(** One sample per point, directional, cone and cylinder light of the
    scene, taken at [pos]. *)
Definition light_samples (scene : Scene.t) (pos : vec3) : list LightSample.t :=
  map (fun l => PointLight.sampleRadiance l pos) (Scene.pointLights scene)
  ++ map (fun l => DirectionalLight.sampleRadiance l pos) (Scene.directionalLights scene)
  ++ map (fun l => ConeLight.sampleRadiance l pos) (Scene.coneLights scene)
  ++ map (fun l => CylinderLight.sampleRadiance l pos) (Scene.cylinderLights scene).

(** [albedo * incidentRadiance * max(0, dot(normal, directionToLight))],
    times the visibility factor. *)
Definition lambert (albedo normal : vec3) (visibility : float)
  (ls : LightSample.t) : vec3 :=
  (albedo * LightSample.radiance ls
   :* max F32.zero (dot normal (LightSample.direction ls))
   :* visibility)%vec3.

(** The sum of a list of contributions, added in order to [start]. *)
Definition sum_from (start : vec3) (terms : list vec3) : vec3 :=
  fold_left vec3.add terms start.

(** The ambient term [pi * albedo * ambientRadiance] added to black. *)
Definition ambient_term (scene : Scene.t) (albedo : vec3) : vec3 :=
  (vec3.splat F32.zero
   + PI *: albedo * AmbientLight.radiance (Scene.ambientLight scene))%vec3.

(** Direct lighting of a hit with every light sampled at [samplePos] and
    the visibility of a sample given by [visible]. *)
Definition direct_lighting (scene : Scene.t) (ray : Ray.t)
  (hit : Intersection.t) (samplePos : vec3)
  (visible : LightSample.t -> float) : vec3 :=
  let albedo := (Intersection.color hit :* INV_PI)%vec3 in
  let orientedNormal := facing_normal ray hit in
  sum_from (ambient_term scene albedo)
    (map (fun ls => lambert albedo orientedNormal (visible ls) ls)
       (light_samples scene samplePos)).

(** The point the shadow rays of the direct integrator leave from. *)
Definition shadow_origin (ray : Ray.t) (hit : Intersection.t) : vec3 :=
  (Intersection.pos hit + EPSILON *: facing_normal ray hit)%vec3.

(** The visibility factor of the direct integrator:
    [float(!intersectAny(scene, shadowRay, 0.0f, distanceToLight))] with the
    shadow ray leaving [origin] along the sample's direction. *)
Definition shadow_visibility (scene : Scene.t) (origin : vec3)
  (ls : LightSample.t) : float :=
  float_of_bool
    (negb
       (Scene.intersectAny scene (Ray.make origin (LightSample.direction ls))
          F32.zero (LightSample.distanceToLight ls))).

(** No sphere of the scene lies between the shadow origin and any
    light: every shadow query of the direct integrator finds nothing. *)
Definition unoccluded (scene : Scene.t) (ray : Ray.t) (hit : Intersection.t)
  : bool :=
  forallb
    (fun ls =>
       negb
         (Scene.intersectAny scene
            (Ray.make (shadow_origin ray hit) (LightSample.direction ls))
            F32.zero (LightSample.distanceToLight ls)))
    (light_samples scene (shadow_origin ray hit)).
End Lights.
End ShadingSpec.

Module TransparencySpec.
(** Loop-carried state of the transparency integrator: the accumulated
    colour and the current ray segment. *)
Definition state : Type := (vec3 * Ray.t)%type.

(** The normal oriented against the incoming direction: the normal
    itself when it has a negative component along [incoming], its
    negation otherwise. *)
Definition against (incoming normal : vec3) : vec3 :=
  if (dot incoming normal <? F32.zero)%f32 then normal else (- normal)%vec3.

(** One crossing: the nearest hit in [(0, infinity)] attenuates the
    colour by the hit's albedo and restarts the ray at
    [hitPosition - epsilon * orientedNormal], same direction; no hit means
    the ray escapes. *)
Definition cross (scene : Scene.t) (st : state) : option state :=
  let '(color, ray) := st in
  let hit := Scene.intersect scene ray F32.zero INFINITY in
  if valid hit then
    let orientedNormal := against (Ray.d ray) (Intersection.normal hit) in
    Some ((color * Intersection.color hit)%vec3,
          Ray.make (Intersection.pos hit - EPSILON *: orientedNormal)%vec3
                   (Ray.d ray))
  else None.


Definition start (r : Ray.t) : state := (vec3.splat F32.one, r).
End TransparencySpec.

Module LightSpec.
(** Unit length, as the source measures it. *)
Definition unit_length (v : vec3) : Prop := length v = F32.one.

Definition is_vec3 (v : vec3) : Prop :=
  F32.is_float (vec3.x v) /\ F32.is_float (vec3.y v) /\ F32.is_float (vec3.z v).
End LightSpec.

(** Shapes of binary32 values. *)
Module FloatSpec.
Definition is_nan (x : float) : bool :=
  match x with S754_nan => true | _ => false end.

(** Zero or a finite nonzero number: neither NaN nor an infinity. *)
Definition is_finite (x : float) : bool :=
  match x with S754_zero _ | S754_finite _ _ _ => true | _ => false end.

Definition vec_is_finite (v : vec3) : bool :=
  is_finite (vec3.x v) && is_finite (vec3.y v) && is_finite (vec3.z v).

Definition vec_has_nan (v : vec3) : bool :=
  is_nan (vec3.x v) || is_nan (vec3.y v) || is_nan (vec3.z v).

Definition is_zero (x : float) : bool :=
  match x with S754_zero _ => true | _ => false end.

(** A value the products, quotients and roots of the shading code neither
    underflow nor overflow on: a zero, or a binary32 value of magnitude in
    [[2^-30, 2^30)]. *)
Definition moderate (x : float) : bool :=
  match x with
  | S754_zero _ => true
  | S754_finite _ _ _ =>
      valid_binary F32.prec F32.emax x
      && (F32.of_Z 1 (-30) <=? SFabs x)%f32 && (SFabs x <? F32.of_Z 1 30)%f32
  | _ => false
  end.

Definition vec_moderate (v : vec3) : bool :=
  moderate (vec3.x v) && moderate (vec3.y v) && moderate (vec3.z v).

(** [2^e] as a real number. *)
Definition pow2 (e : Z) : R := powerRZ 2 e.

(** The real number a finite binary32 value stands for. *)
Definition value (x : float) : R :=
  match x with
  | S754_finite s m e => ((if s then -1 else 1) * IZR (Zpos m) * pow2 e)%R
  | _ => 0%R
  end.

(** [a] and [b] are finite and differ by at most [2^-k] times the
    magnitude of [b]. *)
Definition nearly (k : Z) (a b : float) : Prop :=
  is_finite a = true /\ is_finite b = true
  /\ (Rabs (value a - value b) <= pow2 (- k) * Rabs (value b))%R.

Definition vec_nearly (k : Z) (a b : vec3) : Prop :=
  nearly k (vec3.x a) (vec3.x b) /\ nearly k (vec3.y a) (vec3.y b)
  /\ nearly k (vec3.z a) (vec3.z b).
End FloatSpec.

(** Directions: what "unit length" and "pointing toward" mean for the
    rounded vectors the code computes. *)
Module DirectionSpec.
(** A separation the code can normalise: moderate components, not all
    zero. *)
Definition separated (v : vec3) : bool :=
  FloatSpec.vec_moderate v
  && negb (FloatSpec.is_zero (vec3.x v) && FloatSpec.is_zero (vec3.y v)
           && FloatSpec.is_zero (vec3.z v)).

(** Length within [2^-18] of one, as the source measures length:
    [1 - 2^-18 <= length(v) <= 1 + 2^-18]. *)
Definition nearly_unit (v : vec3) : bool :=
  ((F32.of_Z 262143 (-18) <=? length v)
   && (length v <=? F32.of_Z 262145 (-18)))%f32.

(** [v] has a positive component along [d]. *)
Definition toward (d v : vec3) : bool := (dot d v >? F32.zero)%f32.
End DirectionSpec.

(** ** Concrete scenes *)

Module Examples.
Definition v3 (x y z : Z) : vec3 :=
  vec3.make (F32.of_Z x 0) (F32.of_Z y 0) (F32.of_Z z 0).

(** The example scenes have no cone or cylinder light, so any function
    serves as the sine. *)
Definition libm : MathLib := {| sinf := fun x => x |}.

(** Albedo [(0.5, 0.25, 1)]. *)
Definition albedo : vec3 := vec3.make (F32.of_Z 1 (-1)) (F32.of_Z 1 (-2)) F32.one.

Definition ball : Sphere.t := Sphere.make (v3 0 0 0) F32.one albedo.
Definition far_ball : Sphere.t := Sphere.make (v3 0 0 5) F32.one (v3 1 0 0).
(** Two unit spheres centred at [(-0.5, 0, 0)] and [(0.5, 0, 0)]. *)
Definition left_ball : Sphere.t :=
  Sphere.make (vec3.make (F32.of_Z (-1) (-1)) F32.zero F32.zero) F32.one (v3 1 0 0).
Definition right_ball : Sphere.t :=
  Sphere.make (vec3.make (F32.of_Z 1 (-1)) F32.zero F32.zero) F32.one (v3 0 0 1).

(** Radius [0.5], centred at [(0, 0, -1.5)]: nearer to the ray's origin
    than the other spheres. *)
Definition front_ball : Sphere.t :=
  Sphere.make (vec3.make F32.zero F32.zero (F32.of_Z (-3) (-1))) (F32.of_Z 1 (-1))
    (v3 0 1 0).

(** From [(0, 0, -3)] along [+z]. *)
Definition ray : Ray.t := Ray.make (v3 0 0 (-3)) (v3 0 0 1).

Definition dark : AmbientLight.t := AmbientLight.make (v3 0 0 0).
Definition lamp : PointLight.t := PointLight.make (v3 1 1 1) (v3 0 0 (-3)).
Definition sun : DirectionalLight.t := DirectionalLight.make (v3 1 1 1) (v3 0 0 1).

(** From [(0, 0, -3)] along [+y]: misses the spheres above. *)
Definition stray_ray : Ray.t := Ray.make (v3 0 0 (-3)) (v3 0 1 0).
(** A ray whose direction has a NaN component. *)
Definition nan_ray : Ray.t :=
  Ray.make (v3 0 0 (-3)) (vec3.make S754_nan F32.zero F32.one).
(** [(2^-100, 0, 0)]: not zero, but its squared length underflows to zero. *)
Definition tiny : vec3 := vec3.make (F32.of_Z 1 (-100)) F32.zero F32.zero.

Definition scene_of (l : list Sphere.t) : Scene.t := Scene.make l dark [] [] [] [].
Definition lamp_scene : Scene.t := Scene.make [ball] dark [lamp] [] [] [].
Definition sun_scene : Scene.t :=
  Scene.make [ball] (AmbientLight.make albedo) [] [sun] [] [].

(** The unit sphere in grey [0.75] under white ambient light [1.0], no
    other light. *)
Definition grey : vec3 := vec3.splat (F32.of_Z 3 (-2)).
Definition grey_scene : Scene.t :=
  Scene.make [Sphere.make (v3 0 0 0) F32.one grey] (AmbientLight.make (v3 1 1 1))
    [] [] [] [].

(** A point light at [(1, 1, 1)], one at [(2^70, 0, 0)], a cone light at
    [(1, 1, 1)], and a directional and a cylinder light whose direction
    [(0, 0, 2)] is not of unit length. *)
Definition corner_lamp : PointLight.t := PointLight.make (v3 1 1 1) (v3 1 1 1).
Definition far_lamp : PointLight.t :=
  PointLight.make (v3 1 1 1) (vec3.make (F32.of_Z 1 70) F32.zero F32.zero).
Definition spot : ConeLight.t :=
  ConeLight.make (v3 1 1 1) (v3 1 1 1) (v3 0 0 1) (F32.of_Z 1 (-1)).
Definition long_sun : DirectionalLight.t :=
  DirectionalLight.make (v3 1 1 1) (v3 0 0 2).
Definition long_beam : CylinderLight.t :=
  CylinderLight.make (v3 1 1 1) (v3 0 0 0) (v3 0 0 2) F32.one.
End Examples.

(** ** Auxiliary definitions for the rounding and ordering proofs *)

Module Rounding.
(** A shift record as a number: mantissa, round bit, sticky bit. *)
Definition shr_weight (r : shr_record) : Z :=
  4 * shr_m r + 2 * Z.b2z (shr_r r) + Z.b2z (shr_s r).

Definition shrn (r : shr_record) (n : Z) : shr_record :=
  match n with Zpos p => iter_pos shr_1 p r | _ => r end.

Definition rne (r : shr_record) : Z :=
  round_nearest_even (shr_m r) (loc_of_shr_record r).

Definition exact_record (m : Z) : shr_record := Build_shr_record m false false.

(** The second half of [binary_round_aux]: renormalise the rounded
    mantissa and detect overflow. *)
Definition finish (sx : bool) (m c : Z) : spec_float :=
  let '(mrs, e) := shr_fexp F32.prec F32.emax m c loc_Exact in
  match shr_m mrs with
  | Z0 => S754_zero sx
  | Zpos m =>
      if e <=? F32.emax - F32.prec then S754_finite sx m e else S754_infinity sx
  | _ => S754_nan
  end.

Definition out (m e : Z) : spec_float :=
  match m with
  | Z0 => S754_zero false
  | Zpos p =>
      if e <=? F32.emax - F32.prec then S754_finite false p e
      else S754_infinity false
  | Zneg _ => S754_nan
  end.

Definition nonneg_shape (x : spec_float) : bool :=
  match x with
  | S754_finite true _ _ | S754_infinity true | S754_zero true => false
  | _ => true
  end.

Definition sqrt_shape (x : spec_float) : bool :=
  match x with
  | S754_finite true _ _ | S754_infinity true => false
  | _ => true
  end.

(** Exponent not below [emin = -149]. *)
Definition grounded (x : spec_float) : bool :=
  match x with S754_finite _ _ e => -149 <=? e | _ => true end.

Definition nonzero (x : spec_float) : bool :=
  match x with S754_zero _ => false | _ => true end.

Definition not_negzero (x : spec_float) : bool :=
  match x with S754_zero true => false | _ => true end.

(** Order-preserving key of the non-NaN values. *)
Definition key (x : spec_float) : option (Z * Z * Z) :=
  match x with
  | S754_nan => None
  | S754_infinity true => Some (-2, 0, 0)
  | S754_infinity false => Some (2, 0, 0)
  | S754_zero _ => Some (0, 0, 0)
  | S754_finite false m e => Some (1, e, Zpos m)
  | S754_finite true m e => Some (-1, - e, - Zpos m)
  end.

Definition key_ltb (a b : Z * Z * Z) : bool :=
  let '(a1, a2, a3) := a in
  let '(b1, b2, b3) := b in
  (a1 <? b1) || ((a1 =? b1) && ((a2 <? b2) || ((a2 =? b2) && (a3 <? b3)))).

Definition key_leb (a b : Z * Z * Z) : bool :=
  let '(a1, a2, a3) := a in
  let '(b1, b2, b3) := b in
  (a1 <? b1) || ((a1 =? b1) && ((a2 <? b2) || ((a2 =? b2) && (a3 <=? b3)))).

Definition key_eqb (a b : Z * Z * Z) : bool :=
  let '(a1, a2, a3) := a in
  let '(b1, b2, b3) := b in
  (a1 =? b1) && (a2 =? b2) && (a3 =? b3).
(** The value of a finite float as an integer multiple of [2 ^ z]
    (meaningful when [z] is not above its exponent); zeros count as 0. *)
Definition Zval (z : Z) (f : spec_float) : Z :=
  match f with
  | S754_finite s m e => cond_Zopp s (Zpos m * 2 ^ (e - z))
  | _ => 0
  end.

Definition exponent (f : spec_float) : Z :=
  match f with S754_finite _ _ e => e | _ => 0 end.

Definition above (z : Z) (f : spec_float) : Prop :=
  match f with S754_finite _ _ e => z <= e | _ => True end.
End Rounding.

(** ** Auxiliary definitions for the accuracy proofs *)

Module Accuracy.
Abbreviation pow2 := FloatSpec.pow2.

(** One rounding to a normal binary32 value changes it by a factor of at
    most [step = 1 + 2^-23]. *)
Definition step : R := (1 + / 8388608)%R.

(** Two positive reals within [k] rounding steps of each other. *)
Definition close (k : nat) (x y : R) : Prop :=
  (0 < x /\ 0 < y /\ x <= y * step ^ k /\ y <= x * step ^ k)%R.

(** [f] is a normal binary32 number of sign [s] and magnitude [x]. *)
Definition normal (s : bool) (f : float) (x : R) : Prop :=
  exists m e,
    f = S754_finite s m e /\ 2 ^ 23 <= Zpos m < 2 ^ 24 /\ -149 <= e <= 104
    /\ x = (IZR (Zpos m) * pow2 e)%R.

(** [t] lies between two powers of two. *)
Definition between (lo hi : Z) (t : R) : Prop := (pow2 lo <= t <= pow2 hi)%R.

(** [f] holds the non-negative quantity [t] after at most [k] roundings:
    the zero of sign [s] when [t] is zero, otherwise a normal number of
    sign [s] whose magnitude is within [k] steps of [t]. *)
Definition approx (s : bool) (k : nat) (f : float) (t : R) : Prop :=
  (t = 0%R /\ f = S754_zero s)
  \/ (exists y, normal s f y /\ close k t y).
End Accuracy.

(** * Properties *)

Import Rounding.

(** ** Ordering of binary32 values *)

Lemma SFltb_key x y :
  SFltb x y = match key x, key y with Some a, Some b => key_ltb a b | _, _ => false end.
Proof.
  destruct x as [[]|[]| |[] mx ex], y as [[]|[]| |[] my ey]; try reflexivity;
    unfold SFltb, SFcompare, key, key_ltb;
    change (Pos.compare_cont Eq mx my) with (mx ?= my)%positive;
    destruct (Z.compare_spec ex ey); destruct (Pos.compare_spec mx my); cbv iota beta delta [CompOpp]; lia.
Qed.

Lemma SFleb_key x y :
  SFleb x y = match key x, key y with Some a, Some b => key_leb a b | _, _ => false end.
Proof.
  destruct x as [[]|[]| |[] mx ex], y as [[]|[]| |[] my ey]; try reflexivity;
    unfold SFleb, SFcompare, key, key_leb;
    change (Pos.compare_cont Eq mx my) with (mx ?= my)%positive;
    destruct (Z.compare_spec ex ey); destruct (Pos.compare_spec mx my); cbv iota beta delta [CompOpp]; lia.
Qed.

Lemma SFeqb_key x y :
  SFeqb x y = match key x, key y with Some a, Some b => key_eqb a b | _, _ => false end.
Proof.
  destruct x as [[]|[]| |[] mx ex], y as [[]|[]| |[] my ey]; try reflexivity;
    unfold SFeqb, SFcompare, key, key_eqb;
    change (Pos.compare_cont Eq mx my) with (mx ?= my)%positive;
    destruct (Z.compare_spec ex ey); destruct (Pos.compare_spec mx my); cbv iota beta delta [CompOpp]; lia.
Qed.

(** Comparisons of binary32 values decided through their keys. *)
Ltac f32_key x := destruct (key x) as [[[? ?] ?]|].

Ltac f32_order :=
  unfold inside, valid, F32.gtb, F32.geb, F32.ltb, F32.leb, F32.eqb in *;
  rewrite ?SFltb_key, ?SFleb_key, ?SFeqb_key in *;
  change (key INFINITY) with (Some (2, 0, 0)) in *;
  change (key F32.zero) with (Some (0, 0, 0)) in *;
  repeat match goal with
         | H : context [key ?x] |- _ => f32_key x
         | |- context [key ?x] => f32_key x
         end;
  unfold key_ltb, key_leb, key_eqb in *;
  try discriminate; try reflexivity; try lia.

Lemma ltb_trans (x y z : float) :
  (x <? y)%f32 = true -> (y <? z)%f32 = true -> (x <? z)%f32 = true.
Proof. intros; f32_order. Qed.

Lemma ltb_leb_trans (x y z : float) :
  (x <? y)%f32 = true -> (y <=? z)%f32 = true -> (x <? z)%f32 = true.
Proof. intros; f32_order. Qed.

Lemma ltb_irrefl (x : float) : (x <? x)%f32 = false.
Proof. f32_order. Qed.

Lemma ltb_leb (x y : float) : (x <? y)%f32 = true -> (x <=? y)%f32 = true.
Proof. intros; f32_order. Qed.

Lemma ltb_lt_INFINITY (x y : float) :
  (x <? y)%f32 = true -> (x <? INFINITY)%f32 = true.
Proof.
  destruct x as [[]|[]| |[] mx ex], y as [[]|[]| |[] my ey];
    intros; try discriminate; reflexivity.
Qed.

(** ** Rounding is monotone *)

Lemma shr_1_nonneg r : 0 <= shr_m r -> 0 <= shr_m (shr_1 r).
Proof. destruct r as [[|[p|p|]|p] ? ?]; cbn [shr_1 shr_m]; lia. Qed.

Lemma shr_1_mono a b :
  0 <= shr_m a -> shr_weight a <= shr_weight b ->
  shr_weight (shr_1 a) <= shr_weight (shr_1 b).
Proof.
  destruct a as [[|[pa|pa|]|pa] [] []], b as [[|[pb|pb|]|pb] [] []];
    cbv [shr_weight shr_1 shr_m shr_r shr_s orb Z.b2z]; lia.
Qed.

Lemma iter_pos_rel {A} (f : A -> A) (R : A -> A -> Prop) :
  (forall a b, R a b -> R (f a) (f b)) ->
  forall n a b, R a b -> R (iter_pos f n a) (iter_pos f n b).
Proof.
  intros Hf. induction n as [n IH|n IH|]; intros a b Hab; cbn; auto.
Qed.

Lemma shrn_mono n a b :
  0 <= shr_m a -> shr_weight a <= shr_weight b ->
  0 <= shr_m (shrn a n) /\ shr_weight (shrn a n) <= shr_weight (shrn b n).
Proof.
  intros Ha Hab. destruct n as [|n|n]; cbn; auto.
  apply (iter_pos_rel shr_1 (fun a b => 0 <= shr_m a /\ shr_weight a <= shr_weight b)); auto.
  intros x y [Hx Hxy]. split; [now apply shr_1_nonneg | now apply shr_1_mono].
Qed.

Lemma rne_bounds a : shr_m a <= rne a <= shr_m a + 1.
Proof.
  destruct a as [m [] []]; unfold rne; cbn; try destruct (Z.even m); lia.
Qed.

Lemma rne_mono a b :
  0 <= shr_m a -> shr_weight a <= shr_weight b -> rne a <= rne b.
Proof.
  intros Ha Hab.
  pose proof (rne_bounds a) as Ba. pose proof (rne_bounds b) as Bb.
  destruct a as [ma ra sa], b as [mb rb sb].
  cbv [shr_weight shr_m shr_r shr_s] in *.
  assert (Hc : ma < mb \/ ma = mb) by (destruct ra, sa, rb, sb; cbv [Z.b2z] in Hab; lia).
  destruct Hc as [Hlt| ->]; [lia|].
  cbv [rne shr_m loc_of_shr_record round_nearest_even] in *.
  destruct ra, sa, rb, sb; cbv [Z.b2z] in Hab; try lia; destruct (Z.even mb); lia.
Qed.

Lemma Zdigits2_shr_1 r :
  0 <= shr_m r -> Zdigits2 (shr_m (shr_1 r)) = Z.max 0 (Zdigits2 (shr_m r) - 1).
Proof.
  destruct r as [[|[p|p|]|p] ? ?]; cbn [shr_1 shr_m Zdigits2 digits2_pos]; lia.
Qed.

Lemma Zdigits2_iter_shr_1 n : forall r,
  0 <= shr_m r ->
  0 <= shr_m (iter_pos shr_1 n r) /\
  Zdigits2 (shr_m (iter_pos shr_1 n r)) = Z.max 0 (Zdigits2 (shr_m r) - Zpos n).
Proof.
  induction n as [n IH|n IH|]; intros r Hr; cbn [iter_pos].
  - pose proof (shr_1_nonneg r Hr) as H1. pose proof (Zdigits2_shr_1 r Hr) as D1.
    destruct (IH _ H1) as [H2 D2]. destruct (IH _ H2) as [H3 D3]. split; [assumption|lia].
  - destruct (IH _ Hr) as [H2 D2]. destruct (IH _ H2) as [H3 D3]. split; [assumption|lia].
  - split; [now apply shr_1_nonneg | now apply Zdigits2_shr_1].
Qed.

Lemma Zdigits2_shrn n r :
  0 <= shr_m r -> 0 <= n ->
  Zdigits2 (shr_m (shrn r n)) = Z.max 0 (Zdigits2 (shr_m r) - n).
Proof.
  intros Hr Hn. destruct n as [|n|n]; cbn; try lia.
  - destruct (shr_m r); cbn; lia.
  - now apply Zdigits2_iter_shr_1.
Qed.

Lemma Zdigits2_nonneg m : 0 <= Zdigits2 m.
Proof. destruct m; cbn; lia. Qed.

Lemma digits2_pos_bounds p :
  2 ^ (Zpos (digits2_pos p) - 1) <= Zpos p < 2 ^ Zpos (digits2_pos p).
Proof.
  induction p as [p IH|p IH|]; cbn [digits2_pos].
  - rewrite Pos2Z.inj_succ, Z.pow_succ_r by lia.
    replace (Z.succ (Zpos (digits2_pos p)) - 1) with (Z.succ (Zpos (digits2_pos p) - 1)) by lia.
    rewrite Z.pow_succ_r by lia. lia.
  - rewrite Pos2Z.inj_succ, Z.pow_succ_r by lia.
    replace (Z.succ (Zpos (digits2_pos p)) - 1) with (Z.succ (Zpos (digits2_pos p) - 1)) by lia.
    rewrite Z.pow_succ_r by lia. lia.
  - cbn. lia.
Qed.

Lemma Zdigits2_lt m : 0 <= m -> m < 2 ^ Zdigits2 m.
Proof.
  destruct m as [|p|p]; intros H; try lia; cbn [Zdigits2].
  - cbn. lia.
  - apply digits2_pos_bounds.
Qed.

Lemma Zdigits2_ge m : 0 < m -> 2 ^ (Zdigits2 m - 1) <= m.
Proof.
  destruct m as [|p|p]; intros H; try lia; cbn [Zdigits2].
  apply digits2_pos_bounds.
Qed.

Lemma Zdigits2_mono a b : 0 <= a <= b -> Zdigits2 a <= Zdigits2 b.
Proof.
  intros [Ha Hab].
  destruct (Z.eq_dec a 0) as [->|Hne]; [apply Zdigits2_nonneg|].
  destruct (Z_lt_le_dec (Zdigits2 b) (Zdigits2 a)) as [Hlt|]; [exfalso|assumption].
  pose proof (Zdigits2_lt b ltac:(lia)) as Hb.
  pose proof (Zdigits2_ge a ltac:(lia)) as Hge.
  pose proof (Zdigits2_nonneg b).
  assert (2 ^ Zdigits2 b <= 2 ^ (Zdigits2 a - 1)) by (apply Z.pow_le_mono_r; lia).
  lia.
Qed.

Lemma fexp_eq x : fexp F32.prec F32.emax x = Z.max (x - 24) (-149).
Proof. reflexivity. Qed.

Lemma shrn_max r n : shrn r n = shrn r (Z.max 0 n).
Proof. destruct n; reflexivity. Qed.

Lemma shr_shrn r e n : shr r e n = (shrn r n, e + Z.max 0 n).
Proof. destruct n; cbn [shr shrn Z.max Z.compare]; f_equal; lia. Qed.

Lemma binary_round_aux_finish sx mx ex lx :
  binary_round_aux F32.prec F32.emax sx mx ex lx =
  finish sx (rne (fst (shr_fexp F32.prec F32.emax mx ex lx))) (snd (shr_fexp F32.prec F32.emax mx ex lx)).
Proof.
  unfold binary_round_aux, finish, rne.
  destruct (shr_fexp F32.prec F32.emax mx ex lx) as [mrs' e']. reflexivity.
Qed.

Lemma finish_out m c :
  -149 <= c ->
  finish false m c =
  out (shr_m (shrn (exact_record m) (Zdigits2 m - 24))) (c + Z.max 0 (Zdigits2 m - 24)).
Proof.
  intros Hc. unfold finish, shr_fexp. rewrite shr_shrn, fexp_eq.
  cbn [shr_record_of_loc]. fold (exact_record m).
  rewrite (shrn_max _ (Z.max _ _ - c)), (shrn_max _ (Zdigits2 m - 24)).
  replace (Z.max 0 (Z.max (Zdigits2 m + c - 24) (-149) - c)) with (Z.max 0 (Zdigits2 m - 24)) by lia.
  reflexivity.
Qed.

Lemma SFltb_out m2 e2 m1 e1 :
  0 <= m1 -> 0 <= m2 ->
  m1 = 0 \/ (0 < m2 /\ (e1 < e2 \/ (e1 = e2 /\ m1 <= m2))) ->
  SFltb (out m2 e2) (out m1 e1) = false.
Proof.
  intros H1 H2 H. unfold out.
  destruct m1 as [|p1|p1], m2 as [|p2|p2]; try lia;
    repeat match goal with |- context [?a <=? ?b] => destruct (Z.leb_spec a b) end;
    try reflexivity; try lia.
  unfold SFltb, SFcompare.
  destruct (Z.compare_spec e2 e1); try reflexivity; try lia.
  change (Pos.compare_cont Eq p2 p1) with (p2 ?= p1)%positive.
  destruct (Pos.compare_spec p2 p1); try reflexivity; lia.
Qed.

Lemma shr_weight_m a b : shr_weight a <= shr_weight b -> shr_m a <= shr_m b.
Proof.
  destruct a as [ma [] []], b as [mb [] []]; cbv [shr_weight shr_m shr_r shr_s Z.b2z]; lia.
Qed.

Lemma Zdigits2_pos_iff m : 0 <= m -> (0 < m <-> 0 < Zdigits2 m).
Proof. destruct m; cbn; lia. Qed.

Lemma finish_mono c m1 m2 :
  -149 <= c -> 0 <= m1 <= m2 ->
  SFltb (finish false m2 c) (finish false m1 c) = false.
Proof.
  intros Hc [H1 H12]. rewrite !finish_out by assumption.
  pose proof (Zdigits2_mono m1 m2 (conj H1 H12)) as HD.
  pose proof (Zdigits2_nonneg m1) as HD1.
  set (n1 := Zdigits2 m1 - 24) in *. set (n2 := Zdigits2 m2 - 24) in *.
  rewrite (shrn_max _ n1), (shrn_max _ n2).
  assert (N1 : 0 <= Z.max 0 n1) by lia. assert (N2 : 0 <= Z.max 0 n2) by lia.
  pose proof (Zdigits2_shrn (Z.max 0 n1) (exact_record m1) H1 N1) as E1.
  pose proof (Zdigits2_shrn (Z.max 0 n2) (exact_record m2) ltac:(cbn; lia) N2) as E2.
  destruct (shrn_mono (Z.max 0 n1) (exact_record m1) (exact_record m1) H1 (Z.le_refl _)) as [P1 _].
  destruct (shrn_mono (Z.max 0 n2) (exact_record m2) (exact_record m2) ltac:(cbn; lia) (Z.le_refl _)) as [P2 _].
  cbn [exact_record shr_m] in E1, E2.
  assert (Hsame : Z.max 0 n1 = Z.max 0 n2 ->
            shr_m (shrn (exact_record m1) (Z.max 0 n1)) <=
            shr_m (shrn (exact_record m2) (Z.max 0 n2))).
  { intros Heq. rewrite Heq. apply shr_weight_m.
    apply shrn_mono; [assumption|].
    cbv [shr_weight exact_record shr_m shr_r shr_s Z.b2z]. lia. }
  assert (Hzero : m1 = 0 -> shr_m (shrn (exact_record m1) (Z.max 0 n1)) = 0).
  { intros ->. reflexivity. }
  apply SFltb_out; try assumption.
  set (q1 := shr_m (shrn (exact_record m1) (Z.max 0 n1))) in *.
  set (q2 := shr_m (shrn (exact_record m2) (Z.max 0 n2))) in *.
  clearbody q1 q2.
  pose proof (Zdigits2_pos_iff m1 H1) as I1.
  pose proof (Zdigits2_pos_iff q2 P2) as I2.
  subst n1 n2. lia.
Qed.

Lemma Zdigits2_le_of_lt m k : 0 <= m -> 0 <= k -> m < 2 ^ k -> Zdigits2 m <= k.
Proof.
  intros Hm0 Hk Hm. destruct (Z_le_gt_dec m 0) as [Hle|Hgt].
  - replace m with 0 by lia. assumption.
  - pose proof (Zdigits2_ge m ltac:(lia)) as Hge.
    destruct (Z_le_gt_dec (Zdigits2 m) k); [assumption|exfalso].
    assert (2 ^ k <= 2 ^ (Zdigits2 m - 1)) by (apply Z.pow_le_mono_r; lia). lia.
Qed.

Lemma Zdigits2_ge_of_le m k : 0 <= k -> 2 ^ k <= m -> k + 1 <= Zdigits2 m.
Proof.
  intros Hk Hm. assert (0 < 2 ^ k) by (apply Z.pow_pos_nonneg; lia).
  pose proof (Zdigits2_lt m ltac:(lia)) as Hlt.
  destruct (Z_le_gt_dec (k + 1) (Zdigits2 m)); [assumption|exfalso].
  pose proof (Zdigits2_nonneg m).
  assert (2 ^ Zdigits2 m <= 2 ^ k) by (apply Z.pow_le_mono_r; lia). lia.
Qed.

Lemma finish_lt_exp c1 c2 m1 m2 :
  -149 <= c1 < c2 -> 0 <= m1 <= 2 ^ 24 -> 2 ^ 23 <= m2 <= 2 ^ 24 ->
  SFltb (finish false m2 c2) (finish false m1 c1) = false.
Proof.
  intros [Hc1 Hc] [H1 H1'] [H2 H2']. rewrite !finish_out by lia.
  assert (D1 : Zdigits2 m1 <= 25) by (apply Zdigits2_le_of_lt; [try lia|lia|]; change (2 ^ 25) with (2 * 2 ^ 24); lia).
  assert (D2 : Zdigits2 m2 <= 25) by (apply Zdigits2_le_of_lt; [try lia|lia|]; change (2 ^ 25) with (2 * 2 ^ 24); lia).
  assert (D2' : 24 <= Zdigits2 m2) by (apply (Zdigits2_ge_of_le m2 23); lia).
  pose proof (Zdigits2_nonneg m1) as HD1.
  set (n1 := Zdigits2 m1 - 24) in *. set (n2 := Zdigits2 m2 - 24) in *.
  rewrite (shrn_max _ n1), (shrn_max _ n2).
  assert (N1 : 0 <= Z.max 0 n1) by lia. assert (N2 : 0 <= Z.max 0 n2) by lia.
  assert (M2 : 0 <= m2) by (change (2 ^ 23) with 8388608 in H2; lia).
  pose proof (Zdigits2_shrn (Z.max 0 n1) (exact_record m1) H1 N1) as E1.
  pose proof (Zdigits2_shrn (Z.max 0 n2) (exact_record m2) M2 N2) as E2.
  destruct (shrn_mono (Z.max 0 n1) (exact_record m1) (exact_record m1) H1 (Z.le_refl _)) as [P1 _].
  destruct (shrn_mono (Z.max 0 n2) (exact_record m2) (exact_record m2) M2 (Z.le_refl _)) as [P2 _].
  cbn [exact_record shr_m] in E1, E2.
  assert (Hpow : m1 = 2 ^ 24 -> Zdigits2 m2 = 24 ->
            shr_m (shrn (exact_record m1) (Z.max 0 n1)) <=
            shr_m (shrn (exact_record m2) (Z.max 0 n2))).
  { intros -> E. subst n1 n2. rewrite E. cbn. change (2 ^ 23) with 8388608 in H2. lia. }
  assert (Hm1 : Zdigits2 m1 = 25 -> m1 = 2 ^ 24).
  { intros E. pose proof (Zdigits2_ge m1) as G. rewrite E in G.
    change (2 ^ (25 - 1)) with (2 ^ 24) in G.
    destruct (Z.eq_dec m1 0) as [->|]; [discriminate E|]. lia. }
  apply SFltb_out; try assumption.
  set (q1 := shr_m (shrn (exact_record m1) (Z.max 0 n1))) in *.
  set (q2 := shr_m (shrn (exact_record m2) (Z.max 0 n2))) in *.
  clearbody q1 q2.
  pose proof (Zdigits2_pos_iff q2 P2) as I2.
  subst n1 n2. lia.
Qed.

Lemma Pos_iter_xO p d :
  Zpos (Pos.iter xO p d) = Zpos p * 2 ^ Zpos d /\
  Zpos (digits2_pos (Pos.iter xO p d)) = Zpos (digits2_pos p) + Zpos d.
Proof.
  induction d as [|d IH] using Pos.peano_ind.
  - cbn [Pos.iter digits2_pos]. split; [change (2 ^ 1) with 2|]; lia.
  - rewrite Pos.iter_succ. cbn [digits2_pos]. destruct IH as [IH1 IH2].
    rewrite Pos2Z.inj_succ, Z.pow_succ_r by lia. split; lia.
Qed.

Lemma shl_align_spec p e c :
  let '(mz, ez) := shl_align p e c in
  ez = Z.min e c /\
  Zpos mz = Zpos p * 2 ^ (e - ez) /\
  Zpos (digits2_pos mz) + ez = Zpos (digits2_pos p) + e.
Proof.
  unfold shl_align. destruct (c - e) as [|d|d] eqn:E.
  - replace (Z.min e c) with e by lia. replace (e - e) with 0 by lia. cbn. lia.
  - replace (Z.min e c) with e by lia. replace (e - e) with 0 by lia. cbn. lia.
  - replace (Z.min e c) with c by lia. replace (e - c) with (Zpos d) by lia.
    destruct (Pos_iter_xO p d) as [-> ->]. lia.
Qed.

Lemma binary_round_finish p e :
  exists mz ez c,
    c = fexp F32.prec F32.emax (Zpos (digits2_pos p) + e) /\
    ez = Z.min e c /\
    Zpos mz = Zpos p * 2 ^ (e - ez) /\
    Zpos (digits2_pos mz) + ez = Zpos (digits2_pos p) + e /\
    binary_round F32.prec F32.emax false p e =
    finish false (rne (shrn (exact_record (Zpos mz)) (c - ez))) c.
Proof.
  unfold binary_round.
  pose proof (shl_align_spec p e (fexp F32.prec F32.emax (Zpos (digits2_pos p) + e))) as H.
  destruct (shl_align p e _) as [mz ez]. destruct H as (Hez & Hmz & Hd).
  exists mz, ez, (fexp F32.prec F32.emax (Zpos (digits2_pos p) + e)).
  repeat split; try assumption.
  rewrite binary_round_aux_finish. unfold shr_fexp. rewrite shr_shrn.
  cbn [fst snd shr_record_of_loc Zdigits2]. fold (exact_record (Zpos mz)).
  rewrite Hd. f_equal. rewrite fexp_eq in *. lia.
Qed.

Lemma binary_round_mono p1 p2 e :
  (p1 <= p2)%positive ->
  SFltb (binary_round F32.prec F32.emax false p2 e) (binary_round F32.prec F32.emax false p1 e) = false.
Proof.
  intros Hp.
  destruct (binary_round_finish p1 e) as (mz1 & ez1 & c1 & Hc1 & Hez1 & Hmz1 & Hd1 & ->).
  destruct (binary_round_finish p2 e) as (mz2 & ez2 & c2 & Hc2 & Hez2 & Hmz2 & Hd2 & ->).
  rewrite fexp_eq in Hc1, Hc2.
  pose proof (Zdigits2_mono (Zpos p1) (Zpos p2) ltac:(lia)) as HD. cbn [Zdigits2] in HD.
  assert (N1 : 0 <= c1 - ez1) by lia. assert (N2 : 0 <= c2 - ez2) by lia.
  pose proof (Zdigits2_shrn (c1 - ez1) (exact_record (Zpos mz1)) ltac:(cbn; lia) N1) as E1.
  pose proof (Zdigits2_shrn (c2 - ez2) (exact_record (Zpos mz2)) ltac:(cbn; lia) N2) as E2.
  destruct (shrn_mono (c1 - ez1) (exact_record (Zpos mz1)) (exact_record (Zpos mz1)) ltac:(cbn; lia) (Z.le_refl _)) as [P1 _].
  destruct (shrn_mono (c2 - ez2) (exact_record (Zpos mz2)) (exact_record (Zpos mz2)) ltac:(cbn; lia) (Z.le_refl _)) as [P2 _].
  cbn [exact_record shr_m Zdigits2] in E1, E2.
  pose proof (rne_bounds (shrn (exact_record (Zpos mz1)) (c1 - ez1))) as B1.
  pose proof (rne_bounds (shrn (exact_record (Zpos mz2)) (c2 - ez2))) as B2.
  destruct (Z.eq_dec c1 c2) as [Hc|Hc].
  - (* same canonical exponent: the shifts coincide *)
    replace ez2 with ez1 by lia. replace c2 with c1 by lia.
    apply finish_mono; [lia|]. split; [lia|].
    apply rne_mono; [assumption|].
    apply shrn_mono; [cbn; lia|].
    cbv [shr_weight exact_record shr_m shr_r shr_s Z.b2z].
    assert (Hpow : 0 <= 2 ^ (e - ez1)) by (apply Z.pow_nonneg; lia).
    assert (Hez : ez2 = ez1) by lia. rewrite Hez in Hmz2.
    assert (Z.pos p1 * 2 ^ (e - ez1) <= Z.pos p2 * 2 ^ (e - ez1))
      by (apply Z.mul_le_mono_nonneg_r; lia).
    lia.
  - (* the larger input lands in a higher binade *)
    apply finish_lt_exp; [lia| |].
    + split; [lia|].
      set (q1 := shr_m (shrn (exact_record (Zpos mz1)) (c1 - ez1))) in *.
      assert (Zdigits2 q1 <= 24) by lia.
      pose proof (Zdigits2_lt q1 P1) as L1.
      assert (2 ^ Zdigits2 q1 <= 2 ^ 24) by (apply Z.pow_le_mono_r; lia). lia.
    + set (q2 := shr_m (shrn (exact_record (Zpos mz2)) (c2 - ez2))) in *.
      assert (D : Zdigits2 q2 = 24) by lia.
      pose proof (Zdigits2_lt q2 P2) as L2. rewrite D in L2.
      pose proof (Zdigits2_ge q2) as G2. rewrite D in G2. change (2 ^ (24 - 1)) with (2 ^ 23) in G2.
      assert (0 < q2) by (apply Zdigits2_pos_iff; lia). lia.
Qed.

Lemma binary_round_aux_opp sx mx ex lx :
  binary_round_aux F32.prec F32.emax (negb sx) mx ex lx = SFopp (binary_round_aux F32.prec F32.emax sx mx ex lx).
Proof.
  unfold binary_round_aux.
  destruct (shr_fexp F32.prec F32.emax mx ex lx) as [mrs' e'].
  destruct (shr_fexp F32.prec F32.emax _ e' loc_Exact) as [mrs'' e''].
  destruct (shr_m mrs''); try reflexivity.
  destruct (e'' <=? F32.emax - F32.prec); reflexivity.
Qed.

Lemma binary_round_opp p e :
  binary_round F32.prec F32.emax true p e = SFopp (binary_round F32.prec F32.emax false p e).
Proof.
  unfold binary_round. destruct (shl_align p e _) as [mz ez].
  apply (binary_round_aux_opp false).
Qed.

Lemma binary_round_aux_shape mx ex lx :
  nonneg_shape (binary_round_aux F32.prec F32.emax false mx ex lx) = true.
Proof.
  unfold binary_round_aux.
  destruct (shr_fexp F32.prec F32.emax mx ex lx) as [mrs' e'].
  destruct (shr_fexp F32.prec F32.emax _ e' loc_Exact) as [mrs'' e''].
  destruct (shr_m mrs''); try reflexivity.
  destruct (e'' <=? F32.emax - F32.prec); reflexivity.
Qed.

Lemma binary_round_shape p e : nonneg_shape (binary_round F32.prec F32.emax false p e) = true.
Proof.
  unfold binary_round. destruct (shl_align p e _) as [mz ez].
  apply binary_round_aux_shape.
Qed.

Lemma SFcompare_opp x y : SFcompare (SFopp x) (SFopp y) = SFcompare y x.
Proof.
  destruct x as [[]|[]| |[] mx ex], y as [[]|[]| |[] my ey]; try reflexivity;
    cbn [SFopp negb SFcompare];
    change (Pos.compare_cont Eq mx my) with (mx ?= my)%positive;
    change (Pos.compare_cont Eq my mx) with (my ?= mx)%positive;
    rewrite (Z.compare_antisym ex ey), (Pos.compare_antisym mx my);
    destruct (ex ?= ey); cbn; try reflexivity;
    destruct (mx ?= my)%positive; reflexivity.
Qed.

Lemma SFltb_opp x y : SFltb (SFopp x) (SFopp y) = SFltb y x.
Proof. unfold SFltb. now rewrite SFcompare_opp. Qed.

Lemma SFltb_shapes x y :
  nonneg_shape x = true -> nonneg_shape y = true -> SFltb x (SFopp y) = false.
Proof.
  destruct x as [[]|[]| |[] mx ex], y as [[]|[]| |[] my ey]; try discriminate; reflexivity.
Qed.

Lemma binary_normalize_mono m1 m2 e s1 s2 :
  m1 <= m2 ->
  SFltb (binary_normalize F32.prec F32.emax m2 e s2) (binary_normalize F32.prec F32.emax m1 e s1) = false.
Proof.
  intros H. destruct m1 as [|p1|p1], m2 as [|p2|p2]; try lia; cbn [binary_normalize].
  - destruct s1, s2; reflexivity.
  - pose proof (binary_round_shape p2 e) as S.
    destruct (binary_round F32.prec F32.emax false p2 e) as [[]|[]| |[] ? ?], s1; try discriminate; reflexivity.
  - apply binary_round_mono. lia.
  - rewrite binary_round_opp. pose proof (binary_round_shape p1 e) as S.
    destruct (binary_round F32.prec F32.emax false p1 e) as [[]|[]| |[] ? ?], s2; try discriminate; reflexivity.
  - rewrite binary_round_opp. apply SFltb_shapes; apply binary_round_shape.
  - rewrite !binary_round_opp, SFltb_opp. apply binary_round_mono. lia.
Qed.

Lemma SFsqrt_shape d : sqrt_shape (SFsqrt F32.prec F32.emax d) = true.
Proof.
  destruct d as [[]|[]| |[] m e]; try reflexivity.
  cbn [SFsqrt]. destruct (SFsqrt_core_binary F32.prec F32.emax (Zpos m) e) as [[mz ez] lz].
  pose proof (binary_round_aux_shape mz ez lz) as S.
  destruct (binary_round_aux F32.prec F32.emax false mz ez lz) as [[]|[]| |[] ? ?]; try discriminate; reflexivity.
Qed.

Lemma SFltb_irrefl x : SFltb x x = false.
Proof.
  destruct x as [[]|[]| |[] m e]; try reflexivity; unfold SFltb, SFcompare;
    rewrite Z.compare_refl; change (Pos.compare_cont Eq m m) with (m ?= m)%positive;
    rewrite Pos.compare_refl; reflexivity.
Qed.

(** The near root never exceeds the far root: [b - s <= b + s] survives
    rounding whenever [s] carries no negative sign. *)
Lemma SFadd_SFsub_ordered b s :
  sqrt_shape s = true ->
  SFltb (SFadd F32.prec F32.emax b s) (SFsub F32.prec F32.emax b s) = false.
Proof.
  intros Hs.
  destruct s as [[]|[]| |[] ms es]; try discriminate Hs.
  - destruct b as [[]|[]| |[] mb eb]; try reflexivity; cbn [SFadd SFsub]; apply SFltb_irrefl.
  - destruct b as [[]|[]| |[] mb eb]; try reflexivity; cbn [SFadd SFsub]; apply SFltb_irrefl.
  - destruct b as [[]|[]| |[] mb eb]; reflexivity.
  - destruct b as [[]|[]| |[] mb eb]; reflexivity.
  - destruct b as [sb|sb| |sb mb eb]; try (destruct sb; reflexivity).
    + cbn [SFadd SFsub negb]. unfold SFltb, SFcompare. reflexivity.
    + cbn [SFadd SFsub]. apply binary_normalize_mono. cbn [cond_Zopp]. lia.
Qed.

Lemma roots_ordered b d :
  SFltb (SFadd F32.prec F32.emax b (SFsqrt F32.prec F32.emax d)) (SFsub F32.prec F32.emax b (SFsqrt F32.prec F32.emax d)) = false.
Proof. apply SFadd_SFsub_ordered, SFsqrt_shape. Qed.

(** ** Sphere intersection *)

Lemma ltb_INFINITY_l (x : float) : (INFINITY <? x)%f32 = false.
Proof. destruct x as [[]|[]| |[] m e]; reflexivity. Qed.

Lemma inside_valid minT maxT t : inside minT maxT t = true -> (t <? INFINITY)%f32 = true.
Proof.
  unfold inside. intros H. apply andb_true_iff in H as [_ H].
  now apply ltb_lt_INFINITY in H.
Qed.

Lemma inside_widen minT maxT B t :
  (B <=? maxT)%f32 = true -> inside minT B t = true -> inside minT maxT t = true.
Proof.
  unfold inside. intros HB H. apply andb_true_iff in H as [H1 H2].
  rewrite H1. cbn [andb]. exact (ltb_leb_trans _ _ _ H2 HB).
Qed.

Lemma inside_below minT maxT B t :
  inside minT maxT t = true -> inside minT B t = (t <? B)%f32.
Proof.
  unfold inside. intros H. apply andb_true_iff in H as [-> _]. reflexivity.
Qed.

Lemma inside_empty minT maxT t :
  (minT >=? maxT)%f32 = true -> inside minT maxT t = false.
Proof. intros H. f32_order. Qed.

(** A root below the bound and one not below it are strictly ordered. *)
Lemma below_not_below (t1 t2 B maxT : float) :
  (t2 <? B)%f32 = true -> (t1 <? B)%f32 = false -> (t1 <? maxT)%f32 = true ->
  (t2 <? t1)%f32 = true.
Proof. intros; f32_order. Qed.

Lemma not_leb_not_gtb_nan (d : float) :
  (d <=? F32.zero)%f32 = false -> (d >? F32.zero)%f32 = false -> d = S754_nan.
Proof. destruct d as [[]|[]| |[] m e]; intros; try discriminate; reflexivity. Qed.

Lemma leb_zero_not_gtb (d : float) :
  (d <=? F32.zero)%f32 = true -> (d >? F32.zero)%f32 = false.
Proof. destruct d as [[]|[]| |[] m e]; intros; try discriminate; reflexivity. Qed.

Lemma sub_nan_r (b : float) : (b - F32.sqrt S754_nan)%f32 = S754_nan.
Proof. destruct b as [[]|[]| |[] m e]; reflexivity. Qed.

Lemma add_nan_r (b : float) : (b + F32.sqrt S754_nan)%f32 = S754_nan.
Proof. destruct b as [[]|[]| |[] m e]; reflexivity. Qed.

Lemma inside_nan minT maxT : inside minT maxT S754_nan = false.
Proof. unfold inside. destruct minT as [[]|[]| |[] m e]; reflexivity. Qed.

(** The far root is never strictly below the near root. *)
Lemma t2_not_below_t1 s ray : (SphereSpec.t2 s ray <? SphereSpec.t1 s ray)%f32 = false.
Proof. unfold SphereSpec.t1, SphereSpec.t2. apply roots_ordered. Qed.

Lemma intersect_unfold s ray minT maxT :
  Sphere.intersect s ray minT maxT =
  if (SphereSpec.discriminant s ray <=? F32.zero)%f32 then noIntersection
  else if inside minT maxT (SphereSpec.t1 s ray) then
         SphereSpec.hit_at s ray (SphereSpec.t1 s ray)
  else if inside minT maxT (SphereSpec.t2 s ray) then
         SphereSpec.hit_at s ray (SphereSpec.t2 s ray)
  else noIntersection.
Proof.
  cbv beta zeta delta
    [Sphere.intersect SphereSpec.discriminant SphereSpec.b SphereSpec.c
     SphereSpec.t1 SphereSpec.t2 SphereSpec.hit_at inside Ray.at_ Sphere.normal].
  reflexivity.
Qed.

Lemma intersectAny_unfold s ray minT maxT :
  Sphere.intersectAny s ray minT maxT =
  (SphereSpec.discriminant s ray >? F32.zero)%f32
  && (inside minT maxT (SphereSpec.t1 s ray) || inside minT maxT (SphereSpec.t2 s ray)).
Proof.
  cbv beta zeta delta
    [Sphere.intersectAny SphereSpec.discriminant SphereSpec.b SphereSpec.c
     SphereSpec.t1 SphereSpec.t2 inside].
  reflexivity.
Qed.

(** A query answers the sentinel or a record strictly inside its bounds. *)
Lemma intersect_cases s ray minT maxT :
  Sphere.intersect s ray minT maxT = noIntersection
  \/ inside minT maxT (Intersection.dist (Sphere.intersect s ray minT maxT)) = true.
Proof.
  rewrite intersect_unfold.
  destruct (SphereSpec.discriminant s ray <=? F32.zero)%f32; [now left|].
  destruct (inside minT maxT (SphereSpec.t1 s ray)) eqn:I1; [now right|].
  destruct (inside minT maxT (SphereSpec.t2 s ray)) eqn:I2; [now right|now left].
Qed.

Lemma intersect_valid_color s ray minT maxT :
  valid (Sphere.intersect s ray minT maxT) = true ->
  Intersection.color (Sphere.intersect s ray minT maxT) = Sphere.color s.
Proof.
  rewrite intersect_unfold.
  destruct (SphereSpec.discriminant s ray <=? F32.zero)%f32; [discriminate|].
  destruct (inside minT maxT (SphereSpec.t1 s ray)); [reflexivity|].
  destruct (inside minT maxT (SphereSpec.t2 s ray)); [reflexivity|discriminate].
Qed.

(** Narrowing the upper bound to [B <= maxT] keeps every hit below [B]
    and turns every other answer into one that is not below [B]. *)
Lemma intersect_narrow s ray minT maxT B :
  (B <=? maxT)%f32 = true ->
  let h := Sphere.intersect s ray minT maxT in
  let temp := Sphere.intersect s ray minT B in
  (Intersection.dist temp <? B)%f32 = (Intersection.dist h <? B)%f32
  /\ ((Intersection.dist h <? B)%f32 = true -> temp = h).
Proof.
  intros HB. cbv zeta. rewrite !intersect_unfold.
  destruct (SphereSpec.discriminant s ray <=? F32.zero)%f32; [now split|].
  pose proof (t2_not_below_t1 s ray) as Hord.
  set (t1 := SphereSpec.t1 s ray) in *. set (t2 := SphereSpec.t2 s ray) in *.
  destruct (inside minT B t1) eqn:I1'.
  - rewrite (inside_widen _ _ _ _ HB I1'). now split.
  - destruct (inside minT maxT t1) eqn:I1.
    + rewrite (inside_below _ _ B _ I1) in I1'.
      destruct (inside minT B t2) eqn:I2'.
      * exfalso. unfold inside in I1, I2'.
        apply andb_true_iff in I1 as [_ I1]. apply andb_true_iff in I2' as [_ I2'].
        rewrite (below_not_below t1 t2 B maxT I2' I1' I1) in Hord. discriminate.
      * cbn [Intersection.dist SphereSpec.hit_at noIntersection].
        rewrite ltb_INFINITY_l, I1'. split; [reflexivity|discriminate].
    + destruct (inside minT B t2) eqn:I2'.
      * rewrite (inside_widen _ _ _ _ HB I2'). now split.
      * destruct (inside minT maxT t2) eqn:I2.
        -- rewrite (inside_below _ _ B _ I2) in I2'.
           cbn [Intersection.dist SphereSpec.hit_at noIntersection].
           rewrite ltb_INFINITY_l, I2'. split; [reflexivity|discriminate].
        -- now split.
Qed.

(** ** Scene aggregation *)

Lemma leb_refl_ordered (x : float) :
  (x <=? INFINITY)%f32 = true -> (x <=? x)%f32 = true.
Proof. intros; f32_order. Qed.

Lemma leb_trans (x y z : float) :
  (x <=? y)%f32 = true -> (y <=? z)%f32 = true -> (x <=? z)%f32 = true.
Proof. intros; f32_order. Qed.

Lemma not_ltb_leb (x y : float) :
  (x <=? INFINITY)%f32 = true -> (y <=? INFINITY)%f32 = true ->
  (x <? y)%f32 = false -> (y <=? x)%f32 = true.
Proof. intros; f32_order. Qed.

Lemma leb_not_ltb (x y : float) : (x <=? y)%f32 = true -> (y <? x)%f32 = false.
Proof. intros; f32_order. Qed.

Lemma leb_neq_ltb (x y : float) :
  (x <=? y)%f32 = true -> (x =? y)%f32 = false -> (x <? y)%f32 = true.
Proof. intros; f32_order. Qed.

Lemma ltb_invalid (x y : float) :
  (x <? INFINITY)%f32 = true -> (y <=? INFINITY)%f32 = true ->
  (y <? INFINITY)%f32 = false -> (x <? y)%f32 = true.
Proof.
  destruct x as [[]|[]| |[] mx ex], y as [[]|[]| |[] my ey];
    intros; try discriminate; reflexivity.
Qed.

Lemma ordered_noIntersection : SceneSpec.ordered noIntersection.
Proof. reflexivity. Qed.

Lemma ordered_intersect s ray minT maxT : SceneSpec.ordered (Sphere.intersect s ray minT maxT).
Proof.
  unfold SceneSpec.ordered. destruct (intersect_cases s ray minT maxT) as [-> | H]; [reflexivity|].
  apply ltb_leb. now apply inside_valid in H.
Qed.

Lemma ordered_hits scene ray minT maxT :
  Forall SceneSpec.ordered (SceneSpec.hits scene ray minT maxT).
Proof.
  unfold SceneSpec.hits. apply Forall_forall. intros h Hin.
  apply in_map_iff in Hin as (s & <- & _). apply ordered_intersect.
Qed.

Lemma fold_pick_in hs : forall acc,
  fold_left SceneSpec.pick hs acc = acc \/ In (fold_left SceneSpec.pick hs acc) hs.
Proof.
  induction hs as [|h hs IH]; intros acc; cbn [fold_left]; [now left|].
  destruct (IH (SceneSpec.pick acc h)) as [E|E].
  - rewrite E. unfold SceneSpec.pick.
    destruct (Intersection.dist h <? Intersection.dist acc)%f32; [right; now left|now left].
  - right. now right.
Qed.

Lemma fold_pick_le hs : forall acc,
  SceneSpec.ordered acc -> Forall SceneSpec.ordered hs ->
  let r := fold_left SceneSpec.pick hs acc in
  SceneSpec.ordered r
  /\ (Intersection.dist r <=? Intersection.dist acc)%f32 = true
  /\ Forall (fun h => (Intersection.dist r <=? Intersection.dist h)%f32 = true) hs.
Proof.
  induction hs as [|h hs IH]; intros acc Hacc Hhs; cbn [fold_left].
  - repeat split; [assumption|now apply leb_refl_ordered|constructor].
  - inversion Hhs as [|? ? Hh Hrest]; subst.
    assert (Hp : SceneSpec.ordered (SceneSpec.pick acc h)
                 /\ (Intersection.dist (SceneSpec.pick acc h) <=? Intersection.dist acc)%f32 = true
                 /\ (Intersection.dist (SceneSpec.pick acc h) <=? Intersection.dist h)%f32 = true).
    { unfold SceneSpec.pick.
      destruct (Intersection.dist h <? Intersection.dist acc)%f32 eqn:E.
      - repeat split; [assumption|now apply ltb_leb|now apply leb_refl_ordered].
      - repeat split; [assumption|now apply leb_refl_ordered|now apply not_ltb_leb]. }
    destruct Hp as (Op & Lacc & Lh).
    destruct (IH _ Op Hrest) as (Or & Lr & Fr).
    repeat split; [assumption|exact (leb_trans _ _ _ Lr Lacc)|].
    constructor; [exact (leb_trans _ _ _ Lr Lh)|assumption].
Qed.

Lemma fold_pick_keep hs : forall acc,
  Forall (fun h => (Intersection.dist h <? Intersection.dist acc)%f32 = false) hs ->
  fold_left SceneSpec.pick hs acc = acc.
Proof.
  induction hs as [|h hs IH]; intros acc H; cbn [fold_left]; [reflexivity|].
  inversion H as [|? ? Hh Hrest]; subst.
  unfold SceneSpec.pick at 2. rewrite Hh. now apply IH.
Qed.

(** The first record strictly nearer than everything before it and not
    beaten by anything after it is the one the scan keeps. *)
Lemma fold_pick_first pre x post acc :
  (Intersection.dist x <? Intersection.dist acc)%f32 = true ->
  Forall (fun h => (Intersection.dist x <? Intersection.dist h)%f32 = true) pre ->
  Forall (fun h => (Intersection.dist h <? Intersection.dist x)%f32 = false) post ->
  fold_left SceneSpec.pick (pre ++ x :: post) acc = x.
Proof.
  intros Hacc Hpre Hpost. rewrite fold_left_app. cbn [fold_left].
  assert (E : SceneSpec.pick (fold_left SceneSpec.pick pre acc) x = x).
  { destruct (fold_pick_in pre acc) as [-> | Hin]; unfold SceneSpec.pick at 1;
      [now rewrite Hacc|].
    rewrite Forall_forall in Hpre. now rewrite (Hpre _ Hin). }
  rewrite E. now apply fold_pick_keep.
Qed.

(** *** Narrowing does not change the scan *)

Lemma intersect_step_pick ray minT maxT result best s :
  SceneSpec.scan_inv maxT result best ->
  SceneSpec.scan_inv maxT (Scene.intersect_step ray minT result s)
    (SceneSpec.pick best (Sphere.intersect s ray minT maxT)).
Proof.
  intros [[-> ->] | [-> Hb]]; unfold Scene.intersect_step, SceneSpec.pick.
  - cbn [Intersection.set_dist Intersection.dist noIntersection].
    destruct (intersect_cases s ray minT maxT) as [E | E].
    + rewrite E. cbn [Intersection.dist noIntersection].
      rewrite !ltb_INFINITY_l. left. now split.
    + rewrite (inside_valid _ _ _ E). unfold inside in E.
      apply andb_true_iff in E as [_ E]. rewrite E. right. now split.
  - pose proof (intersect_narrow s ray minT maxT (Intersection.dist best) (ltb_leb _ _ Hb))
      as [Hd Hsame].
    cbv zeta in Hd, Hsame. rewrite Hd.
    destruct (Intersection.dist (Sphere.intersect s ray minT maxT) <? Intersection.dist best)%f32
      eqn:E.
    + rewrite (Hsame eq_refl). right. split; [reflexivity|].
      exact (ltb_trans _ _ _ E Hb).
    + right. now split.
Qed.

Lemma scan_narrow ray minT maxT l : forall result best,
  SceneSpec.scan_inv maxT result best ->
  SceneSpec.scan_inv maxT (fold_left (Scene.intersect_step ray minT) l result)
    (fold_left SceneSpec.pick (map (fun s => Sphere.intersect s ray minT maxT) l) best).
Proof.
  induction l as [|s l IH]; intros result best Hinv; cbn [fold_left map]; [assumption|].
  apply IH. now apply intersect_step_pick.
Qed.

Lemma intersect_nearest scene ray minT maxT :
  Scene.intersect scene ray minT maxT = SceneSpec.nearest scene ray minT maxT.
Proof.
  unfold Scene.intersect, SceneSpec.nearest, SceneSpec.hits.
  assert (H0 : SceneSpec.scan_inv maxT (Intersection.set_dist noIntersection maxT) noIntersection)
    by (left; now split).
  destruct (scan_narrow ray minT maxT (Scene.spheres scene) _ _ H0) as [[-> ->] | [-> Hb]].
  - cbn [Intersection.set_dist Intersection.dist]. now rewrite ltb_irrefl.
  - now rewrite Hb.
Qed.

(** *** The scan returns the nearest hit *)

Lemma forallb_false_exists {A} (f : A -> bool) (l : list A) :
  forallb f l = false -> exists x, In x l /\ f x = false.
Proof.
  induction l as [|a l IH]; cbn [forallb]; [discriminate|].
  destruct (f a) eqn:E; cbn [andb]; intros H.
  - destruct (IH H) as (x & Hin & Hx). exists x. split; [now right|assumption].
  - exists a. split; [now left|assumption].
Qed.

Lemma nearest_cases scene ray minT maxT :
  let r := SceneSpec.nearest scene ray minT maxT in
  let hs := SceneSpec.hits scene ray minT maxT in
  (Forall (fun h => valid h = false) hs /\ r = noIntersection)
  \/ (valid r = true /\ inside minT maxT (Intersection.dist r) = true /\ In r hs
      /\ Forall (fun h => valid h = true ->
                          (Intersection.dist r <=? Intersection.dist h)%f32 = true) hs).
Proof.
  cbv zeta. unfold SceneSpec.nearest.
  set (hs := SceneSpec.hits scene ray minT maxT).
  destruct (fold_pick_le hs noIntersection ordered_noIntersection
              (ordered_hits scene ray minT maxT)) as (Or & _ & Fr).
  cbv zeta in Or, Fr.
  destruct (forallb (fun h => negb (valid h)) hs) eqn:Hall.
  - left. rewrite forallb_forall in Hall.
    assert (Forall (fun h => valid h = false) hs) as Hinv.
    { apply Forall_forall. intros h Hin. apply Hall in Hin. now apply negb_true_iff in Hin. }
    split; [assumption|]. now apply fold_pick_keep.
  - right.
    apply forallb_false_exists in Hall as (h0 & Hin0 & Hv0).
    apply negb_false_iff in Hv0.
    set (r := fold_left SceneSpec.pick hs noIntersection) in *.
    assert (Hv : valid r = true).
    { rewrite Forall_forall in Fr. specialize (Fr _ Hin0).
      unfold valid in *. revert Fr Hv0.
      generalize (Intersection.dist r), (Intersection.dist h0). intros; f32_order. }
    assert (Hin : In r hs).
    { destruct (fold_pick_in hs noIntersection) as [E | Hin]; [|exact Hin].
      fold r in E. rewrite E in Hv. discriminate. }
    repeat split; try assumption.
    + unfold hs, SceneSpec.hits in Hin. apply in_map_iff in Hin as (s & Es & _).
      destruct (intersect_cases s ray minT maxT) as [E | E]; rewrite Es in E;
        [rewrite E in Hv; discriminate|exact E].
    + apply Forall_forall. intros h Hh _. rewrite Forall_forall in Fr. now apply Fr.
Qed.

(** *** Hit distances are never negative zero *)

Lemma shr_fexp_snd m e l : -149 <= snd (shr_fexp F32.prec F32.emax m e l).
Proof. unfold shr_fexp. rewrite shr_shrn, fexp_eq. cbn [snd]. lia. Qed.

Lemma finish_grounded sx m c : -149 <= c -> grounded (finish sx m c) = true.
Proof.
  intros Hc. unfold finish, shr_fexp. rewrite shr_shrn.
  destruct (shr_m _); try reflexivity.
  destruct (_ <=? _); [|reflexivity]. cbn [grounded]. apply Z.leb_le. lia.
Qed.

Lemma binary_round_aux_grounded sx mx ex lx :
  grounded (binary_round_aux F32.prec F32.emax sx mx ex lx) = true.
Proof. rewrite binary_round_aux_finish. apply finish_grounded, shr_fexp_snd. Qed.

Lemma shr_m_record_of_loc m l : shr_m (shr_record_of_loc m l) = m.
Proof. destruct l as [|[]]; reflexivity. Qed.

(** A positive mantissa at an exponent not below [emin] keeps a digit
    through the alignment shift. *)
Lemma shr_fexp_pos m e l :
  0 < m -> -149 <= e -> 0 < shr_m (fst (shr_fexp F32.prec F32.emax m e l)).
Proof.
  intros Hm He. unfold shr_fexp. rewrite shr_shrn, fexp_eq. cbn [fst].
  rewrite shrn_max.
  set (r := shr_record_of_loc m l).
  assert (Hr : 0 <= shr_m r) by (unfold r; rewrite shr_m_record_of_loc; lia).
  set (n := Z.max 0 (Z.max (Zdigits2 m + e - 24) (-149) - e)).
  assert (Hn : 0 <= n) by (unfold n; lia).
  pose proof (Zdigits2_shrn n r Hr Hn) as D.
  destruct (shrn_mono n r r Hr (Z.le_refl _)) as [P _].
  unfold r in D at 2. rewrite shr_m_record_of_loc in D.
  assert (0 < Zdigits2 m) by (apply (Zdigits2_pos_iff m); lia).
  apply (Zdigits2_pos_iff _ P). rewrite D. unfold n. lia.
Qed.

Lemma finish_nonzero sx m c : -149 <= c -> 0 < m -> nonzero (finish sx m c) = true.
Proof.
  intros Hc Hm. pose proof (shr_fexp_pos m c loc_Exact Hm Hc) as P.
  unfold finish. destruct (shr_fexp F32.prec F32.emax m c loc_Exact) as [mrs e].
  cbn [fst] in P. destruct (shr_m mrs); try lia.
  destruct (_ <=? _); reflexivity.
Qed.

Lemma binary_round_aux_nonzero sx mx ex lx :
  0 < mx -> -149 <= ex ->
  nonzero (binary_round_aux F32.prec F32.emax sx mx ex lx) = true.
Proof.
  intros Hm He. rewrite binary_round_aux_finish.
  apply finish_nonzero; [apply shr_fexp_snd|].
  pose proof (shr_fexp_pos mx ex lx Hm He) as P.
  pose proof (rne_bounds (fst (shr_fexp F32.prec F32.emax mx ex lx))). lia.
Qed.

Lemma binary_round_nonzero sx p e :
  -149 <= e -> nonzero (binary_round F32.prec F32.emax sx p e) = true.
Proof.
  intros He. unfold binary_round.
  pose proof (shl_align_spec p e (fexp F32.prec F32.emax (Zpos (digits2_pos p) + e))) as H.
  destruct (shl_align p e _) as [mz ez]. destruct H as (Hez & _ & _).
  apply binary_round_aux_nonzero; [lia|]. rewrite fexp_eq in Hez. lia.
Qed.

Lemma binary_round_grounded sx p e :
  grounded (binary_round F32.prec F32.emax sx p e) = true.
Proof.
  unfold binary_round. destruct (shl_align p e _) as [mz ez].
  apply binary_round_aux_grounded.
Qed.

Lemma binary_normalize_grounded m e sz :
  grounded (binary_normalize F32.prec F32.emax m e sz) = true.
Proof. destruct m; cbn [binary_normalize]; try reflexivity; apply binary_round_grounded. Qed.

Lemma binary_normalize_not_negzero m e :
  -149 <= e -> not_negzero (binary_normalize F32.prec F32.emax m e false) = true.
Proof.
  intros He. destruct m as [|p|p]; cbn [binary_normalize]; [reflexivity| |].
  - pose proof (binary_round_nonzero false p e He) as N.
    destruct (binary_round F32.prec F32.emax false p e) as [[]|[]| |[] ? ?];
      try discriminate; reflexivity.
  - pose proof (binary_round_nonzero true p e He) as N.
    destruct (binary_round F32.prec F32.emax true p e) as [[]|[]| |[] ? ?];
      try discriminate; reflexivity.
Qed.

Lemma mul_grounded (x y : float) : grounded (x * y)%f32 = true.
Proof.
  destruct x as [sx|sx| |sx mx ex], y as [sy|sy| |sy my ey]; try reflexivity.
  apply binary_round_aux_grounded.
Qed.

Lemma add_grounded (x y : float) :
  grounded x = true -> grounded y = true -> grounded (x + y)%f32 = true.
Proof.
  destruct x as [[]|[]| |sx mx ex], y as [[]|[]| |sy my ey]; intros Hx Hy;
    try reflexivity; try assumption.
  apply binary_normalize_grounded.
Qed.

Lemma sub_grounded (x y : float) :
  grounded x = true -> grounded y = true -> grounded (x - y)%f32 = true.
Proof.
  destruct x as [[]|[]| |sx mx ex], y as [[]|[]| |sy my ey]; intros Hx Hy;
    try reflexivity; try assumption.
  apply binary_normalize_grounded.
Qed.

Lemma div2_bounds e : 2 * Z.div2 e <= e <= 2 * Z.div2 e + 1.
Proof.
  rewrite Z.div2_div. pose proof (Z.div_mod e 2). pose proof (Z.mod_pos_bound e 2). lia.
Qed.

(** The square root of a positive finite value is a positive finite value,
    an infinity or NaN, never zero. *)
Lemma sqrt_core_pos m e :
  -149 <= e ->
  let '(q, e', l) := SFsqrt_core_binary F32.prec F32.emax (Zpos m) e in
  0 < q /\ -149 <= e'.
Proof.
  intros He. unfold SFsqrt_core_binary. rewrite fexp_eq.
  set (e' := Z.min _ (Z.div2 e)).
  pose proof (div2_bounds e) as H2.
  assert (He' : -149 <= e') by (unfold e'; lia).
  assert (Hs : 0 <= e - 2 * e') by (unfold e'; lia).
  assert (Hm : exists p, match e - 2 * e' with
                         | Zpos _ => Z.shiftl (Zpos m) (e - 2 * e')
                         | Z0 => Zpos m
                         | Zneg _ => 0
                         end = Zpos p).
  { destruct (e - 2 * e') as [|s|s] eqn:E; [now exists m| |lia].
    rewrite Z.shiftl_mul_pow2 by lia.
    assert (0 < 2 ^ Zpos s) by (apply Z.pow_pos_nonneg; lia).
    destruct (Zpos m * 2 ^ Zpos s) as [|p|p] eqn:E2; try lia. now exists p. }
  destruct Hm as (p & ->).
  unfold Z.sqrtrem. destruct (Pos.sqrtrem p) as [s [|r|]]; split; (lia || assumption).
Qed.

Lemma sqrt_positive (d : float) :
  grounded d = true -> (d <=? F32.zero)%f32 = false ->
  grounded (F32.sqrt d) = true
  /\ match F32.sqrt d with
     | S754_finite false _ _ | S754_infinity false | S754_nan => True
     | _ => False
     end.
Proof.
  destruct d as [[]|[]| |[] m e]; intros G H; try discriminate H; try (split; [reflexivity|exact I]).
  cbn [grounded] in G. apply Z.leb_le in G.
  unfold F32.sqrt. cbn [SFsqrt].
  pose proof (sqrt_core_pos m e G) as C.
  destruct (SFsqrt_core_binary F32.prec F32.emax (Zpos m) e) as [[q e'] l].
  destruct C as [Hq He'].
  pose proof (binary_round_aux_grounded false q e' l) as Gr.
  pose proof (binary_round_aux_nonzero false q e' l Hq He') as Nz.
  pose proof (binary_round_aux_shape q e' l) as Sh.
  split; [assumption|].
  destruct (binary_round_aux F32.prec F32.emax false q e' l) as [[]|[]| |[] ? ?];
    try discriminate; exact I.
Qed.

Lemma sub_not_negzero (b s : float) :
  grounded b = true -> grounded s = true ->
  match s with
  | S754_finite false _ _ | S754_infinity false | S754_nan => True
  | _ => False
  end ->
  not_negzero (b - s)%f32 = true.
Proof.
  destruct s as [[]|[]| |[] ms es]; intros Gb Gs Hs; try contradiction.
  - destruct b as [[]|[]| |[] mb eb]; reflexivity.
  - destruct b as [[]|[]| |[] mb eb]; reflexivity.
  - destruct b as [[]|[]| |sb mb eb]; try reflexivity.
    unfold F32.sub. cbn [SFsub]. apply binary_normalize_not_negzero.
    cbn [grounded] in Gb, Gs. apply Z.leb_le in Gb, Gs. lia.
Qed.

Lemma add_not_negzero (b s : float) :
  grounded b = true -> grounded s = true ->
  match s with
  | S754_finite false _ _ | S754_infinity false | S754_nan => True
  | _ => False
  end ->
  not_negzero (b + s)%f32 = true.
Proof.
  destruct s as [[]|[]| |[] ms es]; intros Gb Gs Hs; try contradiction.
  - destruct b as [[]|[]| |[] mb eb]; reflexivity.
  - destruct b as [[]|[]| |[] mb eb]; reflexivity.
  - destruct b as [[]|[]| |sb mb eb]; try reflexivity.
    unfold F32.add. cbn [SFadd]. apply binary_normalize_not_negzero.
    cbn [grounded] in Gb, Gs. apply Z.leb_le in Gb, Gs. lia.
Qed.

Lemma dot_grounded (u v : vec3) : grounded (dot u v) = true.
Proof. unfold vec3.dot. repeat apply add_grounded; apply mul_grounded. Qed.

Lemma hit_dist_not_negzero s ray minT maxT :
  not_negzero (Intersection.dist (Sphere.intersect s ray minT maxT)) = true.
Proof.
  rewrite intersect_unfold.
  destruct (SphereSpec.discriminant s ray <=? F32.zero)%f32 eqn:Hd; [reflexivity|].
  assert (Gb : grounded (SphereSpec.b s ray) = true) by apply dot_grounded.
  assert (Gd : grounded (SphereSpec.discriminant s ray) = true).
  { unfold SphereSpec.discriminant, SphereSpec.c.
    apply sub_grounded; [apply mul_grounded|].
    apply sub_grounded; [apply dot_grounded|apply mul_grounded]. }
  destruct (sqrt_positive _ Gd Hd) as [Gs Ps].
  destruct (inside minT maxT (SphereSpec.t1 s ray)).
  - cbn [Intersection.dist SphereSpec.hit_at]. now apply sub_not_negzero.
  - destruct (inside minT maxT (SphereSpec.t2 s ray)); [|reflexivity].
    cbn [Intersection.dist SphereSpec.hit_at]. now apply add_not_negzero.
Qed.

Lemma same_eq (x y : float) : F32.same x y = true <-> x = y.
Proof.
  split.
  - destruct x as [sx|sx| |sx mx ex], y as [sy|sy| |sy my ey]; cbn [F32.same];
      try discriminate; try reflexivity.
    + intros H. apply Bool.eqb_prop in H. now subst.
    + intros H. apply Bool.eqb_prop in H. now subst.
    + intros H. apply andb_true_iff in H as [H He]. apply andb_true_iff in H as [Hs Hm].
      apply Bool.eqb_prop in Hs. apply Pos.eqb_eq in Hm. apply Z.eqb_eq in He. now subst.
  - intros <-. destruct x as [sx|sx| |sx mx ex]; cbn [F32.same];
      rewrite ?Bool.eqb_reflx, ?Pos.eqb_refl, ?Z.eqb_refl; reflexivity.
Qed.

Lemma same_sym (x y : float) : F32.same x y = F32.same y x.
Proof.
  destruct (F32.same x y) eqn:E1, (F32.same y x) eqn:E2; try reflexivity.
  - apply same_eq in E1. subst. rewrite (proj2 (same_eq y y) eq_refl) in E2. discriminate.
  - apply same_eq in E2. subst. rewrite (proj2 (same_eq x x) eq_refl) in E1. discriminate.
Qed.

(** Apart from the two zeros, values that compare equal are the same. *)
Lemma eqb_same (x y : float) :
  not_negzero x = true -> not_negzero y = true ->
  (x =? y)%f32 = true -> F32.same x y = true.
Proof.
  intros Hx Hy H. apply same_eq.
  destruct x as [[]|[]| |[] mx ex], y as [[]|[]| |[] my ey];
    try discriminate; try reflexivity;
    unfold F32.eqb, SFeqb, SFcompare in H;
    change (Pos.compare_cont Eq mx my) with (mx ?= my)%positive in H;
    destruct (Z.compare_spec ex ey); try discriminate;
    destruct (Pos.compare_spec mx my); try discriminate; now subst.
Qed.

(** *** Ties and reordering *)

Lemma tie_sym h h' : SceneSpec.tie h h' = SceneSpec.tie h' h.
Proof.
  unfold SceneSpec.tie. rewrite same_sym.
  destruct (valid h), (valid h'); reflexivity.
Qed.

(** Every record is tie-free against all the others, wherever it stands. *)
Lemma no_ties_split hs : SceneSpec.no_ties hs = true ->
  forall l1 a l2, hs = l1 ++ a :: l2 ->
  Forall (fun h => SceneSpec.tie a h = false) (l1 ++ l2).
Proof.
  induction hs as [|h0 hs IH]; intros H l1 a l2 E.
  - destruct l1; discriminate E.
  - cbn [SceneSpec.no_ties] in H. apply andb_true_iff in H as [Hhead Hrest].
    rewrite forallb_forall in Hhead.
    destruct l1 as [|b l1]; cbn [app] in E; injection E as -> ->.
    + cbn [app]. apply Forall_forall. intros h Hin.
      apply Hhead in Hin. now apply negb_true_iff in Hin.
    + cbn [app]. constructor.
      * rewrite tie_sym. apply negb_true_iff, Hhead, in_elt.
      * now apply (IH Hrest l1 a l2).
Qed.

Lemma fold_pick_perm hs hs' :
  Forall SceneSpec.ordered hs ->
  Forall (fun h => not_negzero (Intersection.dist h) = true) hs ->
  SceneSpec.no_ties hs = true -> Permutation hs hs' ->
  fold_left SceneSpec.pick hs noIntersection = fold_left SceneSpec.pick hs' noIntersection.
Proof.
  intros Hord Hnz Hties Hperm.
  destruct (fold_pick_le hs noIntersection ordered_noIntersection Hord) as (Or & _ & Fr).
  cbv zeta in Or, Fr.
  destruct (forallb (fun h => negb (valid h)) hs) eqn:Hall.
  - (* nothing is hit *)
    rewrite forallb_forall in Hall.
    assert (Hmiss : forall h, In h hs ->
              (Intersection.dist h <? Intersection.dist noIntersection)%f32 = false).
    { intros h Hin. apply Hall in Hin. now apply negb_true_iff in Hin. }
    rewrite !fold_pick_keep; [reflexivity| |]; apply Forall_forall; intros h Hin.
    + apply Hmiss. eapply Permutation_in; [symmetry|]; eassumption.
    + now apply Hmiss.
  - (* the nearest record is strictly nearer than every other one *)
    apply forallb_false_exists in Hall as (h0 & Hin0 & Hv0).
    apply negb_false_iff in Hv0.
    set (r := fold_left SceneSpec.pick hs noIntersection) in *.
    assert (Hv : valid r = true).
    { rewrite Forall_forall in Fr. specialize (Fr _ Hin0).
      unfold valid in *. revert Fr Hv0.
      generalize (Intersection.dist r), (Intersection.dist h0). intros; f32_order. }
    assert (Hin : In r hs).
    { destruct (fold_pick_in hs noIntersection) as [E | Hin]; [|exact Hin].
      fold r in E. rewrite E in Hv. discriminate. }
    destruct (in_split _ _ Hin) as (l1 & l2 & El).
    pose proof (no_ties_split hs Hties l1 r l2 El) as Hnt.
    assert (Hin' : In r hs') by (eapply Permutation_in; eassumption).
    destruct (in_split _ _ Hin') as (pre & post & El').
    assert (Hrest : Permutation (l1 ++ l2) (pre ++ post)).
    { apply (Permutation_app_inv l1 l2 pre post r). now rewrite <- El, <- El'. }
    assert (Hothers : forall h, In h (pre ++ post) ->
              SceneSpec.tie r h = false
              /\ (Intersection.dist r <=? Intersection.dist h)%f32 = true
              /\ SceneSpec.ordered h
              /\ not_negzero (Intersection.dist h) = true).
    { intros h Hh.
      assert (Hh1 : In h (l1 ++ l2)) by (eapply Permutation_in; [symmetry|]; eassumption).
      assert (Hh2 : In h hs).
      { rewrite El. apply in_app_or in Hh1 as [?|?]; apply in_or_app; [now left|right; now right]. }
      rewrite Forall_forall in Hnt, Fr, Hord, Hnz. auto. }
    symmetry. rewrite El'. apply fold_pick_first.
    + exact Hv.
    + apply Forall_forall. intros h Hh.
      destruct (Hothers h (in_or_app _ _ _ (or_introl Hh))) as (Ht & Hle & Oh & Nh).
      unfold SceneSpec.tie in Ht. rewrite Hv in Ht. cbn [andb] in Ht.
      destruct (valid h) eqn:Hvh; cbn [andb] in Ht.
      * apply leb_neq_ltb; [assumption|].
        destruct (Intersection.dist r =? Intersection.dist h)%f32 eqn:Eq; [|reflexivity].
        rewrite Forall_forall in Hnz.
        rewrite (eqb_same _ _ (Hnz _ Hin) Nh Eq) in Ht. discriminate.
      * now apply ltb_invalid.
    + apply Forall_forall. intros h Hh.
      destruct (Hothers h (in_or_app _ _ _ (or_intror Hh))) as (_ & Hle & _ & _).
      now apply leb_not_ltb.
Qed.

(** *** Empty bounds *)

Lemma intersect_empty s ray minT maxT :
  (minT >=? maxT)%f32 = true -> Sphere.intersect s ray minT maxT = noIntersection.
Proof.
  intros H. destruct (intersect_cases s ray minT maxT) as [E | E]; [exact E|].
  rewrite (inside_empty _ _ _ H) in E. discriminate.
Qed.

Lemma scan_empty ray minT maxT l :
  (minT >=? maxT)%f32 = true ->
  fold_left (Scene.intersect_step ray minT) l (Intersection.set_dist noIntersection maxT)
  = Intersection.set_dist noIntersection maxT.
Proof.
  intros H. induction l as [|s l IH]; cbn [fold_left]; [reflexivity|].
  unfold Scene.intersect_step at 2.
  cbn [Intersection.set_dist Intersection.dist].
  rewrite (intersect_empty _ _ _ _ H). cbn [Intersection.dist noIntersection].
  rewrite ltb_INFINITY_l. exact IH.
Qed.

Lemma intersectAny_empty s ray minT maxT :
  (minT >=? maxT)%f32 = true -> Sphere.intersectAny s ray minT maxT = false.
Proof.
  intros H. rewrite intersectAny_unfold, !(inside_empty _ _ _ H). apply andb_false_r.
Qed.

Lemma intersectAny_from_empty ray minT maxT l :
  (minT >=? maxT)%f32 = true -> Scene.intersectAny_from l ray minT maxT = false.
Proof.
  intros H. induction l as [|s l IH]; cbn [Scene.intersectAny_from]; [reflexivity|].
  now rewrite (intersectAny_empty _ _ _ _ H).
Qed.

(** ** Theorems on spheres and scenes *)

(** C1: [Sphere::intersect] answers no intersection when the discriminant
    [d = b*b - c] is [<= 0]; otherwise it answers the first of
    [t1 = b - sqrt d], [t2 = b + sqrt d], in that order, that lies strictly
    inside [(minT, maxT)], with position [origin + t * direction], normal
    [(position - center) / radius] and the sphere's colour; and no
    intersection when neither root lies inside.  This holds for every ray,
    in particular for those of unit-length direction. *)
Theorem Sphere_intersect_first_root (s : Sphere.t) (ray : Ray.t) (minT maxT : float) :
  Sphere.intersect s ray minT maxT =
  match SphereSpec.first_root s ray minT maxT with
  | None => noIntersection
  | Some t => SphereSpec.hit_at s ray t
  end.
Proof.
  rewrite intersect_unfold. unfold SphereSpec.first_root.
  destruct (SphereSpec.discriminant s ray <=? F32.zero)%f32; [reflexivity|].
  cbn [find].
  destruct (inside minT maxT (SphereSpec.t1 s ray)); [reflexivity|].
  destruct (inside minT maxT (SphereSpec.t2 s ray)); reflexivity.
Qed.

(** C2: [Scene::intersect] returns the scan that queries every sphere with
    the full bounds (narrowing the upper bound changes nothing); that
    result is the sentinel when no sphere is hit inside [(minT, maxT)], and
    otherwise a valid record of one of the spheres, strictly inside the
    bounds, whose distance is minimal among all valid hits. *)
Theorem Scene_intersect_nearest (scene : Scene.t) (ray : Ray.t) (minT maxT : float) :
  let r := Scene.intersect scene ray minT maxT in
  let hs := SceneSpec.hits scene ray minT maxT in
  r = SceneSpec.nearest scene ray minT maxT
  /\ ((Forall (fun h => valid h = false) hs /\ r = noIntersection)
      \/ (valid r = true /\ inside minT maxT (Intersection.dist r) = true /\ In r hs
          /\ Forall (fun h => valid h = true ->
                              (Intersection.dist r <=? Intersection.dist h)%f32 = true) hs)).
Proof.
  cbv zeta. rewrite intersect_nearest. split; [reflexivity|]. apply nearest_cases.
Qed.

(** C3: [Sphere::intersectAny] is true exactly when [Sphere::intersect]
    returns a valid intersection, on every sphere, ray and bounds pair. *)
Theorem Sphere_intersectAny_agrees (s : Sphere.t) (ray : Ray.t) (minT maxT : float) :
  Sphere.intersectAny s ray minT maxT = valid (Sphere.intersect s ray minT maxT).
Proof.
  rewrite intersectAny_unfold, intersect_unfold.
  destruct (SphereSpec.discriminant s ray <=? F32.zero)%f32 eqn:Hle.
  - (* d <= 0: the strict test d > 0 fails as well *)
    rewrite (leb_zero_not_gtb _ Hle). reflexivity.
  - destruct (SphereSpec.discriminant s ray >? F32.zero)%f32 eqn:Hgt.
    + (* d > 0: both functions test the same two roots *)
      cbn [andb].
      destruct (inside minT maxT (SphereSpec.t1 s ray)) eqn:I1.
      * cbn. symmetry. now apply inside_valid in I1.
      * destruct (inside minT maxT (SphereSpec.t2 s ray)) eqn:I2; [|reflexivity].
        cbn. symmetry. now apply inside_valid in I2.
    + (* d is NaN: so are both roots, and no comparison succeeds *)
      pose proof (not_leb_not_gtb_nan _ Hle Hgt) as Hnan.
      unfold SphereSpec.t1, SphereSpec.t2. rewrite Hnan, sub_nan_r, add_nan_r.
      rewrite inside_nan. reflexivity.
Qed.

(** C8: when no two spheres are hit at bit-exact equal distances,
    [Scene::intersect] returns the same record for every permutation of the
    sphere collection. *)
Theorem Scene_intersect_reorder (scene scene' : Scene.t) (ray : Ray.t) (minT maxT : float) :
  Permutation (Scene.spheres scene) (Scene.spheres scene') ->
  SceneSpec.no_ties (SceneSpec.hits scene ray minT maxT) = true ->
  Scene.intersect scene ray minT maxT = Scene.intersect scene' ray minT maxT.
Proof.
  intros Hperm Hties. rewrite !intersect_nearest. unfold SceneSpec.nearest.
  apply fold_pick_perm; [apply ordered_hits| |assumption|].
  - unfold SceneSpec.hits. apply Forall_forall. intros h Hin.
    apply in_map_iff in Hin as (s & <- & _). apply hit_dist_not_negzero.
  - unfold SceneSpec.hits. now apply Permutation_map.
Qed.

(** C9, as the code has it: when a sphere [A] and a later sphere [B] are
    hit at exactly the same distance [t], and that distance is the nearest
    of the scene (every sphere before [A] misses or is hit strictly
    farther, no other sphere is hit strictly nearer), [Scene::intersect]
    returns the record of [A]. *)
Theorem Scene_intersect_tie_earlier (scene : Scene.t) (ray : Ray.t) (minT maxT : float)
  (pre mid post : list Sphere.t) (A B : Sphere.t) (t : float) :
  let hit := fun s => Sphere.intersect s ray minT maxT in
  Scene.spheres scene = pre ++ A :: mid ++ B :: post ->
  valid (hit A) = true -> valid (hit B) = true ->
  Intersection.dist (hit A) = t -> Intersection.dist (hit B) = t ->
  Forall (fun s => (t <? Intersection.dist (hit s))%f32 = true) pre ->
  Forall (fun s => (Intersection.dist (hit s) <? t)%f32 = false) (mid ++ post) ->
  Scene.intersect scene ray minT maxT = hit A.
Proof.
  cbv zeta. intros Hs Hv HvB HtA HtB Hpre Hrest. subst t.
  rewrite intersect_nearest. unfold SceneSpec.nearest, SceneSpec.hits.
  rewrite Hs, map_app. cbn [map].
  apply fold_pick_first.
  - exact Hv.
  - rewrite Forall_forall in *. intros h Hh.
    apply in_map_iff in Hh as (s & <- & Hin). now apply Hpre.
  - rewrite Forall_forall in *. intros h Hh.
    apply in_map_iff in Hh as (s & <- & Hin).
    apply in_app_or in Hin as [Hin | [<- | Hin]].
    + apply Hrest, in_or_app. now left.
    + rewrite HtB. apply ltb_irrefl.
    + apply Hrest, in_or_app. now right.
Qed.

(** C10: with [minT >= maxT] no distance lies strictly inside the bounds:
    [Sphere::intersect] and [Scene::intersect] return the no-intersection
    value and both [intersectAny] queries return false. *)
Theorem empty_bounds_no_hit (scene : Scene.t) (s : Sphere.t) (ray : Ray.t)
  (minT maxT : float) :
  (minT >=? maxT)%f32 = true ->
  Sphere.intersect s ray minT maxT = noIntersection
  /\ Scene.intersect scene ray minT maxT = noIntersection
  /\ Sphere.intersectAny s ray minT maxT = false
  /\ Scene.intersectAny scene ray minT maxT = false.
Proof.
  intros H. repeat split.
  - now apply intersect_empty.
  - unfold Scene.intersect. rewrite (scan_empty _ _ _ _ H).
    cbn [Intersection.set_dist Intersection.dist]. now rewrite ltb_irrefl.
  - now apply intersectAny_empty.
  - now apply intersectAny_from_empty.
Qed.

Lemma empty_bounds_no_hit_witness :
  Sphere.intersect Examples.ball Examples.ray F32.one F32.zero = noIntersection
  /\ Scene.intersect (Examples.scene_of [Examples.ball]) Examples.ray F32.one F32.zero
     = noIntersection
  /\ Sphere.intersectAny Examples.ball Examples.ray F32.one F32.zero = false
  /\ Scene.intersectAny (Examples.scene_of [Examples.ball]) Examples.ray F32.one F32.zero
     = false.
Proof.
  apply (empty_bounds_no_hit (Examples.scene_of [Examples.ball]) Examples.ball
           Examples.ray F32.one F32.zero).
  reflexivity.
Defined.

Lemma Scene_intersect_reorder_witness :
  Scene.intersect (Examples.scene_of [Examples.far_ball; Examples.ball])
    Examples.ray F32.zero INFINITY
  = Scene.intersect (Examples.scene_of [Examples.ball; Examples.far_ball])
      Examples.ray F32.zero INFINITY.
Proof.
  apply (Scene_intersect_reorder
           (Examples.scene_of [Examples.far_ball; Examples.ball])
           (Examples.scene_of [Examples.ball; Examples.far_ball])
           Examples.ray F32.zero INFINITY).
  - apply perm_swap.
  - vm_compute. reflexivity.
Defined.

Lemma Scene_intersect_tie_earlier_witness :
  Scene.intersect (Examples.scene_of [Examples.left_ball; Examples.right_ball])
    Examples.ray F32.zero INFINITY
  = Sphere.intersect Examples.left_ball Examples.ray F32.zero INFINITY.
Proof.
  apply (Scene_intersect_tie_earlier
           (Examples.scene_of [Examples.left_ball; Examples.right_ball])
           Examples.ray F32.zero INFINITY [] [] [] Examples.left_ball Examples.right_ball
           (S754_finite false 8950538 (-22))).
  - reflexivity.
  - vm_compute. reflexivity.
  - vm_compute. reflexivity.
  - vm_compute. reflexivity.
  - vm_compute. reflexivity.
  - constructor.
  - constructor.
Defined.

(** Two spheres tied at the same distance behind a third, nearer one: the
    scene answers the record of the nearer sphere, not of the earlier of
    the two. *)
Lemma tie_behind_nearer_sphere :
  valid (Sphere.intersect Examples.left_ball Examples.ray F32.zero INFINITY) = true
  /\ valid (Sphere.intersect Examples.right_ball Examples.ray F32.zero INFINITY) = true
  /\ Intersection.dist (Sphere.intersect Examples.left_ball Examples.ray F32.zero INFINITY)
     = Intersection.dist (Sphere.intersect Examples.right_ball Examples.ray F32.zero INFINITY)
  /\ inside F32.zero INFINITY
       (Intersection.dist (Sphere.intersect Examples.left_ball Examples.ray F32.zero INFINITY))
     = true
  /\ Scene.intersect
       (Examples.scene_of [Examples.left_ball; Examples.right_ball; Examples.front_ball])
       Examples.ray F32.zero INFINITY
     = Sphere.intersect Examples.front_ball Examples.ray F32.zero INFINITY
  /\ Scene.intersect
       (Examples.scene_of [Examples.left_ball; Examples.right_ball; Examples.front_ball])
       Examples.ray F32.zero INFINITY
     <> Sphere.intersect Examples.left_ball Examples.ray F32.zero INFINITY.
Proof.
  vm_compute. repeat split; try reflexivity. discriminate.
Qed.

(** ** Light samples *)

Lemma mul_neg_neg (x y : float) : (- x * - y)%f32 = (x * y)%f32.
Proof.
  destruct x as [sx|sx| |sx mx ex], y as [sy|sy| |sy my ey]; try reflexivity;
    destruct sx, sy; reflexivity.
Qed.

Lemma length_neg (v : vec3) : length (- v)%vec3 = length v.
Proof.
  unfold vec3.length, vec3.lengthSquared, vec3.dot, vec3.neg.
  cbn [vec3.x vec3.y vec3.z]. now rewrite !mul_neg_neg.
Qed.

(** ** Diffuse integrators *)

Lemma sum_from_app (start : vec3) (a b : list vec3) :
  ShadingSpec.sum_from start (a ++ b)
  = ShadingSpec.sum_from (ShadingSpec.sum_from start a) b.
Proof. apply fold_left_app. Qed.

(** A light loop of the local integrator adds one Lambert term per light,
    in order, with visibility [1.0f]. *)
Lemma fold_accumulate_local {L : Type} (sample : L -> LightSample.t)
  (albedo normal : vec3) (ls : list L) : forall color : vec3,
  fold_left
    (fun color l =>
       DiffuseLocalDirectIlluminationIntegrator.accumulate albedo normal color (sample l))
    ls color
  = ShadingSpec.sum_from color
      (map (fun x => ShadingSpec.lambert albedo normal F32.one x) (map sample ls)).
Proof.
  induction ls as [|l ls IH]; intros color; [reflexivity|].
  cbn [fold_left map ShadingSpec.sum_from]. rewrite IH. reflexivity.
Qed.

(** The same for the direct integrator, when no shadow ray is blocked. *)
Lemma fold_accumulate_direct {L : Type} (sample : L -> LightSample.t)
  (scene : Scene.t) (albedo normal pos : vec3) (ls : list L) :
  forallb
    (fun x =>
       negb
         (Scene.intersectAny scene (Ray.make pos (LightSample.direction x))
            F32.zero (LightSample.distanceToLight x)))
    (map sample ls) = true ->
  forall color : vec3,
  fold_left
    (fun color l =>
       DiffuseDirectIlluminationIntegrator.accumulate scene albedo normal pos color
         (sample l))
    ls color
  = ShadingSpec.sum_from color
      (map (fun x => ShadingSpec.lambert albedo normal F32.one x) (map sample ls)).
Proof.
  induction ls as [|l ls IH]; intros Hfree color; [reflexivity|].
  cbn [map forallb] in Hfree. apply andb_true_iff in Hfree as [Hl Hrest].
  cbn [fold_left map]. rewrite (IH Hrest).
  unfold ShadingSpec.sum_from. cbn [fold_left]. f_equal.
  unfold DiffuseDirectIlluminationIntegrator.accumulate, ShadingSpec.lambert.
  rewrite Hl. reflexivity.
Qed.

Lemma geb_zero_not_ltb (x : float) :
  (x >=? F32.zero)%f32 = true -> (x <? F32.zero)%f32 = false.
Proof. destruct x as [[]|[]| |[] m e]; intros; try discriminate; reflexivity. Qed.

Lemma local_radiance_sum `{MathLib} (scene : Scene.t) (ray : Ray.t) :
  DiffuseLocalDirectIlluminationIntegrator.radiance scene ray
  = if valid (Scene.intersect scene ray F32.zero INFINITY) then
      ShadingSpec.direct_lighting scene ray
        (Scene.intersect scene ray F32.zero INFINITY)
        (Intersection.pos (Scene.intersect scene ray F32.zero INFINITY))
        (fun _ => F32.one)
    else vec3.splat F32.zero.
Proof.
  unfold DiffuseLocalDirectIlluminationIntegrator.radiance. cbv zeta.
  set (hit := Scene.intersect scene ray F32.zero INFINITY).
  destruct (valid hit); cbn [negb]; [|reflexivity].
  rewrite !fold_accumulate_local.
  unfold ShadingSpec.direct_lighting, ShadingSpec.light_samples, ShadingSpec.ambient_term.
  rewrite !map_app, !sum_from_app. reflexivity.
Qed.

Lemma direct_radiance_sum `{MathLib} (scene : Scene.t) (ray : Ray.t) :
  (valid (Scene.intersect scene ray F32.zero INFINITY) = true ->
   ShadingSpec.unoccluded scene ray (Scene.intersect scene ray F32.zero INFINITY) = true) ->
  DiffuseDirectIlluminationIntegrator.radiance scene ray
  = if valid (Scene.intersect scene ray F32.zero INFINITY) then
      ShadingSpec.direct_lighting scene ray
        (Scene.intersect scene ray F32.zero INFINITY)
        (ShadingSpec.shadow_origin ray (Scene.intersect scene ray F32.zero INFINITY))
        (fun _ => F32.one)
    else vec3.splat F32.zero.
Proof.
  unfold DiffuseDirectIlluminationIntegrator.radiance. cbv zeta.
  set (hit := Scene.intersect scene ray F32.zero INFINITY).
  destruct (valid hit); cbn [negb]; intros Hfree; [|reflexivity].
  specialize (Hfree eq_refl).
  unfold ShadingSpec.unoccluded, ShadingSpec.light_samples in Hfree.
  fold (ShadingSpec.shadow_origin ray hit).
  rewrite !forallb_app in Hfree.
  apply andb_true_iff in Hfree as [HP Hfree].
  apply andb_true_iff in Hfree as [HD Hfree].
  apply andb_true_iff in Hfree as [HC HY].
  rewrite (fold_accumulate_direct _ _ _ _ _ _ HP).
  rewrite (fold_accumulate_direct _ _ _ _ _ _ HD).
  rewrite (fold_accumulate_direct _ _ _ _ _ _ HC).
  rewrite (fold_accumulate_direct _ _ _ _ _ _ HY).
  unfold ShadingSpec.direct_lighting, ShadingSpec.light_samples, ShadingSpec.ambient_term.
  rewrite !map_app, !sum_from_app. reflexivity.
Qed.

(** C5, as the code has it: when no shadow query finds an occluder, the
    direct integrator returns the sum of the local integrator with every
    point, directional, cone and cylinder light sampled at the shadow
    origin [hitPosition + epsilon * orientedNormal] instead of
    [hitPosition]; the two integrators return exactly the same value
    whenever the light samples at those two points coincide. *)
Theorem diffuse_direct_unoccluded `{MathLib} (scene : Scene.t) (ray : Ray.t) :
  let hit := Scene.intersect scene ray F32.zero INFINITY in
  (valid hit = true -> ShadingSpec.unoccluded scene ray hit = true) ->
  DiffuseDirectIlluminationIntegrator.radiance scene ray
  = (if valid hit then
       ShadingSpec.direct_lighting scene ray hit (ShadingSpec.shadow_origin ray hit)
         (fun _ => F32.one)
     else vec3.splat F32.zero)
  /\ (ShadingSpec.light_samples scene (ShadingSpec.shadow_origin ray hit)
      = ShadingSpec.light_samples scene (Intersection.pos hit) ->
      DiffuseDirectIlluminationIntegrator.radiance scene ray
      = DiffuseLocalDirectIlluminationIntegrator.radiance scene ray).
Proof.
  cbv zeta. intros Hfree. split; [now apply direct_radiance_sum|].
  intros Hsame. rewrite (direct_radiance_sum _ _ Hfree), local_radiance_sum.
  destruct (valid (Scene.intersect scene ray F32.zero INFINITY)); [|reflexivity].
  unfold ShadingSpec.direct_lighting. now rewrite Hsame.
Qed.

Lemma diffuse_direct_unoccluded_witness :
  @DiffuseDirectIlluminationIntegrator.radiance Examples.libm Examples.sun_scene Examples.ray
  = @DiffuseLocalDirectIlluminationIntegrator.radiance Examples.libm Examples.sun_scene
      Examples.ray.
Proof.
  refine (proj2 (@diffuse_direct_unoccluded Examples.libm Examples.sun_scene Examples.ray _) _).
  - intros _. vm_compute. reflexivity.
  - vm_compute. reflexivity.
Defined.

(** C5, as stated, fails as soon as a light sample depends on the shading
    point: with one point light and nothing in the way, the direct integrator
    samples the light from the shadow origin and the local one from the hit
    position, and the two radiances differ. *)
Lemma local_direct_differ :
  @ShadingSpec.unoccluded Examples.libm Examples.lamp_scene Examples.ray
    (Scene.intersect Examples.lamp_scene Examples.ray F32.zero INFINITY) = true
  /\ @DiffuseLocalDirectIlluminationIntegrator.radiance Examples.libm Examples.lamp_scene
       Examples.ray
     <> @DiffuseDirectIlluminationIntegrator.radiance Examples.libm Examples.lamp_scene
          Examples.ray.
Proof.
  split.
  - vm_compute. reflexivity.
  - vm_compute. discriminate.
Qed.

(** ** Transparency integrator *)

Lemma mul_one_l (x : float) : F32.is_float x -> (F32.one * x)%f32 = x.
Proof.
  unfold F32.is_float. destruct x as [[]|[]| |s m e]; try reflexivity.
  cbn [valid_binary]. unfold bounded, canonical_mantissa. intros H.
  apply andb_true_iff in H as [Hc He]. apply Z.eqb_eq in Hc.
  unfold F32.mul, F32.one, SFmul. rewrite binary_round_aux_finish.
  unfold shr_fexp.
  change (Z.pos (8388608 * m)) with (Z.pos (Pos.iter xO m 23)).
  cbn [Zdigits2]. destruct (Pos_iter_xO m 23) as [_ ->].
  replace (Z.pos (digits2_pos m) + 23 + (-23 + e)) with (Z.pos (digits2_pos m) + e) by lia.
  rewrite Hc. replace (e - (-23 + e)) with 23 by lia.
  cbn [shr fst snd shr_record_of_loc].
  replace (-23 + e + 23) with e by lia.
  change (rne (iter_pos shr_1 23
                 {| shr_m := Z.pos (Pos.iter xO m 23); shr_r := false; shr_s := false |}))
    with (Z.pos m).
  unfold finish, shr_fexp. cbn [Zdigits2]. rewrite Hc, Z.sub_diag.
  cbn [shr shr_record_of_loc shr_m]. rewrite He. reflexivity.
Qed.



(** Negation commutes with the products and sums of [dot]. *)

















(** * Further properties of the code *)

(** ** Rounding: results are binary32 values and keep their sign *)

Lemma shr_fexp_nonneg m e l :
  0 <= m -> 0 <= shr_m (fst (shr_fexp F32.prec F32.emax m e l)).
Proof.
  intros Hm. unfold shr_fexp. rewrite shr_shrn. cbn [fst].
  apply (shrn_mono _ (shr_record_of_loc m l) (shr_record_of_loc m l));
    [rewrite shr_m_record_of_loc; lia|lia].
Qed.

Lemma finish_not_nan sx m c : 0 <= m -> FloatSpec.is_nan (finish sx m c) = false.
Proof.
  intros Hm. pose proof (shr_fexp_nonneg m c loc_Exact Hm) as P. unfold finish.
  destruct (shr_fexp F32.prec F32.emax m c loc_Exact) as [mrs e]. cbn [fst] in P.
  destruct (shr_m mrs); try lia; [reflexivity|].
  destruct (_ <=? _); reflexivity.
Qed.

(** Rounding a non-negative mantissa never produces NaN. *)
Lemma binary_round_aux_not_nan sx mx ex lx :
  0 <= mx -> FloatSpec.is_nan (binary_round_aux F32.prec F32.emax sx mx ex lx) = false.
Proof.
  intros Hm. rewrite binary_round_aux_finish. apply finish_not_nan.
  pose proof (shr_fexp_nonneg mx ex lx Hm).
  pose proof (rne_bounds (fst (shr_fexp F32.prec F32.emax mx ex lx))). lia.
Qed.

Lemma binary_round_not_nan sx p e :
  FloatSpec.is_nan (binary_round F32.prec F32.emax sx p e) = false.
Proof.
  unfold binary_round. destruct (shl_align p e _) as [mz ez].
  apply binary_round_aux_not_nan. lia.
Qed.

(** Non-negative numbers: [+0], the positive finite values, [+infinity]. *)
Lemma nonneg_leb x :
  nonneg_shape x = true -> FloatSpec.is_nan x = false -> (F32.zero <=? x)%f32 = true.
Proof. destruct x as [[]|[]| |[] m e]; try discriminate; reflexivity. Qed.

Lemma div_core_nonneg m1 e1 m2 e2 :
  0 <= fst (fst (SFdiv_core_binary F32.prec F32.emax (Zpos m1) e1 (Zpos m2) e2)).
Proof.
  unfold SFdiv_core_binary.
  set (s := _ - _ - Z.min _ _).
  set (m' := match s with Zpos _ => Z.shiftl (Zpos m1) s | Z0 => Zpos m1 | Zneg _ => 0 end).
  assert (Hm : 0 <= m').
  { unfold m'. destruct s; try lia. apply Z.shiftl_nonneg. lia. }
  pose proof (Z_div_mod m' (Zpos m2) ltac:(lia)) as D.
  destruct (Z.div_eucl m' (Zpos m2)) as [q r]. cbn [fst]. nia.
Qed.

(** The mantissa a rounding ends with is canonical: 24 digits, or fewer at
    the least exponent. *)
Lemma finish_valid sx m c :
  -149 <= c -> 0 <= m -> (-149 < c -> 24 <= Zdigits2 m) ->
  F32.is_float (finish sx m c).
Proof.
  intros Hc Hm Hd. unfold F32.is_float, finish, shr_fexp.
  rewrite shr_shrn, fexp_eq. cbn [shr_record_of_loc]. fold (exact_record m).
  rewrite shrn_max.
  set (n := Z.max 0 (Z.max (Zdigits2 m + c - 24) (-149) - c)).
  assert (Hn : 0 <= n) by (unfold n; lia).
  pose proof (Zdigits2_shrn n (exact_record m) Hm Hn) as Dq.
  cbn [exact_record shr_m] in Dq. fold (exact_record m) in Dq.
  pose proof (Zdigits2_nonneg m) as D0.
  destruct (shr_m (shrn (exact_record m) n)) as [|p|p]; try reflexivity.
  destruct (_ <=? F32.emax - F32.prec) eqn:Eb; [|reflexivity].
  cbn [valid_binary]. unfold bounded, canonical_mantissa.
  rewrite Eb, andb_true_r. apply Z.eqb_eq. rewrite fexp_eq.
  cbn [Zdigits2] in Dq. unfold n in *. lia.
Qed.

Lemma binary_round_aux_valid sx mx ex lx :
  0 <= mx -> ex <= fexp F32.prec F32.emax (Zdigits2 mx + ex) ->
  F32.is_float (binary_round_aux F32.prec F32.emax sx mx ex lx).
Proof.
  intros Hm He. rewrite binary_round_aux_finish.
  pose proof (shr_fexp_nonneg mx ex lx Hm) as P.
  pose proof (rne_bounds (fst (shr_fexp F32.prec F32.emax mx ex lx))) as B.
  apply finish_valid; [apply shr_fexp_snd|lia|].
  revert P B. unfold shr_fexp. rewrite shr_shrn, fexp_eq in *. cbn [fst snd].
  rewrite shrn_max.
  set (n := Z.max 0 (Z.max (Zdigits2 mx + ex - 24) (-149) - ex)).
  assert (Hn : 0 <= n) by (unfold n; lia).
  pose proof (Zdigits2_shrn n (shr_record_of_loc mx lx)
                ltac:(rewrite shr_m_record_of_loc; lia) Hn) as Dq.
  rewrite shr_m_record_of_loc in Dq.
  intros P B Hc.
  pose proof (Zdigits2_mono _ _ (conj P (proj1 B))) as M.
  unfold n in *. lia.
Qed.

Lemma binary_round_valid sx p e :
  F32.is_float (binary_round F32.prec F32.emax sx p e).
Proof.
  unfold binary_round.
  pose proof (shl_align_spec p e (fexp F32.prec F32.emax (Zpos (digits2_pos p) + e))) as H.
  destruct (shl_align p e _) as [mz ez]. destruct H as (Hez & _ & Hd).
  apply binary_round_aux_valid; [lia|]. cbn [Zdigits2]. rewrite Hd. lia.
Qed.

Lemma binary_normalize_valid m e sz :
  F32.is_float (binary_normalize F32.prec F32.emax m e sz).
Proof.
  destruct m; cbn [binary_normalize]; [reflexivity| |]; apply binary_round_valid.
Qed.

(** Adding a literal always gives a binary32 value. *)
Lemma add_literal_valid (a : float) (sc : bool) (mc : positive) (ec : Z) :
  F32.is_float (S754_finite sc mc ec) ->
  F32.is_float (a + S754_finite sc mc ec)%f32.
Proof.
  intros Hc. destruct a as [[]|[]| |sa ma ea]; try reflexivity; try assumption.
  apply binary_normalize_valid.
Qed.

(** ** NaN is absorbing *)

Lemma is_nan_eq x : FloatSpec.is_nan x = true -> x = S754_nan.
Proof. destruct x; try discriminate; reflexivity. Qed.

Lemma add_nan_left y : (S754_nan + y)%f32 = S754_nan.
Proof. reflexivity. Qed.

Lemma add_nan_right x : (x + S754_nan)%f32 = S754_nan.
Proof. destruct x as [[]|[]| |[] m e]; reflexivity. Qed.

Lemma sub_nan_left y : (S754_nan - y)%f32 = S754_nan.
Proof. reflexivity. Qed.

Lemma sub_nan_right x : (x - S754_nan)%f32 = S754_nan.
Proof. destruct x as [[]|[]| |[] m e]; reflexivity. Qed.

Lemma mul_nan_left y : (S754_nan * y)%f32 = S754_nan.
Proof. reflexivity. Qed.

Lemma mul_nan_right x : (x * S754_nan)%f32 = S754_nan.
Proof. destruct x as [[]|[]| |[] m e]; reflexivity. Qed.

Lemma div_nan_left y : (S754_nan / y)%f32 = S754_nan.
Proof. reflexivity. Qed.

Lemma div_nan_right x : (x / S754_nan)%f32 = S754_nan.
Proof. destruct x as [[]|[]| |[] m e]; reflexivity. Qed.

Ltac nan_absorb :=
  repeat first
    [ rewrite add_nan_left | rewrite add_nan_right
    | rewrite sub_nan_left | rewrite sub_nan_right
    | rewrite mul_nan_left | rewrite mul_nan_right ].

Lemma vec_has_nan_cases v :
  FloatSpec.vec_has_nan v = true ->
  vec3.x v = S754_nan \/ vec3.y v = S754_nan \/ vec3.z v = S754_nan.
Proof.
  unfold FloatSpec.vec_has_nan. intros H.
  apply orb_true_iff in H as [H|H]; [apply orb_true_iff in H as [H|H]|];
    apply is_nan_eq in H; auto.
Qed.

Lemma dot_nan_l u v : FloatSpec.vec_has_nan u = true -> dot u v = S754_nan.
Proof.
  intros H. apply vec_has_nan_cases in H. unfold vec3.dot.
  destruct H as [H|[H|H]]; rewrite H; now nan_absorb.
Qed.

Lemma dot_nan_r u v : FloatSpec.vec_has_nan v = true -> dot u v = S754_nan.
Proof.
  intros H. apply vec_has_nan_cases in H. unfold vec3.dot.
  destruct H as [H|[H|H]]; rewrite H; now nan_absorb.
Qed.

Lemma sub_has_nan_l u v :
  FloatSpec.vec_has_nan u = true -> FloatSpec.vec_has_nan (u - v)%vec3 = true.
Proof.
  intros H. apply vec_has_nan_cases in H. unfold FloatSpec.vec_has_nan, vec3.sub.
  cbn [vec3.x vec3.y vec3.z].
  destruct H as [H|[H|H]]; rewrite H; nan_absorb; cbn [FloatSpec.is_nan orb];
    rewrite ?orb_true_r; reflexivity.
Qed.

Lemma sub_has_nan_r u v :
  FloatSpec.vec_has_nan v = true -> FloatSpec.vec_has_nan (u - v)%vec3 = true.
Proof.
  intros H. apply vec_has_nan_cases in H. unfold FloatSpec.vec_has_nan, vec3.sub.
  cbn [vec3.x vec3.y vec3.z].
  destruct H as [H|[H|H]]; rewrite H; nan_absorb; cbn [FloatSpec.is_nan orb];
    rewrite ?orb_true_r; reflexivity.
Qed.

(** [e - e] is [+0], or NaN when [e] is an infinity or NaN. *)
Lemma sub_diag (e : float) :
  (e - e)%f32 = if FloatSpec.is_finite e then F32.zero else S754_nan.
Proof.
  destruct e as [[]|[]| |s m e]; try reflexivity.
  unfold F32.sub. cbn [SFsub FloatSpec.is_finite]. rewrite Z.sub_diag. reflexivity.
Qed.

Lemma sub_self_finite (p : float) :
  FloatSpec.is_finite p = true -> (p - p)%f32 = F32.zero.
Proof. intros H. now rewrite sub_diag, H. Qed.

(** ** Subtraction and division respect the order *)

Lemma canonical_bounds s m e :
  F32.is_float (S754_finite s m e) ->
  Zpos (digits2_pos m) <= 24 /\ -149 <= e
  /\ (-149 < e -> Zpos (digits2_pos m) = 24).
Proof.
  unfold F32.is_float. cbn [valid_binary]. unfold bounded, canonical_mantissa.
  intros H. apply andb_true_iff in H as [H _]. apply Z.eqb_eq in H.
  rewrite fexp_eq in H. lia.
Qed.

Lemma aligned_fst m e c :
  Zpos (fst (shl_align m e c)) = Zpos m * 2 ^ (e - Z.min e c).
Proof.
  pose proof (shl_align_spec m e c) as H. destruct (shl_align m e c) as [mz ez].
  cbn [fst]. destruct H as (-> & -> & _). reflexivity.
Qed.

(** Of two canonical positive values, the one with the smaller exponent is
    the smaller number. *)
Lemma aligned_lt s1 m1 e1 s2 m2 e2 :
  F32.is_float (S754_finite s1 m1 e1) -> F32.is_float (S754_finite s2 m2 e2) ->
  e1 < e2 ->
  Zpos m1 * 2 ^ (e1 - Z.min e1 e2) < Zpos m2 * 2 ^ (e2 - Z.min e1 e2).
Proof.
  intros H1 H2 He.
  apply canonical_bounds in H1 as (D1 & E1 & _).
  apply canonical_bounds in H2 as (_ & _ & D2). specialize (D2 ltac:(lia)).
  replace (Z.min e1 e2) with e1 by lia. rewrite Z.sub_diag, Z.mul_1_r.
  pose proof (digits2_pos_bounds m1) as [_ B1].
  pose proof (digits2_pos_bounds m2) as [B2 _]. rewrite D2 in B2.
  change (2 ^ (24 - 1)) with 8388608 in B2.
  assert (2 ^ Zpos (digits2_pos m1) <= 2 ^ 24) by (apply Z.pow_le_mono_r; lia).
  change (2 ^ 24) with 16777216 in *.
  assert (2 ^ 1 <= 2 ^ (e2 - e1)) by (apply Z.pow_le_mono_r; lia).
  change (2 ^ 1) with 2 in *. nia.
Qed.

Lemma aligned_order s1 m1 e1 s2 m2 e2 :
  F32.is_float (S754_finite s1 m1 e1) -> F32.is_float (S754_finite s2 m2 e2) ->
  let a1 := Zpos m1 * 2 ^ (e1 - Z.min e1 e2) in
  let a2 := Zpos m2 * 2 ^ (e2 - Z.min e1 e2) in
  (e1 < e2 \/ (e1 = e2 /\ Zpos m1 <= Zpos m2) -> a1 <= a2)
  /\ (e1 < e2 \/ (e1 = e2 /\ Zpos m1 < Zpos m2) -> a1 < a2).
Proof.
  intros H1 H2. cbv zeta. split; intros [He | [-> Hm]].
  - pose proof (aligned_lt _ _ _ _ _ _ H1 H2 He). lia.
  - rewrite Z.min_id, Z.sub_diag. lia.
  - now apply (aligned_lt s1 _ _ s2).
  - rewrite Z.min_id, Z.sub_diag. lia.
Qed.

(** The aligned integers [SFsub] subtracts are ordered as its operands. *)
Lemma finite_order_aligned sx mx ex sy my ey :
  F32.is_float (S754_finite sx mx ex) -> F32.is_float (S754_finite sy my ey) ->
  let ax := cond_Zopp sx (Zpos (fst (shl_align mx ex (Z.min ex ey)))) in
  let ay := cond_Zopp sy (Zpos (fst (shl_align my ey (Z.min ex ey)))) in
  (SFleb (S754_finite sx mx ex) (S754_finite sy my ey) = true -> ax <= ay)
  /\ (SFltb (S754_finite sx mx ex) (S754_finite sy my ey) = true -> ax < ay).
Proof.
  intros Hx Hy. cbv zeta. rewrite !aligned_fst.
  replace (Z.min ex (Z.min ex ey)) with (Z.min ex ey) by lia.
  replace (Z.min ey (Z.min ex ey)) with (Z.min ex ey) by lia.
  pose proof (aligned_order _ _ _ _ _ _ Hx Hy) as [Ale Alt].
  pose proof (aligned_order _ _ _ _ _ _ Hy Hx) as [Ale' Alt'].
  cbv zeta in *. rewrite (Z.min_comm ey ex) in Ale', Alt'.
  assert (0 < Zpos mx * 2 ^ (ex - Z.min ex ey))
    by (apply Z.mul_pos_pos; [lia|apply Z.pow_pos_nonneg; lia]).
  assert (0 < Zpos my * 2 ^ (ey - Z.min ex ey))
    by (apply Z.mul_pos_pos; [lia|apply Z.pow_pos_nonneg; lia]).
  rewrite SFleb_key, SFltb_key.
  destruct sx, sy; cbn [key cond_Zopp]; unfold key_leb, key_ltb; split; intros K;
    try discriminate; lia.
Qed.

Lemma binary_normalize_nonpos d e :
  d <= 0 -> (binary_normalize F32.prec F32.emax d e false <=? F32.zero)%f32 = true.
Proof.
  intros Hd. destruct d as [|p|p]; try lia; cbn [binary_normalize]; [reflexivity|].
  rewrite binary_round_opp.
  pose proof (binary_round_shape p e) as S.
  pose proof (binary_round_not_nan false p e) as N.
  destruct (binary_round F32.prec F32.emax false p e) as [[]|[]| |[] ? ?];
    try discriminate; reflexivity.
Qed.

Lemma binary_normalize_pos d e :
  0 < d -> -149 <= e ->
  (F32.zero <? binary_normalize F32.prec F32.emax d e false)%f32 = true.
Proof.
  intros Hd He. destruct d as [|p|p]; try lia; cbn [binary_normalize].
  pose proof (binary_round_shape p e) as S.
  pose proof (binary_round_not_nan false p e) as N.
  pose proof (binary_round_nonzero false p e He) as Z.
  destruct (binary_round F32.prec F32.emax false p e) as [[]|[]| |[] ? ?];
    try discriminate; reflexivity.
Qed.

Ltac sign_cases :=
  repeat match goal with s : bool |- _ => destruct s end;
  try discriminate; try reflexivity.

(** [x <= y] gives [x - y <= 0]. *)
Lemma sub_leb_zero (x y : float) :
  F32.is_float x -> F32.is_float y -> FloatSpec.is_finite y = true ->
  (x <=? y)%f32 = true -> (x - y <=? F32.zero)%f32 = true.
Proof.
  intros Hx Hy Fy Hle.
  destruct x as [sx|sx| |sx mx ex], y as [sy|sy| |sy my ey]; try discriminate;
    try solve [sign_cases].
  unfold F32.sub. cbn [SFsub]. apply binary_normalize_nonpos.
  destruct (finite_order_aligned _ _ _ _ _ _ Hx Hy) as [A _]. cbv zeta in A.
  specialize (A Hle). lia.
Qed.

(** [x < y] gives [0 < y - x]: a difference of distinct values never
    underflows to zero. *)
Lemma sub_gtb_zero (x y : float) :
  F32.is_float x -> F32.is_float y ->
  (x <? y)%f32 = true -> (F32.zero <? y - x)%f32 = true.
Proof.
  intros Hx Hy Hlt.
  destruct x as [sx|sx| |sx mx ex], y as [sy|sy| |sy my ey]; try discriminate;
    try solve [sign_cases].
  unfold F32.sub. cbn [SFsub].
  destruct (finite_order_aligned _ _ _ _ _ _ Hx Hy) as [_ A]. cbv zeta in A.
  specialize (A Hlt). rewrite (Z.min_comm ey ex).
  apply canonical_bounds in Hx as (_ & Ex & _).
  apply canonical_bounds in Hy as (_ & Ey & _).
  apply binary_normalize_pos; lia.
Qed.

Lemma div_nonpos (a b : float) :
  (a <=? F32.zero)%f32 = true -> (F32.zero <? b)%f32 = true ->
  FloatSpec.is_finite b = true ->
  (a / b <=? F32.zero)%f32 = true.
Proof.
  intros Ha Hb Fb.
  destruct a as [sa|sa| |sa ma ea], b as [sb|sb| |sb mb eb]; try discriminate;
    try solve [sign_cases].
  destruct sa; [|discriminate]. destruct sb; [discriminate|].
  unfold F32.div. cbn [SFdiv xorb].
  pose proof (div_core_nonneg ma ea mb eb) as Q.
  destruct (SFdiv_core_binary F32.prec F32.emax (Zpos ma) ea (Zpos mb) eb) as [[mz ez] lz].
  cbn [fst] in Q. rewrite (binary_round_aux_opp false).
  pose proof (binary_round_aux_shape mz ez lz) as S.
  pose proof (binary_round_aux_not_nan false mz ez lz Q) as N.
  destruct (binary_round_aux F32.prec F32.emax false mz ez lz) as [[]|[]| |[] ? ?];
    try discriminate; reflexivity.
Qed.

Lemma not_nan_leb_refl x : FloatSpec.is_nan x = false -> (x <=? x)%f32 = true.
Proof.
  destruct x as [[]|[]| |[] m e]; try discriminate; intros _; try reflexivity;
    unfold F32.leb, SFleb, SFcompare; rewrite Z.compare_refl;
    change (Pos.compare_cont Eq m m) with (m ?= m)%positive;
    rewrite Pos.compare_refl; reflexivity.
Qed.

Lemma leb_antisym (x y : float) :
  (x <=? y)%f32 = true -> (y <=? x)%f32 = true -> (x =? y)%f32 = true.
Proof. intros; f32_order. Qed.

(** ** math.hpp: [min], [max], [clamp], [smoothstep] *)

(** X1: for operands that are not NaN, [min] is below both and [max] is
    above both. *)
Theorem min_max_bounds (lhs rhs : float) :
  FloatSpec.is_nan lhs = false -> FloatSpec.is_nan rhs = false ->
  (min lhs rhs <=? lhs)%f32 = true /\ (min lhs rhs <=? rhs)%f32 = true
  /\ (lhs <=? max lhs rhs)%f32 = true /\ (rhs <=? max lhs rhs)%f32 = true.
Proof.
  intros Hl Hr. apply not_nan_leb_refl in Hl, Hr. unfold min, max.
  destruct (lhs <=? rhs)%f32 eqn:E1; destruct (lhs >=? rhs)%f32 eqn:E2;
    repeat split; f32_order.
Qed.

Lemma min_max_bounds_witness :
  (min F32.one F32.zero <=? F32.one)%f32 = true
  /\ (min F32.one F32.zero <=? F32.zero)%f32 = true
  /\ (F32.one <=? max F32.one F32.zero)%f32 = true
  /\ (F32.zero <=? max F32.one F32.zero)%f32 = true.
Proof. apply (min_max_bounds F32.one F32.zero); reflexivity. Defined.

(** X2: [min] and [max] return their second argument when the comparison
    fails, so a NaN in the second argument is returned and a NaN in the
    first is dropped; the Lambert cosine [max(0.0f, c)] is never negative
    (it is NaN when [c] is). *)
Theorem min_max_nan (x : float) :
  min x S754_nan = S754_nan /\ max x S754_nan = S754_nan
  /\ min S754_nan x = x /\ max S754_nan x = x
  /\ (max F32.zero x <? F32.zero)%f32 = false.
Proof.
  unfold min, max, F32.leb, F32.geb, F32.ltb.
  repeat split; destruct x as [[]|[]| |[] m e]; reflexivity.
Qed.

Lemma clamp_bounds arg minVal maxVal :
  (minVal <=? maxVal)%f32 = true ->
  (minVal <=? clamp arg minVal maxVal)%f32 = true
  /\ (clamp arg minVal maxVal <=? maxVal)%f32 = true.
Proof.
  intros H. unfold clamp, max, min.
  destruct (arg <=? maxVal)%f32 eqn:E1.
  - destruct (arg >=? minVal)%f32 eqn:E2; split; f32_order.
  - destruct (maxVal >=? minVal)%f32 eqn:E2; split; f32_order.
Qed.

(** X3: with [minVal <= maxVal], [clamp] answers a value of
    [[minVal, maxVal]] for every argument, NaN included: a NaN argument is
    clamped to [maxVal].  The vector [clamp] does so in every component. *)
Theorem clamp_range (arg minVal maxVal : float) (v : vec3) :
  (minVal <=? maxVal)%f32 = true ->
  ((minVal <=? clamp arg minVal maxVal)%f32 = true
   /\ (clamp arg minVal maxVal <=? maxVal)%f32 = true)
  /\ clamp S754_nan minVal maxVal = maxVal
  /\ (let c := vec3.clamp v minVal maxVal in
      ((minVal <=? vec3.x c)%f32 = true /\ (vec3.x c <=? maxVal)%f32 = true)
      /\ ((minVal <=? vec3.y c)%f32 = true /\ (vec3.y c <=? maxVal)%f32 = true)
      /\ ((minVal <=? vec3.z c)%f32 = true /\ (vec3.z c <=? maxVal)%f32 = true)).
Proof.
  intros H. split; [now apply clamp_bounds|]. split.
  - unfold clamp, min, max. change (S754_nan <=? maxVal)%f32 with false.
    cbv iota. unfold F32.geb, F32.leb in *. now rewrite H.
  - cbv zeta. unfold vec3.clamp. cbn [vec3.x vec3.y vec3.z].
    repeat split; now apply clamp_bounds.
Qed.

Lemma clamp_range_witness :
  ((F32.zero <=? clamp (F32.of_Z 3 0) F32.zero F32.one)%f32 = true
   /\ (clamp (F32.of_Z 3 0) F32.zero F32.one <=? F32.one)%f32 = true)
  /\ clamp S754_nan F32.zero F32.one = F32.one
  /\ (let c := vec3.clamp (Examples.v3 (-1) 0 5) F32.zero F32.one in
      ((F32.zero <=? vec3.x c)%f32 = true /\ (vec3.x c <=? F32.one)%f32 = true)
      /\ ((F32.zero <=? vec3.y c)%f32 = true /\ (vec3.y c <=? F32.one)%f32 = true)
      /\ ((F32.zero <=? vec3.z c)%f32 = true /\ (vec3.z c <=? F32.one)%f32 = true)).
Proof.
  apply (clamp_range (F32.of_Z 3 0) F32.zero F32.one (Examples.v3 (-1) 0 5)).
  reflexivity.
Defined.

(** X4: [clamp] returns an argument of [[minVal, maxVal]] unchanged, and
    clamping twice is clamping once. *)
Theorem clamp_fixes_range (arg minVal maxVal : float) :
  (minVal <=? arg)%f32 = true -> (arg <=? maxVal)%f32 = true ->
  clamp arg minVal maxVal = arg
  /\ forall arg' : float,
       clamp (clamp arg' minVal maxVal) minVal maxVal = clamp arg' minVal maxVal.
Proof.
  intros H1 H2.
  assert (Hfix : forall a, (minVal <=? a)%f32 = true -> (a <=? maxVal)%f32 = true ->
                           clamp a minVal maxVal = a).
  { intros a Ha1 Ha2. unfold clamp, min, max. rewrite Ha2.
    unfold F32.geb, F32.leb in *. now rewrite Ha1. }
  split; [now apply Hfix|].
  intros arg'. assert (H : (minVal <=? maxVal)%f32 = true) by exact (leb_trans _ _ _ H1 H2).
  destruct (clamp_bounds arg' minVal maxVal H). now apply Hfix.
Qed.

Lemma clamp_fixes_range_witness :
  clamp (F32.of_Z 1 (-1)) F32.zero F32.one = F32.of_Z 1 (-1)
  /\ forall arg' : float,
       clamp (clamp arg' F32.zero F32.one) F32.zero F32.one = clamp arg' F32.zero F32.one.
Proof. apply (clamp_fixes_range (F32.of_Z 1 (-1)) F32.zero F32.one); reflexivity. Defined.

Lemma smoothstep_of_nan edge0 edge1 x :
  ((x - edge0) / (edge1 - edge0))%f32 = S754_nan -> smoothstep edge0 edge1 x = F32.one.
Proof. unfold smoothstep. intros ->. reflexivity. Qed.

(** X5: [smoothstep] answers exactly [1.0f] when its interpolation
    parameter is NaN: when an argument is NaN, and at the degenerate
    [edge0 = edge1 = x], where the parameter is [0/0]. *)
Theorem smoothstep_nan_is_one :
  (forall edge1 x, smoothstep S754_nan edge1 x = F32.one)
  /\ (forall edge0 x, smoothstep edge0 S754_nan x = F32.one)
  /\ (forall edge0 edge1, smoothstep edge0 edge1 S754_nan = F32.one)
  /\ (forall e, smoothstep e e e = F32.one).
Proof.
  split; [|split; [|split]].
  - intros edge1 x. apply smoothstep_of_nan. now rewrite sub_nan_right, div_nan_left.
  - intros edge0 x. apply smoothstep_of_nan.
    change (S754_nan - edge0)%f32 with S754_nan. apply div_nan_right.
  - intros edge0 edge1. apply smoothstep_of_nan. reflexivity.
  - intros e. apply smoothstep_of_nan. rewrite sub_diag.
    destruct (FloatSpec.is_finite e); reflexivity.
Qed.

Lemma smoothstepCubic_clamp_nonpos (q : float) :
  (q <=? F32.zero)%f32 = true ->
  smoothstepCubic (clamp q F32.zero F32.one) = F32.zero.
Proof.
  destruct q as [[]|[]| |[] m e]; intros H; try discriminate; reflexivity.
Qed.

(** X6: with [edge0 < edge1] and a finite [edge1 - edge0], [smoothstep] is
    exactly [+0] at and below [edge0]. *)
Theorem smoothstep_below_edge0 (edge0 edge1 x : float) :
  F32.is_float edge0 -> F32.is_float edge1 -> F32.is_float x ->
  FloatSpec.is_finite (edge1 - edge0)%f32 = true ->
  (edge0 <? edge1)%f32 = true ->
  (x <=? edge0)%f32 = true ->
  smoothstep edge0 edge1 x = F32.zero.
Proof.
  intros H0 H1 Hx Fin Hlt Hle. unfold smoothstep. cbv zeta.
  apply smoothstepCubic_clamp_nonpos, div_nonpos; [|now apply sub_gtb_zero|assumption].
  apply sub_leb_zero; try assumption.
  destruct edge0 as [[]|[]| |[] ? ?], edge1 as [[]|[]| |[] ? ?];
    try discriminate; reflexivity.
Qed.

Lemma smoothstep_below_edge0_witness :
  smoothstep (F32.of_Z 1 (-1)) F32.one (F32.of_Z 1 (-2)) = F32.zero.
Proof.
  apply (smoothstep_below_edge0 (F32.of_Z 1 (-1)) F32.one (F32.of_Z 1 (-2)));
    reflexivity.
Defined.

(** ** vec.hpp *)

Lemma F32_add_comm (x y : float) : (x + y)%f32 = (y + x)%f32.
Proof.
  destruct x as [[]|[]| |sx mx ex], y as [[]|[]| |sy my ey]; try reflexivity.
  unfold F32.add. cbn [SFadd]. now rewrite Z.add_comm, (Z.min_comm ex ey).
Qed.

Lemma F32_mul_comm (x y : float) : (x * y)%f32 = (y * x)%f32.
Proof.
  destruct x as [[]|[]| |[] mx ex], y as [[]|[]| |[] my ey]; try reflexivity;
    unfold F32.mul; cbn [SFmul xorb];
    now rewrite (Pos.mul_comm mx my), (Z.add_comm ex ey).
Qed.

(** X7: [dot], the vector sum and the componentwise product are
    commutative bit for bit, and [float * vec3] equals [vec3 * float]. *)
Theorem vec3_commutative (a b : vec3) (s : float) :
  dot a b = dot b a
  /\ (a + b)%vec3 = (b + a)%vec3
  /\ (a * b)%vec3 = (b * a)%vec3
  /\ (s *: a)%vec3 = (a :* s)%vec3.
Proof.
  unfold vec3.dot, vec3.add, vec3.mul, vec3.scalar_mul, vec3.mul_scalar.
  repeat split.
  - now rewrite (F32_mul_comm (vec3.x a)), (F32_mul_comm (vec3.y a)),
      (F32_mul_comm (vec3.z a)).
  - now rewrite (F32_add_comm (vec3.x a)), (F32_add_comm (vec3.y a)),
      (F32_add_comm (vec3.z a)).
  - now rewrite (F32_mul_comm (vec3.x a)), (F32_mul_comm (vec3.y a)),
      (F32_mul_comm (vec3.z a)).
  - now rewrite (F32_mul_comm s (vec3.x a)), (F32_mul_comm s (vec3.y a)),
      (F32_mul_comm s (vec3.z a)).
Qed.

(** X8: the cross product of a vector with itself is exactly
    [(+0, +0, +0)] when the three component products are finite. *)
Theorem cross_self (a : vec3) :
  FloatSpec.is_finite (vec3.y a * vec3.z a)%f32 = true ->
  FloatSpec.is_finite (vec3.z a * vec3.x a)%f32 = true ->
  FloatSpec.is_finite (vec3.x a * vec3.y a)%f32 = true ->
  vec3.cross a a = vec3.splat F32.zero.
Proof.
  intros Hx Hy Hz. unfold vec3.cross, vec3.splat.
  rewrite (F32_mul_comm (vec3.z a) (vec3.y a)), (F32_mul_comm (vec3.x a) (vec3.z a)),
    (F32_mul_comm (vec3.y a) (vec3.x a)).
  now rewrite !sub_self_finite.
Qed.

Lemma cross_self_witness :
  vec3.cross (Examples.v3 1 2 3) (Examples.v3 1 2 3) = vec3.splat F32.zero.
Proof. apply (cross_self (Examples.v3 1 2 3)); reflexivity. Defined.

Lemma mul_one_r (x : float) : F32.is_float x -> (x * F32.one)%f32 = x.
Proof. intros H. rewrite F32_mul_comm. now apply mul_one_l. Qed.

(** X9: multiplying a vector of binary32 values by [1.0f], on either
    side, or dividing it by [1.0f], returns it bit for bit. *)
Theorem vec3_unit_scalar (v : vec3) :
  LightSpec.is_vec3 v ->
  (v :* F32.one)%vec3 = v /\ (F32.one *: v)%vec3 = v /\ (v :/ F32.one)%vec3 = v.
Proof.
  intros (Hx & Hy & Hz). destruct v as [vx vy vz].
  unfold vec3.mul_scalar, vec3.scalar_mul, vec3.div_scalar.
  cbn [vec3.x vec3.y vec3.z] in *.
  change (F32.one / F32.one)%f32 with F32.one.
  now rewrite !mul_one_r, !mul_one_l.
Qed.

Lemma vec3_unit_scalar_witness :
  (Examples.albedo :* F32.one)%vec3 = Examples.albedo
  /\ (F32.one *: Examples.albedo)%vec3 = Examples.albedo
  /\ (Examples.albedo :/ F32.one)%vec3 = Examples.albedo.
Proof. apply (vec3_unit_scalar Examples.albedo). repeat split; reflexivity. Defined.

Lemma mul_self_nonneg (x : float) :
  FloatSpec.is_nan x = false ->
  nonneg_shape (x * x)%f32 = true /\ FloatSpec.is_nan (x * x)%f32 = false.
Proof.
  destruct x as [[]|[]| |s m e]; try discriminate; intros _; try (split; reflexivity).
  unfold F32.mul. cbn [SFmul]. rewrite xorb_nilpotent.
  split; [apply binary_round_aux_shape|apply binary_round_aux_not_nan; lia].
Qed.

Lemma add_nonneg (x y : float) :
  nonneg_shape x = true -> FloatSpec.is_nan x = false ->
  nonneg_shape y = true -> FloatSpec.is_nan y = false ->
  nonneg_shape (x + y)%f32 = true /\ FloatSpec.is_nan (x + y)%f32 = false.
Proof.
  destruct x as [[]|[]| |[] mx ex], y as [[]|[]| |[] my ey]; try discriminate;
    intros _ _ _ _; try (split; reflexivity).
  unfold F32.add. cbn [SFadd cond_Zopp Z.add binary_normalize].
  split; [apply binary_round_shape|apply binary_round_not_nan].
Qed.

Lemma sqrt_nonneg (x : float) :
  grounded x = true ->
  nonneg_shape x = true -> FloatSpec.is_nan x = false ->
  nonneg_shape (F32.sqrt x) = true /\ FloatSpec.is_nan (F32.sqrt x) = false.
Proof.
  destruct x as [[]|[]| |[] m e]; try discriminate; intros G _ _; try (split; reflexivity).
  cbn [grounded] in G. apply Z.leb_le in G.
  unfold F32.sqrt. cbn [SFsqrt]. pose proof (sqrt_core_pos m e G) as C.
  destruct (SFsqrt_core_binary F32.prec F32.emax (Zpos m) e) as [[q e'] l].
  destruct C as [Hq _].
  split; [apply binary_round_aux_shape|apply binary_round_aux_not_nan; lia].
Qed.

Lemma lengthSquared_nonneg (v : vec3) :
  FloatSpec.vec_has_nan v = false ->
  nonneg_shape (vec3.lengthSquared v) = true
  /\ FloatSpec.is_nan (vec3.lengthSquared v) = false.
Proof.
  unfold FloatSpec.vec_has_nan. intros H.
  apply orb_false_iff in H as [H Hz]. apply orb_false_iff in H as [Hx Hy].
  destruct (mul_self_nonneg _ Hx) as [X1 X2].
  destruct (mul_self_nonneg _ Hy) as [Y1 Y2].
  destruct (mul_self_nonneg _ Hz) as [Z1 Z2].
  unfold vec3.lengthSquared, vec3.dot.
  destruct (add_nonneg _ _ X1 X2 Y1 Y2) as [A1 A2].
  now apply add_nonneg.
Qed.

(** X10: [length] and [lengthSquared] never answer a negative value: for
    a vector without NaN component both are at least [+0] (possibly
    [+infinity]); with a NaN component [length] is NaN. *)
Theorem length_nonneg_or_nan (v : vec3) :
  if FloatSpec.vec_has_nan v then length v = S754_nan
  else (F32.zero <=? vec3.lengthSquared v)%f32 = true
       /\ (F32.zero <=? length v)%f32 = true.
Proof.
  destruct (FloatSpec.vec_has_nan v) eqn:H.
  - unfold vec3.length, vec3.lengthSquared. now rewrite (dot_nan_l v v H).
  - destruct (lengthSquared_nonneg v H) as [S N].
    split; [now apply nonneg_leb|].
    destruct (sqrt_nonneg (vec3.lengthSquared v)) as [S' N']; try assumption.
    + apply dot_grounded.
    + now apply nonneg_leb.
Qed.

Lemma mul_inf_not_finite (x : float) :
  FloatSpec.is_finite (x * INFINITY)%f32 = false.
Proof. destruct x as [[]|[]| |[] m e]; reflexivity. Qed.

(** X11: [normalize] of a vector whose length evaluates to zero has no
    finite component (each is NaN or an infinity); this covers the zero
    vector and nonzero vectors whose squared length underflows. *)
Theorem normalize_zero_length (v : vec3) :
  length v = F32.zero ->
  FloatSpec.is_finite (vec3.x (vec3.normalize v)) = false
  /\ FloatSpec.is_finite (vec3.y (vec3.normalize v)) = false
  /\ FloatSpec.is_finite (vec3.z (vec3.normalize v)) = false.
Proof.
  intros H. unfold vec3.normalize, vec3.div_scalar. rewrite H.
  cbn [vec3.x vec3.y vec3.z]. change (F32.one / F32.zero)%f32 with INFINITY.
  repeat split; apply mul_inf_not_finite.
Qed.

Lemma normalize_zero_length_witness :
  FloatSpec.is_finite (vec3.x (vec3.normalize Examples.tiny)) = false
  /\ FloatSpec.is_finite (vec3.y (vec3.normalize Examples.tiny)) = false
  /\ FloatSpec.is_finite (vec3.z (vec3.normalize Examples.tiny)) = false.
Proof. apply (normalize_zero_length Examples.tiny). vm_compute. reflexivity. Defined.

(** ** light.hpp *)

Lemma vec_sub_self (p : vec3) :
  FloatSpec.vec_is_finite p = true -> (p - p)%vec3 = vec3.splat F32.zero.
Proof.
  unfold FloatSpec.vec_is_finite. intros H.
  apply andb_true_iff in H as [H Hz]. apply andb_true_iff in H as [Hx Hy].
  unfold vec3.sub, vec3.splat. now rewrite !sub_self_finite.
Qed.

(** X12: a point light sampled at its own (finite) position answers the
    distance [+0], a direction whose components are all NaN, and the
    radiance [intensity * infinity]. *)
Theorem PointLight_at_own_position (l : PointLight.t) :
  FloatSpec.vec_is_finite (PointLight.origin l) = true ->
  let ls := PointLight.sampleRadiance l (PointLight.origin l) in
  LightSample.direction ls = vec3.splat S754_nan
  /\ LightSample.distanceToLight ls = F32.zero
  /\ LightSample.radiance ls = (PointLight.intensity l :* INFINITY)%vec3.
Proof.
  intros H. cbv zeta. unfold PointLight.sampleRadiance. rewrite (vec_sub_self _ H).
  repeat split.
Qed.

Lemma PointLight_at_own_position_witness :
  let ls := PointLight.sampleRadiance Examples.lamp (PointLight.origin Examples.lamp) in
  LightSample.direction ls = vec3.splat S754_nan
  /\ LightSample.distanceToLight ls = F32.zero
  /\ LightSample.radiance ls = (PointLight.intensity Examples.lamp :* INFINITY)%vec3.
Proof. apply (PointLight_at_own_position Examples.lamp). reflexivity. Defined.

(** ** sphere.hpp *)

Lemma sphere_any_valid s ray minT maxT :
  Sphere.intersectAny s ray minT maxT = valid (Sphere.intersect s ray minT maxT).
Proof.
  rewrite intersectAny_unfold, intersect_unfold.
  destruct (SphereSpec.discriminant s ray <=? F32.zero)%f32 eqn:Hle.
  - rewrite (leb_zero_not_gtb _ Hle). reflexivity.
  - destruct (SphereSpec.discriminant s ray >? F32.zero)%f32 eqn:Hgt.
    + cbn [andb].
      destruct (inside minT maxT (SphereSpec.t1 s ray)) eqn:I1.
      * cbn. symmetry. now apply inside_valid in I1.
      * destruct (inside minT maxT (SphereSpec.t2 s ray)) eqn:I2; [|reflexivity].
        cbn. symmetry. now apply inside_valid in I2.
    + pose proof (not_leb_not_gtb_nan _ Hle Hgt) as Hnan.
      unfold SphereSpec.t1, SphereSpec.t2. rewrite Hnan, sub_nan_r, add_nan_r.
      rewrite inside_nan. reflexivity.
Qed.

Lemma inside_is_finite minT maxT t :
  inside minT maxT t = true -> FloatSpec.is_finite t = true.
Proof.
  unfold inside, F32.gtb, F32.ltb. intros H. apply andb_true_iff in H as [H1 H2].
  destruct t as [[]|[]| |[] m e]; try reflexivity.
  - destruct minT as [[]|[]| |[] ? ?]; discriminate.
  - destruct maxT as [[]|[]| |[] ? ?]; discriminate.
  - destruct minT as [[]|[]| |[] ? ?]; discriminate.
Qed.

(** X13: [Sphere::intersect] answers either the no-intersection value or
    a consistent record: its distance is a finite number strictly inside
    [(minT, maxT)], its position is the ray's point at that distance, its
    normal is the sphere's normal at that position and its colour is the
    sphere's. *)
Theorem Sphere_intersect_record (s : Sphere.t) (ray : Ray.t) (minT maxT : float) :
  let h := Sphere.intersect s ray minT maxT in
  if valid h then
    inside minT maxT (Intersection.dist h) = true
    /\ FloatSpec.is_finite (Intersection.dist h) = true
    /\ Intersection.pos h = Ray.at_ ray (Intersection.dist h)
    /\ Intersection.normal h = Sphere.normal s (Intersection.pos h)
    /\ Intersection.color h = Sphere.color s
  else h = noIntersection.
Proof.
  cbv zeta. rewrite intersect_unfold.
  destruct (SphereSpec.discriminant s ray <=? F32.zero)%f32; [reflexivity|].
  destruct (inside minT maxT (SphereSpec.t1 s ray)) eqn:I1.
  - unfold valid. cbn [SphereSpec.hit_at Intersection.dist Intersection.pos
                        Intersection.normal Intersection.color].
    rewrite (inside_valid _ _ _ I1). repeat split; try assumption.
    exact (inside_is_finite _ _ _ I1).
  - destruct (inside minT maxT (SphereSpec.t2 s ray)) eqn:I2; [|reflexivity].
    unfold valid. cbn [SphereSpec.hit_at Intersection.dist Intersection.pos
                        Intersection.normal Intersection.color].
    rewrite (inside_valid _ _ _ I2). repeat split; try assumption.
    exact (inside_is_finite _ _ _ I2).
Qed.

Lemma discriminant_nan s ray :
  FloatSpec.vec_has_nan (Ray.o ray) || FloatSpec.vec_has_nan (Ray.d ray)
  || FloatSpec.vec_has_nan (Sphere.origin s) || FloatSpec.is_nan (Sphere.radius s) = true ->
  SphereSpec.discriminant s ray = S754_nan.
Proof.
  intros H. unfold SphereSpec.discriminant, SphereSpec.b, SphereSpec.c.
  apply orb_true_iff in H as [H|H]; [apply orb_true_iff in H as [H|H];
    [apply orb_true_iff in H as [H|H]|]|].
  - rewrite (dot_nan_r (Ray.d ray) _ (sub_has_nan_r _ _ H)). now nan_absorb.
  - rewrite (dot_nan_l _ (Sphere.origin s - Ray.o ray)%vec3 H). now nan_absorb.
  - rewrite (dot_nan_r (Ray.d ray) _ (sub_has_nan_l _ _ H)). now nan_absorb.
  - apply is_nan_eq in H. rewrite H. now nan_absorb.
Qed.

Lemma inside_nan_bounds minT maxT t :
  FloatSpec.is_nan minT || FloatSpec.is_nan maxT = true -> inside minT maxT t = false.
Proof.
  intros H. unfold inside, F32.gtb, F32.ltb.
  apply orb_true_iff in H as [H|H]; apply is_nan_eq in H; rewrite H.
  - reflexivity.
  - apply andb_false_iff. right. destruct t as [[]|[]| |[] m e]; reflexivity.
Qed.

Lemma sphere_nan_miss s ray minT maxT :
  FloatSpec.vec_has_nan (Ray.o ray) || FloatSpec.vec_has_nan (Ray.d ray)
  || FloatSpec.vec_has_nan (Sphere.origin s) || FloatSpec.is_nan (Sphere.radius s)
  || (FloatSpec.is_nan minT || FloatSpec.is_nan maxT) = true ->
  Sphere.intersect s ray minT maxT = noIntersection.
Proof.
  intros H. rewrite intersect_unfold. apply orb_true_iff in H as [H|H].
  - unfold SphereSpec.t1, SphereSpec.t2. rewrite (discriminant_nan _ _ H).
    rewrite sub_nan_r, add_nan_r, !inside_nan. reflexivity.
  - rewrite !(inside_nan_bounds _ _ _ H).
    now destruct (SphereSpec.discriminant s ray <=? F32.zero)%f32.
Qed.

(** X14: a NaN anywhere in the ray's origin or direction, the sphere's
    centre or radius, or the bounds makes both sphere queries report no
    hit. *)
Theorem Sphere_intersect_nan (s : Sphere.t) (ray : Ray.t) (minT maxT : float) :
  FloatSpec.vec_has_nan (Ray.o ray) || FloatSpec.vec_has_nan (Ray.d ray)
  || FloatSpec.vec_has_nan (Sphere.origin s) || FloatSpec.is_nan (Sphere.radius s)
  || (FloatSpec.is_nan minT || FloatSpec.is_nan maxT) = true ->
  Sphere.intersect s ray minT maxT = noIntersection
  /\ Sphere.intersectAny s ray minT maxT = false.
Proof.
  intros H. pose proof (sphere_nan_miss s ray minT maxT H) as E.
  split; [exact E|]. rewrite sphere_any_valid, E. reflexivity.
Qed.

Lemma Sphere_intersect_nan_witness :
  Sphere.intersect Examples.ball Examples.nan_ray F32.zero INFINITY = noIntersection
  /\ Sphere.intersectAny Examples.ball Examples.nan_ray F32.zero INFINITY = false.
Proof.
  apply (Sphere_intersect_nan Examples.ball Examples.nan_ray F32.zero INFINITY).
  reflexivity.
Defined.

(** ** scene.hpp *)

Lemma intersectAny_from_existsb l ray minT maxT :
  Scene.intersectAny_from l ray minT maxT
  = existsb (fun s => valid (Sphere.intersect s ray minT maxT)) l.
Proof.
  induction l as [|s l IH]; [reflexivity|].
  cbn [Scene.intersectAny_from existsb]. rewrite sphere_any_valid, IH.
  now destruct (valid (Sphere.intersect s ray minT maxT)).
Qed.

Lemma intersectAny_from_app l l' ray minT maxT :
  Scene.intersectAny_from (l ++ l') ray minT maxT
  = Scene.intersectAny_from l ray minT maxT || Scene.intersectAny_from l' ray minT maxT.
Proof. rewrite !intersectAny_from_existsb. apply existsb_app. Qed.

(** The scan answers the sentinel exactly when its record is not valid. *)
Lemma scene_invalid_noIntersection scene ray minT maxT :
  valid (Scene.intersect scene ray minT maxT) = false ->
  Scene.intersect scene ray minT maxT = noIntersection.
Proof.
  rewrite intersect_nearest. intros Hv.
  destruct (nearest_cases scene ray minT maxT) as [[_ E] | (V & _)]; [exact E|].
  cbv zeta in V. rewrite V in Hv. discriminate.
Qed.

Lemma scene_valid_existsb scene ray minT maxT :
  valid (Scene.intersect scene ray minT maxT)
  = existsb (fun s => valid (Sphere.intersect s ray minT maxT)) (Scene.spheres scene).
Proof.
  rewrite intersect_nearest.
  destruct (nearest_cases scene ray minT maxT) as [[Hall E] | (V & _ & Hin & _)];
    cbv zeta in *.
  - rewrite E. symmetry. apply not_true_iff_false. intros Hex.
    apply existsb_exists in Hex as (s & Hs & Hv).
    rewrite Forall_forall in Hall.
    rewrite (Hall (Sphere.intersect s ray minT maxT)) in Hv; [discriminate|].
    unfold SceneSpec.hits. apply in_map_iff. now exists s.
  - rewrite V. symmetry. apply existsb_exists.
    unfold SceneSpec.hits in Hin. apply in_map_iff in Hin as (s & Es & Hs).
    exists s. split; [assumption|]. now rewrite Es.
Qed.

(** X15: [Scene::intersectAny] is true exactly when [Scene::intersect]
    answers a valid record, for every scene, ray and bounds. *)
Theorem Scene_intersectAny_agrees (scene : Scene.t) (ray : Ray.t) (minT maxT : float) :
  Scene.intersectAny scene ray minT maxT = valid (Scene.intersect scene ray minT maxT).
Proof.
  unfold Scene.intersectAny. now rewrite intersectAny_from_existsb, scene_valid_existsb.
Qed.

Lemma scene_add_sphere_intersect scene (s : Sphere.t) ray minT maxT :
  Scene.intersect (add scene s) ray minT maxT
  = SceneSpec.pick (Scene.intersect scene ray minT maxT) (Sphere.intersect s ray minT maxT).
Proof.
  rewrite !intersect_nearest. unfold SceneSpec.nearest, SceneSpec.hits.
  cbn [add add_Sphere Scene.spheres]. rewrite map_app, fold_left_app. reflexivity.
Qed.

(** X16: after [add(scene, sphere)] the nearest-hit query answers the new
    sphere's record when it is strictly nearer than the previous answer
    and the previous answer otherwise; the any-hit query is the previous
    answer or the new sphere's. *)
Theorem Scene_add_sphere (scene : Scene.t) (s : Sphere.t) (ray : Ray.t) (minT maxT : float) :
  let old := Scene.intersect scene ray minT maxT in
  let h := Sphere.intersect s ray minT maxT in
  Scene.intersect (add scene s) ray minT maxT
  = (if (Intersection.dist h <? Intersection.dist old)%f32 then h else old)
  /\ Scene.intersectAny (add scene s) ray minT maxT
     = Scene.intersectAny scene ray minT maxT || Sphere.intersectAny s ray minT maxT.
Proof.
  cbv zeta. split.
  - apply scene_add_sphere_intersect.
  - unfold Scene.intersectAny. cbn [add add_Sphere Scene.spheres].
    rewrite intersectAny_from_app. cbn [Scene.intersectAny_from].
    now destruct (Sphere.intersectAny s ray minT maxT).
Qed.

(** X17: a scene without spheres answers no intersection and no
    occlusion, whatever the ray and the bounds (NaN bounds included). *)
Theorem Scene_no_spheres (scene : Scene.t) (ray : Ray.t) (minT maxT : float) :
  Scene.spheres scene = [] ->
  Scene.intersect scene ray minT maxT = noIntersection
  /\ Scene.intersectAny scene ray minT maxT = false.
Proof.
  intros E. unfold Scene.intersect, Scene.intersectAny. rewrite E.
  cbn [fold_left Scene.intersectAny_from Intersection.set_dist Intersection.dist].
  now rewrite ltb_irrefl.
Qed.

Lemma Scene_no_spheres_witness :
  Scene.intersect (Examples.scene_of []) Examples.ray F32.zero INFINITY = noIntersection
  /\ Scene.intersectAny (Examples.scene_of []) Examples.ray F32.zero INFINITY = false.
Proof.
  apply (Scene_no_spheres (Examples.scene_of []) Examples.ray F32.zero INFINITY).
  reflexivity.
Defined.

(** X18: a ray with a NaN in its origin or direction, or NaN bounds, hits
    nothing in any scene. *)
Theorem Scene_intersect_nan_ray (scene : Scene.t) (ray : Ray.t) (minT maxT : float) :
  FloatSpec.vec_has_nan (Ray.o ray) || FloatSpec.vec_has_nan (Ray.d ray)
  || (FloatSpec.is_nan minT || FloatSpec.is_nan maxT) = true ->
  Scene.intersect scene ray minT maxT = noIntersection
  /\ Scene.intersectAny scene ray minT maxT = false.
Proof.
  intros H.
  assert (Hex : existsb (fun s => valid (Sphere.intersect s ray minT maxT))
                  (Scene.spheres scene) = false).
  { apply not_true_iff_false. intros Hex. apply existsb_exists in Hex as (s & _ & Hv).
    rewrite (sphere_nan_miss s ray minT maxT) in Hv; [discriminate|].
    apply orb_true_iff in H as [H|H]; [|now rewrite H, orb_true_r].
    apply orb_true_iff in H as [H|H]; rewrite H; cbn [orb]; rewrite ?orb_true_r; reflexivity. }
  split.
  - apply scene_invalid_noIntersection. now rewrite scene_valid_existsb.
  - unfold Scene.intersectAny. now rewrite intersectAny_from_existsb.
Qed.

Lemma Scene_intersect_nan_ray_witness :
  Scene.intersect (Examples.scene_of [Examples.ball]) Examples.nan_ray F32.zero INFINITY
  = noIntersection
  /\ Scene.intersectAny (Examples.scene_of [Examples.ball]) Examples.nan_ray
       F32.zero INFINITY = false.
Proof.
  apply (Scene_intersect_nan_ray (Examples.scene_of [Examples.ball]) Examples.nan_ray
           F32.zero INFINITY).
  reflexivity.
Defined.

Lemma sphere_narrow s ray minT maxT B :
  (B <=? maxT)%f32 = true ->
  Sphere.intersect s ray minT B
  = SceneSpec.keep_below B (Sphere.intersect s ray minT maxT).
Proof.
  intros HB. unfold SceneSpec.keep_below.
  destruct (intersect_narrow s ray minT maxT B HB) as [Hlt Hkeep]. cbv zeta in Hlt, Hkeep.
  destruct (Intersection.dist (Sphere.intersect s ray minT maxT) <? B)%f32 eqn:E.
  - now apply Hkeep.
  - destruct (intersect_cases s ray minT B) as [E' | I]; [exact E'|].
    unfold inside in I. apply andb_true_iff in I as [_ I]. rewrite Hlt in I. discriminate.
Qed.

Lemma keep_below_noIntersection B : SceneSpec.keep_below B noIntersection = noIntersection.
Proof. unfold SceneSpec.keep_below. now destruct (_ <? _)%f32. Qed.

Lemma pick_keep_below B acc h :
  SceneSpec.ordered acc -> SceneSpec.ordered h ->
  SceneSpec.pick (SceneSpec.keep_below B acc) (SceneSpec.keep_below B h)
  = SceneSpec.keep_below B (SceneSpec.pick acc h).
Proof.
  unfold SceneSpec.ordered, SceneSpec.pick, SceneSpec.keep_below.
  intros Oa Oh.
  destruct (Intersection.dist acc <? B)%f32 eqn:Ea;
    destruct (Intersection.dist h <? B)%f32 eqn:Eh;
    destruct (Intersection.dist h <? Intersection.dist acc)%f32 eqn:Ec;
    cbn [Intersection.dist noIntersection]; rewrite ?Ea, ?Eh, ?Ec, ?ltb_INFINITY_l;
    try reflexivity.
  all: revert Oa Oh Ea Eh Ec;
    generalize (Intersection.dist acc), (Intersection.dist h); intros a b; intros.
  all: try solve [exfalso; f32_order].
  all: try (replace (b <? INFINITY)%f32 with true by (symmetry; f32_order); reflexivity).
  all: try (replace (b <? INFINITY)%f32 with false by (symmetry; f32_order); reflexivity).
Qed.

Lemma pick_ordered acc h :
  SceneSpec.ordered acc -> SceneSpec.ordered h -> SceneSpec.ordered (SceneSpec.pick acc h).
Proof. unfold SceneSpec.pick. now destruct (_ <? _)%f32. Qed.

Lemma fold_pick_keep_below B hs : forall acc,
  SceneSpec.ordered acc -> Forall SceneSpec.ordered hs ->
  fold_left SceneSpec.pick (map (SceneSpec.keep_below B) hs) (SceneSpec.keep_below B acc)
  = SceneSpec.keep_below B (fold_left SceneSpec.pick hs acc).
Proof.
  induction hs as [|h hs IH]; intros acc Oa Oh; [reflexivity|].
  inversion Oh as [|? ? O1 O2]; subst. cbn [map fold_left].
  rewrite pick_keep_below by assumption. apply IH; [now apply pick_ordered|assumption].
Qed.

(** X19: lowering the upper bound from [maxT] to [B <= maxT] never makes a
    query find a different hit: the sphere query and the scene query answer
    the record found within [maxT] when its distance is below [B], and no
    intersection otherwise. *)
Theorem intersect_lower_bound (scene : Scene.t) (s : Sphere.t) (ray : Ray.t)
  (minT maxT B : float) :
  (B <=? maxT)%f32 = true ->
  Sphere.intersect s ray minT B
  = (let h := Sphere.intersect s ray minT maxT in
     if (Intersection.dist h <? B)%f32 then h else noIntersection)
  /\ Scene.intersect scene ray minT B
     = (let r := Scene.intersect scene ray minT maxT in
        if (Intersection.dist r <? B)%f32 then r else noIntersection).
Proof.
  intros HB. split; [now apply sphere_narrow|].
  cbv zeta. fold (SceneSpec.keep_below B (Scene.intersect scene ray minT maxT)).
  rewrite !intersect_nearest. unfold SceneSpec.nearest.
  rewrite <- (keep_below_noIntersection B) at 1.
  rewrite <- fold_pick_keep_below by (apply ordered_noIntersection || apply ordered_hits).
  f_equal. unfold SceneSpec.hits. rewrite map_map. apply map_ext.
  intros a. now apply sphere_narrow.
Qed.

Lemma intersect_lower_bound_witness :
  Sphere.intersect Examples.ball Examples.ray F32.zero (F32.of_Z 3 0)
  = (let h := Sphere.intersect Examples.ball Examples.ray F32.zero INFINITY in
     if (Intersection.dist h <? F32.of_Z 3 0)%f32 then h else noIntersection)
  /\ Scene.intersect (Examples.scene_of [Examples.far_ball; Examples.ball]) Examples.ray
       F32.zero (F32.of_Z 3 0)
     = (let r := Scene.intersect (Examples.scene_of [Examples.far_ball; Examples.ball])
                   Examples.ray F32.zero INFINITY in
        if (Intersection.dist r <? F32.of_Z 3 0)%f32 then r else noIntersection).
Proof.
  apply (intersect_lower_bound (Examples.scene_of [Examples.far_ball; Examples.ball])
           Examples.ball Examples.ray F32.zero INFINITY (F32.of_Z 3 0)).
  reflexivity.
Defined.

Lemma existsb_perm {A} (f : A -> bool) (l l' : list A) :
  Permutation l l' -> existsb f l = existsb f l'.
Proof.
  induction 1 as [|x l l' _ IH|x y l|l l' l'' _ IH1 _ IH2]; cbn [existsb].
  - reflexivity.
  - now rewrite IH.
  - now destruct (f x), (f y).
  - now rewrite IH1.
Qed.

(** X20: [Scene::intersectAny] answers the same for every order of the
    spheres, ties or not. *)
Theorem Scene_intersectAny_reorder (scene scene' : Scene.t) (ray : Ray.t)
  (minT maxT : float) :
  Permutation (Scene.spheres scene) (Scene.spheres scene') ->
  Scene.intersectAny scene ray minT maxT = Scene.intersectAny scene' ray minT maxT.
Proof.
  intros Hp. unfold Scene.intersectAny. rewrite !intersectAny_from_existsb.
  now apply existsb_perm.
Qed.

Lemma Scene_intersectAny_reorder_witness :
  Scene.intersectAny (Examples.scene_of [Examples.far_ball; Examples.ball])
    Examples.ray F32.zero INFINITY
  = Scene.intersectAny (Examples.scene_of [Examples.ball; Examples.far_ball])
      Examples.ray F32.zero INFINITY.
Proof.
  apply (Scene_intersectAny_reorder
           (Examples.scene_of [Examples.far_ball; Examples.ball])
           (Examples.scene_of [Examples.ball; Examples.far_ball])
           Examples.ray F32.zero INFINITY).
  apply perm_swap.
Defined.

Lemma intersect_valid_pos s ray minT maxT :
  valid (Sphere.intersect s ray minT maxT) = true ->
  Intersection.pos (Sphere.intersect s ray minT maxT)
  = Ray.at_ ray (Intersection.dist (Sphere.intersect s ray minT maxT)).
Proof.
  rewrite intersect_unfold.
  destruct (SphereSpec.discriminant s ray <=? F32.zero)%f32; [discriminate|].
  destruct (inside minT maxT (SphereSpec.t1 s ray)); [reflexivity|].
  destruct (inside minT maxT (SphereSpec.t2 s ray)); [reflexivity|discriminate].
Qed.

(** Whatever the order of the spheres, the nearest record has the same
    distance and the same position. *)
Lemma nearest_perm scene scene' ray minT maxT :
  Permutation (Scene.spheres scene) (Scene.spheres scene') ->
  Intersection.dist (Scene.intersect scene ray minT maxT)
  = Intersection.dist (Scene.intersect scene' ray minT maxT)
  /\ Intersection.pos (Scene.intersect scene ray minT maxT)
     = Intersection.pos (Scene.intersect scene' ray minT maxT).
Proof.
  intros Hp. rewrite !intersect_nearest.
  assert (Hh : Permutation (SceneSpec.hits scene ray minT maxT)
                           (SceneSpec.hits scene' ray minT maxT))
    by (unfold SceneSpec.hits; now apply Permutation_map).
  destruct (nearest_cases scene ray minT maxT) as [[A E] | (V & _ & Hin & Hmin)];
    destruct (nearest_cases scene' ray minT maxT) as [[A' E'] | (V' & _ & Hin' & Hmin')];
    cbv zeta in *.
  - now rewrite E, E'.
  - exfalso. rewrite Forall_forall in A.
    rewrite (A _ (Permutation_in _ (Permutation_sym Hh) Hin')) in V'. discriminate.
  - exfalso. rewrite Forall_forall in A'.
    rewrite (A' _ (Permutation_in _ Hh Hin)) in V. discriminate.
  - set (r := SceneSpec.nearest scene ray minT maxT) in *.
    set (r' := SceneSpec.nearest scene' ray minT maxT) in *.
    rewrite Forall_forall in Hmin, Hmin'.
    pose proof (Hmin _ (Permutation_in _ (Permutation_sym Hh) Hin') V') as L.
    pose proof (Hmin' _ (Permutation_in _ Hh Hin) V) as L'.
    unfold SceneSpec.hits in Hin, Hin'.
    apply in_map_iff in Hin as (s & Es & _). apply in_map_iff in Hin' as (s' & Es' & _).
    assert (Ed : Intersection.dist r = Intersection.dist r').
    { apply same_eq, eqb_same.
      - rewrite <- Es. apply hit_dist_not_negzero.
      - rewrite <- Es'. apply hit_dist_not_negzero.
      - now apply leb_antisym. }
    split; [exact Ed|].
    rewrite <- Es in V. rewrite <- Es' in V'.
    pose proof (intersect_valid_pos _ _ _ _ V) as P.
    pose proof (intersect_valid_pos _ _ _ _ V') as P'.
    rewrite Es in P. rewrite Es' in P'. now rewrite P, P', Ed.
Qed.

(** X21: for every order of the spheres, bit-exact ties included,
    [Scene::intersect] answers a record with the same distance and the
    same position; only the normal and the colour can depend on the
    order. *)
Theorem Scene_intersect_reorder_distance (scene scene' : Scene.t) (ray : Ray.t)
  (minT maxT : float) :
  Permutation (Scene.spheres scene) (Scene.spheres scene') ->
  Intersection.dist (Scene.intersect scene ray minT maxT)
  = Intersection.dist (Scene.intersect scene' ray minT maxT)
  /\ Intersection.pos (Scene.intersect scene ray minT maxT)
     = Intersection.pos (Scene.intersect scene' ray minT maxT)
  /\ valid (Scene.intersect scene ray minT maxT)
     = valid (Scene.intersect scene' ray minT maxT).
Proof.
  intros Hp. destruct (nearest_perm scene scene' ray minT maxT Hp) as [Ed Ep].
  repeat split; try assumption. unfold valid. now rewrite Ed.
Qed.

Lemma Scene_intersect_reorder_distance_witness :
  Intersection.dist
    (Scene.intersect (Examples.scene_of [Examples.left_ball; Examples.right_ball])
       Examples.ray F32.zero INFINITY)
  = Intersection.dist
      (Scene.intersect (Examples.scene_of [Examples.right_ball; Examples.left_ball])
         Examples.ray F32.zero INFINITY)
  /\ Intersection.pos
       (Scene.intersect (Examples.scene_of [Examples.left_ball; Examples.right_ball])
          Examples.ray F32.zero INFINITY)
     = Intersection.pos
         (Scene.intersect (Examples.scene_of [Examples.right_ball; Examples.left_ball])
            Examples.ray F32.zero INFINITY)
  /\ valid
       (Scene.intersect (Examples.scene_of [Examples.left_ball; Examples.right_ball])
          Examples.ray F32.zero INFINITY)
     = valid
         (Scene.intersect (Examples.scene_of [Examples.right_ball; Examples.left_ball])
            Examples.ray F32.zero INFINITY).
Proof.
  apply (Scene_intersect_reorder_distance
           (Examples.scene_of [Examples.left_ball; Examples.right_ball])
           (Examples.scene_of [Examples.right_ball; Examples.left_ball])
           Examples.ray F32.zero INFINITY).
  apply perm_swap.
Defined.

(** ** integrator.hpp: the binary, colour, distance and normal integrators *)

(** X22: the binary integrator answers white exactly when
    [Scene::intersectAny] over [(0, infinity)] is true, and black
    otherwise. *)
Theorem Binary_radiance_mask (scene : Scene.t) (ray : Ray.t) :
  BinaryIntegrator.radiance scene ray
  = vec3.splat (float_of_bool (Scene.intersectAny scene ray F32.zero INFINITY)).
Proof.
  unfold BinaryIntegrator.radiance, Scene.call, Scene.intersectAny. cbv zeta.
  now rewrite intersectAny_from_existsb, scene_valid_existsb.
Qed.

(** X23: when the ray hits nothing, the colour, inverse-distance and
    normal integrators answer exactly black. *)
Theorem integrators_miss_black (scene : Scene.t) (ray : Ray.t) :
  valid (Scene.intersect scene ray F32.zero INFINITY) = false ->
  ColorIntegrator.radiance scene ray = vec3.splat F32.zero
  /\ InverseDistanceIntegrator.radiance scene ray = vec3.splat F32.zero
  /\ NormalIntegrator.radiance scene ray = vec3.splat F32.zero.
Proof.
  intros Hv. apply scene_invalid_noIntersection in Hv.
  unfold ColorIntegrator.radiance, InverseDistanceIntegrator.radiance,
    NormalIntegrator.radiance, Scene.call.
  cbv zeta. rewrite Hv. repeat split.
  unfold facing_normal. cbn [Intersection.normal noIntersection].
  destruct (dot (Ray.d ray) (vec3.splat F32.zero) <? F32.zero)%f32; reflexivity.
Qed.

Lemma integrators_miss_black_witness :
  ColorIntegrator.radiance (Examples.scene_of [Examples.ball]) Examples.stray_ray
  = vec3.splat F32.zero
  /\ InverseDistanceIntegrator.radiance (Examples.scene_of [Examples.ball])
       Examples.stray_ray = vec3.splat F32.zero
  /\ NormalIntegrator.radiance (Examples.scene_of [Examples.ball]) Examples.stray_ray
     = vec3.splat F32.zero.
Proof.
  apply (integrators_miss_black (Examples.scene_of [Examples.ball]) Examples.stray_ray).
  vm_compute. reflexivity.
Defined.

(** X24: when the ray hits something, the colour integrator answers the
    colour of a sphere of the scene that the ray hits and that no other
    hit sphere is nearer than. *)
Theorem Color_radiance_nearest (scene : Scene.t) (ray : Ray.t) :
  valid (Scene.intersect scene ray F32.zero INFINITY) = true ->
  exists s : Sphere.t,
    In s (Scene.spheres scene)
    /\ ColorIntegrator.radiance scene ray = Sphere.color s
    /\ valid (Sphere.intersect s ray F32.zero INFINITY) = true
    /\ Forall
         (fun s' =>
            valid (Sphere.intersect s' ray F32.zero INFINITY) = true ->
            (Intersection.dist (Sphere.intersect s ray F32.zero INFINITY)
             <=? Intersection.dist (Sphere.intersect s' ray F32.zero INFINITY))%f32 = true)
         (Scene.spheres scene).
Proof.
  unfold ColorIntegrator.radiance, Scene.call. rewrite intersect_nearest. intros Hv.
  destruct (nearest_cases scene ray F32.zero INFINITY) as [[_ E] | (V & _ & Hin & Hmin)];
    cbv zeta in *.
  - rewrite E in Hv. discriminate.
  - unfold SceneSpec.hits in Hin. apply in_map_iff in Hin as (s & Es & Hs).
    exists s. rewrite <- Es in *. repeat split; try assumption.
    + now apply intersect_valid_color.
    + apply Forall_forall. intros s' Hs' Hv'. rewrite Forall_forall in Hmin.
      apply Hmin; [|assumption]. unfold SceneSpec.hits. apply in_map_iff. now exists s'.
Qed.

Lemma Color_radiance_nearest_witness :
  exists s : Sphere.t,
    In s [Examples.far_ball; Examples.ball]
    /\ ColorIntegrator.radiance (Examples.scene_of [Examples.far_ball; Examples.ball])
         Examples.ray = Sphere.color s
    /\ valid (Sphere.intersect s Examples.ray F32.zero INFINITY) = true
    /\ Forall
         (fun s' =>
            valid (Sphere.intersect s' Examples.ray F32.zero INFINITY) = true ->
            (Intersection.dist (Sphere.intersect s Examples.ray F32.zero INFINITY)
             <=? Intersection.dist (Sphere.intersect s' Examples.ray F32.zero INFINITY))%f32
            = true)
         [Examples.far_ball; Examples.ball].
Proof.
  apply (Color_radiance_nearest (Examples.scene_of [Examples.far_ball; Examples.ball])
           Examples.ray).
  vm_compute. reflexivity.
Defined.

Lemma div_one_nonneg (t : float) :
  (F32.zero <? t)%f32 = true -> (F32.zero <=? F32.one / t)%f32 = true.
Proof.
  destruct t as [[]|[]| |[] m e]; try discriminate; intros _; [reflexivity|].
  unfold F32.div, F32.one. cbn [SFdiv xorb].
  pose proof (div_core_nonneg 8388608 (-23) m e) as Q.
  destruct (SFdiv_core_binary F32.prec F32.emax (Z.pos 8388608) (-23) (Z.pos m) e)
    as [[mz ez] lz].
  cbn [fst] in Q.
  apply nonneg_leb; [apply binary_round_aux_shape|now apply binary_round_aux_not_nan].
Qed.

(** X25: the grey level of the inverse-distance integrator is never NaN
    and never negative: every component is at least [+0] (it is
    [+infinity] at most). *)
Theorem InverseDistance_radiance_nonneg (scene : Scene.t) (ray : Ray.t) :
  let c := InverseDistanceIntegrator.radiance scene ray in
  (F32.zero <=? vec3.x c)%f32 = true
  /\ (F32.zero <=? vec3.y c)%f32 = true
  /\ (F32.zero <=? vec3.z c)%f32 = true.
Proof.
  cbv zeta. unfold InverseDistanceIntegrator.radiance, Scene.call, vec3.splat.
  cbn [vec3.x vec3.y vec3.z].
  assert (H : (F32.zero
               <=? F32.one / Intersection.dist (Scene.intersect scene ray F32.zero INFINITY))%f32
              = true).
  { rewrite intersect_nearest.
    destruct (nearest_cases scene ray F32.zero INFINITY) as [[_ E] | (_ & I & _)];
      cbv zeta in *.
    - rewrite E. reflexivity.
    - apply div_one_nonneg.
      unfold inside, F32.gtb in I. now apply andb_true_iff in I as [I _]. }
  now rewrite H.
Qed.

(** X26: on a hit the normal integrator answers
    [0.5f * orientedNormal + vec3(0.5f)]: the factor [float(valid)] is
    [1.0f] and multiplying by it changes no bit. *)
Theorem Normal_radiance_hit (scene : Scene.t) (ray : Ray.t) :
  let hit := Scene.intersect scene ray F32.zero INFINITY in
  valid hit = true ->
  NormalIntegrator.radiance scene ray
  = (F32.of_Z 1 (-1) *: facing_normal ray hit + vec3.splat (F32.of_Z 1 (-1)))%vec3.
Proof.
  cbv zeta. intros Hv. unfold NormalIntegrator.radiance. cbv zeta. rewrite Hv.
  cbn [float_of_bool]. unfold vec3.scalar_mul at 1, vec3.add, vec3.splat.
  cbn [vec3.x vec3.y vec3.z].
  change (F32.of_Z 1 (-1)) with (S754_finite false 8388608 (-24)).
  now rewrite !mul_one_l by (now apply add_literal_valid).
Qed.

Lemma Normal_radiance_hit_witness :
  NormalIntegrator.radiance (Examples.scene_of [Examples.ball]) Examples.ray
  = (F32.of_Z 1 (-1)
     *: facing_normal Examples.ray
          (Scene.intersect (Examples.scene_of [Examples.ball]) Examples.ray
             F32.zero INFINITY)
     + vec3.splat (F32.of_Z 1 (-1)))%vec3.
Proof.
  apply (Normal_radiance_hit (Examples.scene_of [Examples.ball]) Examples.ray).
  vm_compute. reflexivity.
Defined.

(** X27: the binary and the inverse-distance integrators answer the same
    for every order of the spheres, bit-exact ties included. *)
Theorem order_independent_integrators (scene scene' : Scene.t) (ray : Ray.t) :
  Permutation (Scene.spheres scene) (Scene.spheres scene') ->
  BinaryIntegrator.radiance scene ray = BinaryIntegrator.radiance scene' ray
  /\ InverseDistanceIntegrator.radiance scene ray
     = InverseDistanceIntegrator.radiance scene' ray.
Proof.
  intros Hp.
  destruct (nearest_perm scene scene' ray F32.zero INFINITY Hp) as [Ed _].
  unfold BinaryIntegrator.radiance, InverseDistanceIntegrator.radiance,
    Scene.call, valid.
  cbv zeta. now rewrite Ed.
Qed.

Lemma order_independent_integrators_witness :
  BinaryIntegrator.radiance (Examples.scene_of [Examples.left_ball; Examples.right_ball])
    Examples.ray
  = BinaryIntegrator.radiance (Examples.scene_of [Examples.right_ball; Examples.left_ball])
      Examples.ray
  /\ InverseDistanceIntegrator.radiance
       (Examples.scene_of [Examples.left_ball; Examples.right_ball]) Examples.ray
     = InverseDistanceIntegrator.radiance
         (Examples.scene_of [Examples.right_ball; Examples.left_ball]) Examples.ray.
Proof.
  apply (order_independent_integrators
           (Examples.scene_of [Examples.left_ball; Examples.right_ball])
           (Examples.scene_of [Examples.right_ball; Examples.left_ball])
           Examples.ray).
  apply perm_swap.
Defined.

(** ** integrator.hpp: the diffuse integrators and shadows *)

Lemma fold_accumulate_shadow {L : Type} (sample : L -> LightSample.t)
  (scene : Scene.t) (albedo normal pos : vec3) (ls : list L) : forall color : vec3,
  fold_left
    (fun color l =>
       DiffuseDirectIlluminationIntegrator.accumulate scene albedo normal pos color
         (sample l))
    ls color
  = ShadingSpec.sum_from color
      (map (fun x => ShadingSpec.lambert albedo normal
                       (ShadingSpec.shadow_visibility scene pos x) x)
         (map sample ls)).
Proof.
  induction ls as [|l ls IH]; intros color; [reflexivity|].
  cbn [fold_left map ShadingSpec.sum_from]. rewrite IH. reflexivity.
Qed.

(** X28: on a valid nearest hit the direct integrator answers black plus
    the ambient term plus, for every point, directional, cone and
    cylinder light in that order, the Lambert term of the sample taken at
    [hitPosition + epsilon * orientedNormal], multiplied by [0.0f] when a
    sphere of the scene is hit by the shadow ray within
    [(0, distanceToLight)] and by [1.0f] otherwise; without a hit it
    answers black. *)
Theorem diffuse_direct_radiance `{MathLib} (scene : Scene.t) (ray : Ray.t) :
  let hit := Scene.intersect scene ray F32.zero INFINITY in
  DiffuseDirectIlluminationIntegrator.radiance scene ray
  = if valid hit then
      ShadingSpec.direct_lighting scene ray hit (ShadingSpec.shadow_origin ray hit)
        (ShadingSpec.shadow_visibility scene (ShadingSpec.shadow_origin ray hit))
    else vec3.splat F32.zero.
Proof.
  cbv zeta. unfold DiffuseDirectIlluminationIntegrator.radiance. cbv zeta.
  set (hit := Scene.intersect scene ray F32.zero INFINITY).
  destruct (valid hit); cbn [negb]; [|reflexivity].
  fold (ShadingSpec.shadow_origin ray hit).
  rewrite !fold_accumulate_shadow.
  unfold ShadingSpec.direct_lighting, ShadingSpec.light_samples, ShadingSpec.ambient_term.
  rewrite !map_app, !sum_from_app. reflexivity.
Qed.

(** X29: the local integrator casts no shadows: adding to the scene any
    sphere that the primary ray does not hit strictly nearer than its
    current hit leaves the local integrator's answer unchanged, wherever
    that sphere lies. *)
Theorem DiffuseLocal_no_shadows `{MathLib} (scene : Scene.t) (s : Sphere.t) (ray : Ray.t) :
  (Intersection.dist (Sphere.intersect s ray F32.zero INFINITY)
   <? Intersection.dist (Scene.intersect scene ray F32.zero INFINITY))%f32 = false ->
  DiffuseLocalDirectIlluminationIntegrator.radiance (add scene s) ray
  = DiffuseLocalDirectIlluminationIntegrator.radiance scene ray.
Proof.
  intros Hfar. unfold DiffuseLocalDirectIlluminationIntegrator.radiance.
  rewrite scene_add_sphere_intersect. unfold SceneSpec.pick. rewrite Hfar.
  reflexivity.
Qed.

Lemma DiffuseLocal_no_shadows_witness :
  @DiffuseLocalDirectIlluminationIntegrator.radiance Examples.libm
    (add Examples.lamp_scene Examples.far_ball) Examples.ray
  = @DiffuseLocalDirectIlluminationIntegrator.radiance Examples.libm
      Examples.lamp_scene Examples.ray.
Proof.
  apply (@DiffuseLocal_no_shadows Examples.libm Examples.lamp_scene Examples.far_ball
           Examples.ray).
  vm_compute. reflexivity.
Defined.

(** ** math.hpp: [smoothstep] at and above the upper edge *)

(** ** Alignment does not change what a sum rounds to *)

Lemma iter_pos_comm {A} (f : A -> A) n : forall x,
  iter_pos f n (f x) = f (iter_pos f n x).
Proof.
  induction n as [n IH|n IH|]; intros x; cbn [iter_pos]; [|now rewrite !IH|reflexivity].
  now rewrite !IH.
Qed.

Lemma iter_pos_succ {A} (f : A -> A) n : forall x,
  iter_pos f (Pos.succ n) x = f (iter_pos f n x).
Proof.
  induction n as [n IH|n IH|]; intros x; cbn [Pos.succ iter_pos].
  - now rewrite !IH, !iter_pos_comm.
  - now rewrite !iter_pos_comm.
  - reflexivity.
Qed.

Lemma shrn_succ r n : 0 <= n -> shrn r (n + 1) = shr_1 (shrn r n).
Proof.
  intros Hn. destruct n as [|p|p]; try lia; [reflexivity|].
  replace (Zpos p + 1) with (Zpos (Pos.succ p)) by lia.
  cbn [shrn]. apply iter_pos_succ.
Qed.

Lemma shrn_shr_1 r n : 0 <= n -> shrn (shr_1 r) n = shr_1 (shrn r n).
Proof.
  intros Hn. destruct n as [|p|p]; try lia; [reflexivity|].
  cbn [shrn]. apply iter_pos_comm.
Qed.

Lemma shr_1_exact_double m : 0 <= m -> shr_1 (exact_record (2 * m)) = exact_record m.
Proof. intros Hm. destruct m as [|p|p]; try lia; reflexivity. Qed.

(** Shifting out the zeros that an alignment appended gives back the
    exact record. *)
Lemma shrn_exact_shift m j : 0 <= m -> 0 <= j -> forall n, 0 <= n ->
  shrn (exact_record (m * 2 ^ j)) (n + j) = shrn (exact_record m) n.
Proof.
  intros Hm Hj. pattern j. apply natlike_ind; [| |exact Hj].
  - intros n Hn. now rewrite Z.mul_1_r, Z.add_0_r.
  - intros k Hk IH n Hn. rewrite Z.pow_succ_r by assumption.
    replace (n + Z.succ k) with ((n + k) + 1) by lia.
    rewrite shrn_succ by lia. rewrite <- shrn_shr_1 by lia.
    replace (m * (2 * 2 ^ k)) with (2 * (m * 2 ^ k)) by lia.
    rewrite shr_1_exact_double by (apply Z.mul_nonneg_nonneg; [lia|apply Z.pow_nonneg; lia]).
    now apply IH.
Qed.

Lemma Zdigits2_eq m d : 0 < m -> 2 ^ (d - 1) <= m < 2 ^ d -> 0 < d -> Zdigits2 m = d.
Proof.
  intros Hm [Hlo Hhi] Hd.
  pose proof (Zdigits2_le_of_lt m d ltac:(lia) ltac:(lia) Hhi).
  pose proof (Zdigits2_ge_of_le m (d - 1) ltac:(lia) Hlo). lia.
Qed.

Lemma Zdigits2_shift p k :
  0 <= k -> Zdigits2 (Zpos p * 2 ^ k) = Zpos (digits2_pos p) + k.
Proof.
  intros Hk. pose proof (digits2_pos_bounds p) as [Lo Hi].
  assert (0 < 2 ^ k) by (apply Z.pow_pos_nonneg; lia).
  apply Zdigits2_eq; try lia.
  replace (Zpos (digits2_pos p) + k - 1) with (Zpos (digits2_pos p) - 1 + k) by lia.
  rewrite !Z.pow_add_r by lia. nia.
Qed.

Lemma binary_round_shift p q e k :
  0 <= k -> Zpos q = Zpos p * 2 ^ k ->
  binary_round F32.prec F32.emax false q (e - k)
  = binary_round F32.prec F32.emax false p e.
Proof.
  intros Hk Hq.
  destruct (binary_round_finish p e) as (mz & ez & c & Hc & Hez & Hmz & Hd & ->).
  destruct (binary_round_finish q (e - k)) as (mz' & ez' & c' & Hc' & Hez' & Hmz' & Hd' & ->).
  pose proof (Zdigits2_shift p k Hk) as Dq. rewrite <- Hq in Dq. cbn [Zdigits2] in Dq.
  assert (Ec : c' = c) by (rewrite Hc, Hc', Dq; f_equal; lia).
  clear Hc'. rewrite Ec in *. clear Ec c'. rewrite fexp_eq in Hc.
  assert (Hj : 0 <= ez - ez') by lia.
  assert (Em : Zpos mz' = Zpos mz * 2 ^ (ez - ez')).
  { rewrite Hmz', Hmz, Hq, <- !Z.mul_assoc, <- !Z.pow_add_r by lia. do 2 f_equal. lia. }
  rewrite Em. replace (c - ez') with ((c - ez) + (ez - ez')) by lia.
  rewrite shrn_exact_shift by lia. reflexivity.
Qed.

Lemma binary_normalize_shift d e k :
  0 <= k ->
  binary_normalize F32.prec F32.emax (d * 2 ^ k) (e - k) false
  = binary_normalize F32.prec F32.emax d e false.
Proof.
  intros Hk. assert (Hp : 0 < 2 ^ k) by (apply Z.pow_pos_nonneg; lia).
  destruct d as [|p|p].
  - reflexivity.
  - destruct (Zpos p * 2 ^ k) as [|q|q] eqn:E; try lia.
    cbn [binary_normalize]. now apply binary_round_shift.
  - destruct (Zneg p * 2 ^ k) as [|q|q] eqn:E; try lia.
    cbn [binary_normalize]. rewrite !binary_round_opp. f_equal.
    apply binary_round_shift; [assumption|lia].
Qed.

(** Rounding a binary32 value gives it back. *)
Lemma binary_normalize_id s m e :
  F32.is_float (S754_finite s m e) ->
  binary_normalize F32.prec F32.emax (cond_Zopp s (Zpos m)) e false = S754_finite s m e.
Proof.
  intros H. pose proof (canonical_bounds _ _ _ H) as (D & E & N).
  unfold F32.is_float in H. cbn [valid_binary] in H. unfold bounded in H.
  apply andb_true_iff in H as [_ Hb].
  assert (R : binary_round F32.prec F32.emax false m e = S754_finite false m e).
  { destruct (binary_round_finish m e) as (mz & ez & c & Hc & Hez & Hmz & Hd & ->).
    rewrite fexp_eq in Hc.
    assert (Ec : c = e) by lia. assert (Ee : ez = e) by lia.
    clear Hc Hez. subst c ez.
    rewrite Z.sub_diag in *. rewrite Z.pow_0_r, Z.mul_1_r in Hmz. rewrite Hmz.
    cbn [shrn]. change (rne (exact_record (Zpos m))) with (Zpos m).
    rewrite finish_out by lia. cbn [Zdigits2].
    rewrite shrn_max. replace (Z.max 0 (Zpos (digits2_pos m) - 24)) with 0 by lia.
    cbn [shrn exact_record shr_m]. rewrite Z.add_0_r. unfold out. now rewrite Hb. }
  destruct s; cbn [cond_Zopp Z.opp binary_normalize].
  - now rewrite binary_round_opp, R.
  - exact R.
Qed.

Lemma cond_Zopp_mul s a b : cond_Zopp s a * b = cond_Zopp s (a * b).
Proof. destruct s; cbn [cond_Zopp]; lia. Qed.

Lemma Zval_shift z k f : 0 <= k -> above z f -> Zval (z - k) f = Zval z f * 2 ^ k.
Proof.
  intros Hk Hz. destruct f as [| | |s m e]; cbn [Zval above] in *; try lia.
  rewrite cond_Zopp_mul, <- Z.mul_assoc, <- Z.pow_add_r by lia.
  do 3 f_equal. lia.
Qed.

Lemma binary_normalize_at d e z :
  z <= e ->
  binary_normalize F32.prec F32.emax (d * 2 ^ (e - z)) z false
  = binary_normalize F32.prec F32.emax d e false.
Proof.
  intros Hz. pose proof (binary_normalize_shift d e (e - z) ltac:(lia)) as H.
  now replace (e - (e - z)) with z in H by lia.
Qed.

(** A difference of two finite values is the rounding of the difference
    of their integers at any exponent below both. *)
Lemma sub_key (z : Z) (f g : float) :
  F32.is_float f -> F32.is_float g ->
  FloatSpec.is_finite f = true -> FloatSpec.is_finite g = true ->
  above z f -> above z g ->
  key (f - g)%f32 = key (binary_normalize F32.prec F32.emax (Zval z f - Zval z g) z false).
Proof.
  intros Vf Vg Ff Fg Af Ag.
  destruct f as [sf|sf| |sf mf ef], g as [sg|sg| |sg mg eg]; try discriminate.
  - destruct sf, sg; reflexivity.
  - unfold F32.sub. cbn [SFsub Zval above] in *.
    replace (0 - cond_Zopp sg (Zpos mg * 2 ^ (eg - z)))
      with (cond_Zopp (negb sg) (Zpos mg) * 2 ^ (eg - z))
      by (destruct sg; cbn [cond_Zopp negb]; lia).
    rewrite binary_normalize_at by lia.
    now rewrite binary_normalize_id.
  - unfold F32.sub. cbn [SFsub Zval above] in *.
    rewrite Z.sub_0_r, <- cond_Zopp_mul.
    rewrite binary_normalize_at by lia.
    now rewrite binary_normalize_id.
  - unfold F32.sub. cbn [SFsub Zval above] in *. rewrite !aligned_fst.
    replace (Z.min ef (Z.min ef eg)) with (Z.min ef eg) by lia.
    replace (Z.min eg (Z.min ef eg)) with (Z.min ef eg) by lia.
    set (zm := Z.min ef eg).
    replace (cond_Zopp sf (Zpos mf * 2 ^ (ef - z)) - cond_Zopp sg (Zpos mg * 2 ^ (eg - z)))
      with ((cond_Zopp sf (Zpos mf * 2 ^ (ef - zm)) - cond_Zopp sg (Zpos mg * 2 ^ (eg - zm)))
            * 2 ^ (zm - z)).
    + rewrite binary_normalize_at by (unfold zm; lia). reflexivity.
    + rewrite Z.mul_sub_distr_r, !cond_Zopp_mul, <- !Z.mul_assoc, <- !Z.pow_add_r
        by (unfold zm; lia).
      do 4 f_equal; unfold zm; lia.
Qed.

Lemma Zval_order (z : Z) (f g : float) :
  F32.is_float f -> F32.is_float g ->
  FloatSpec.is_finite f = true -> FloatSpec.is_finite g = true ->
  above z f -> above z g ->
  (f <=? g)%f32 = true -> Zval z f <= Zval z g.
Proof.
  intros Vf Vg Ff Fg Af Ag Hle.
  destruct f as [sf|sf| |sf mf ef], g as [sg|sg| |sg mg eg]; try discriminate;
    cbn [Zval above] in *.
  - destruct sg; [discriminate|]. cbn [cond_Zopp].
    apply Z.mul_nonneg_nonneg; [lia|apply Z.pow_nonneg; lia].
  - destruct sf; [|discriminate]. cbn [cond_Zopp].
    assert (0 <= Zpos mf * 2 ^ (ef - z))
      by (apply Z.mul_nonneg_nonneg; [lia|apply Z.pow_nonneg; lia]). lia.
  - destruct (finite_order_aligned _ _ _ _ _ _ Vf Vg) as [A _]. cbv zeta in A.
    specialize (A Hle). rewrite !aligned_fst in A.
    replace (Z.min ef (Z.min ef eg)) with (Z.min ef eg) in A by lia.
    replace (Z.min eg (Z.min ef eg)) with (Z.min ef eg) in A by lia.
    set (zm := Z.min ef eg) in *.
    assert (Hk : 0 <= zm - z) by (unfold zm; lia).
    assert (Hp : 0 < 2 ^ (zm - z)) by (apply Z.pow_pos_nonneg; lia).
    replace (cond_Zopp sf (Zpos mf * 2 ^ (ef - z)))
      with (cond_Zopp sf (Zpos mf * 2 ^ (ef - zm)) * 2 ^ (zm - z)).
    replace (cond_Zopp sg (Zpos mg * 2 ^ (eg - z)))
      with (cond_Zopp sg (Zpos mg * 2 ^ (eg - zm)) * 2 ^ (zm - z)).
    + nia.
    + rewrite cond_Zopp_mul, <- Z.mul_assoc, <- Z.pow_add_r by (unfold zm; lia).
      do 3 f_equal. lia.
    + rewrite cond_Zopp_mul, <- Z.mul_assoc, <- Z.pow_add_r by (unfold zm; lia).
      do 3 f_equal. lia.
Qed.

Lemma binary_normalize_not_nan d e :
  FloatSpec.is_nan (binary_normalize F32.prec F32.emax d e false) = false.
Proof. destruct d; cbn [binary_normalize]; [reflexivity| |]; apply binary_round_not_nan. Qed.

Lemma binary_normalize_le d1 d2 e :
  d1 <= d2 ->
  SFleb (binary_normalize F32.prec F32.emax d1 e false)
        (binary_normalize F32.prec F32.emax d2 e false) = true.
Proof.
  intros H. pose proof (binary_normalize_mono d1 d2 e false false H) as M.
  pose proof (binary_normalize_not_nan d1 e) as N1.
  pose proof (binary_normalize_not_nan d2 e) as N2.
  revert M N1 N2.
  generalize (binary_normalize F32.prec F32.emax d1 e false),
    (binary_normalize F32.prec F32.emax d2 e false).
  intros a b M N1 N2. apply not_nan_leb_refl in N1, N2.
  fold (F32.leb a b). fold (F32.ltb b a) in M. f32_order.
Qed.

(** Subtracting the same finite value preserves the order. *)
Lemma sub_mono_l (x y w : float) :
  F32.is_float x -> F32.is_float y -> F32.is_float w ->
  FloatSpec.is_finite x = true -> FloatSpec.is_finite y = true ->
  FloatSpec.is_finite w = true ->
  (x <=? y)%f32 = true -> (x - w <=? y - w)%f32 = true.
Proof.
  intros Vx Vy Vw Fx Fy Fw Hle.
  set (z := Z.min (exponent x) (Z.min (exponent y) (exponent w))).
  assert (Ax : above z x) by (destruct x; cbn [above exponent] in *; unfold z; cbn; lia).
  assert (Ay : above z y) by (destruct y; cbn [above exponent] in *; unfold z; cbn; lia).
  assert (Aw : above z w) by (destruct w; cbn [above exponent] in *; unfold z; cbn; lia).
  pose proof (Zval_order z x y Vx Vy Fx Fy Ax Ay Hle) as O.
  pose proof (binary_normalize_le (Zval z x - Zval z w) (Zval z y - Zval z w) z ltac:(lia)) as L.
  unfold F32.leb in *. rewrite SFleb_key in L |- *.
  now rewrite (sub_key z x w), (sub_key z y w).
Qed.

(** ** A quotient of at least one rounds to at least one *)

Lemma one_leb_out m e :
  0 < m -> (-23 < e \/ (e = -23 /\ 8388608 <= m)) ->
  (F32.one <=? out m e)%f32 = true.
Proof.
  intros Hm H. unfold out. destruct m as [|p|p]; try lia.
  destruct (e <=? F32.emax - F32.prec); [|reflexivity].
  unfold F32.leb, F32.one, SFleb, SFcompare.
  destruct (Z.compare_spec (-23) e); try lia; try reflexivity.
  change (Pos.compare_cont Eq 8388608 p) with (8388608 ?= p)%positive.
  destruct (Pos.compare_spec 8388608 p); try reflexivity. lia.
Qed.

Lemma round_ge_one q e l :
  0 < q -> 1 <= Zdigits2 q + e ->
  (F32.one <=? binary_round_aux F32.prec F32.emax false q e l)%f32 = true.
Proof.
  intros Hq Hd. rewrite binary_round_aux_finish.
  unfold shr_fexp. rewrite shr_shrn, fexp_eq. cbn [fst snd].
  rewrite shrn_max.
  set (n := Z.max 0 (Z.max (Zdigits2 q + e - 24) (-149) - e)).
  assert (Hn : 0 <= n) by (unfold n; lia).
  set (r := shrn (shr_record_of_loc q l) n).
  assert (Dr : Zdigits2 (shr_m r) = Z.max 0 (Zdigits2 q - n)).
  { unfold r. rewrite Zdigits2_shrn by (rewrite ?shr_m_record_of_loc; lia).
    now rewrite shr_m_record_of_loc. }
  assert (Pr : 0 <= shr_m r).
  { unfold r. apply (shrn_mono n (shr_record_of_loc q l) (shr_record_of_loc q l));
      [rewrite shr_m_record_of_loc; lia|lia]. }
  pose proof (rne_bounds r) as B.
  pose proof (Zdigits2_mono (shr_m r) (rne r) ltac:(lia)) as M.
  set (m := rne r) in *.
  rewrite finish_out by (unfold n; lia).
  rewrite shrn_max.
  set (n2 := Z.max 0 (Zdigits2 m - 24)).
  assert (Hn2 : 0 <= n2) by (unfold n2; lia).
  pose proof (Zdigits2_shrn n2 (exact_record m) ltac:(cbn; lia) Hn2) as D2.
  cbn [exact_record shr_m] in D2. fold (exact_record m) in D2.
  destruct (shrn_mono n2 (exact_record m) (exact_record m) ltac:(cbn; lia) (Z.le_refl _))
    as [P2 _].
  set (m2 := shr_m (shrn (exact_record m) n2)) in *.
  assert (Dq : 1 <= Zdigits2 q) by (pose proof (proj1 (Zdigits2_pos_iff q ltac:(lia)) Hq); lia).
  assert (Hm2 : 0 < m2) by (apply (Zdigits2_pos_iff m2 P2); unfold n, n2 in *; lia).
  apply one_leb_out; [assumption|].
  destruct (Z_lt_le_dec (Zdigits2 q) 24) as [Hs|Hs].
  - left. unfold n, n2 in *. lia.
  - assert (D24 : Zdigits2 m2 = 24).
    { assert (24 <= Zdigits2 m) by (unfold n in *; lia). unfold n2 in *. lia. }
    pose proof (Zdigits2_ge m2 Hm2) as G. rewrite D24 in G.
    change (2 ^ (24 - 1)) with 8388608 in G.
    unfold n, n2 in *. lia.
Qed.

Lemma Zdigits2_pos p : Zdigits2 (Zpos p) = Zpos (digits2_pos p).
Proof. reflexivity. Qed.

Lemma div_core_ge_one ma ea mb eb :
  F32.is_float (S754_finite false ma ea) -> F32.is_float (S754_finite false mb eb) ->
  (S754_finite false mb eb <=? S754_finite false ma ea)%f32 = true ->
  let '(q, e', l) := SFdiv_core_binary F32.prec F32.emax (Zpos ma) ea (Zpos mb) eb in
  0 < q /\ 1 <= Zdigits2 q + e'.
Proof.
  intros Va Vb Hle.
  pose proof (canonical_bounds _ _ _ Va) as (Da & Ea & Na).
  pose proof (canonical_bounds _ _ _ Vb) as (Db & Eb & Nb).
  pose proof (digits2_pos_bounds ma) as [La Ua].
  pose proof (digits2_pos_bounds mb) as [Lb Ub].
  set (d1 := Zpos (digits2_pos ma)) in *. set (d2 := Zpos (digits2_pos mb)) in *.
  assert (Hd2 : 1 <= d2) by (unfold d2; lia).
  assert (Hd1 : 1 <= d1) by (unfold d1; lia).
  (* the order of the operands, on exponents and mantissas *)
  assert (Ho : eb < ea \/ (eb = ea /\ Zpos mb <= Zpos ma)).
  { unfold F32.leb in Hle. rewrite SFleb_key in Hle. cbn [key] in Hle.
    unfold key_leb in Hle. lia. }
  destruct (aligned_order false mb eb false ma ea Vb Va) as [Al _]. cbv zeta in Al.
  specialize (Al Ho).
  assert (Emin : Z.min eb ea = eb) by lia. rewrite Emin, Z.sub_diag, Z.mul_1_r in Al.
  assert (HE : 0 <= d1 + ea - d2 - eb).
  { destruct Ho as [Ho | [Ho Hm]].
    - specialize (Na ltac:(lia)). fold d1 in Na. lia.
    - pose proof (Zdigits2_mono (Zpos mb) (Zpos ma) ltac:(lia)) as M.
      rewrite !Zdigits2_pos in M. fold d1 d2 in M. lia. }
  unfold SFdiv_core_binary. rewrite !Zdigits2_pos. fold d1 d2. rewrite fexp_eq.
  set (E := d1 + ea - (d2 + eb)).
  assert (HE' : 0 <= E) by (unfold E; lia).
  replace (Z.min (Z.max (E - 24) (-149)) (ea - eb)) with (E - 24) by (unfold E; lia).
  set (s := ea - eb - (E - 24)).
  assert (Hs : s = 24 - d1 + d2) by (unfold s, E; lia).
  assert (Hs1 : 1 <= s) by lia.
  destruct s as [|sp|sp] eqn:Es; try lia. rewrite <- Es in *.
  rewrite Z.shiftl_mul_pow2 by lia.
  assert (P2s : 0 < 2 ^ s) by (apply Z.pow_pos_nonneg; lia).
  pose proof (Z_div_mod (Zpos ma * 2 ^ s) (Zpos mb) ltac:(lia)) as DM.
  destruct (Z.div_eucl (Zpos ma * 2 ^ s) (Zpos mb)) as [q r].
  destruct DM as [DM Hr].
  (* mb < ma * 2^s, so the quotient is positive *)
  assert (Hq1 : 1 <= q).
  { assert (2 ^ (d1 - 1) * 2 ^ s <= Zpos ma * 2 ^ s) by nia.
    rewrite <- Z.pow_add_r in H by lia.
    replace (d1 - 1 + s) with (23 + d2) in H by lia.
    assert (2 ^ d2 <= 2 ^ (23 + d2)) by (apply Z.pow_le_mono_r; lia).
    nia. }
  split; [lia|].
  destruct (Z_lt_le_dec E 24) as [Hlt|Hge].
  - (* the quotient has at least [25 - E] digits *)
    assert (Hk : 0 <= 24 - E) by lia.
    assert (Hb : Zpos mb * 2 ^ (24 - E) <= Zpos ma * 2 ^ s).
    { replace s with ((ea - eb) + (24 - E)) by (unfold E in *; lia).
      rewrite Z.pow_add_r by lia.
      assert (0 < 2 ^ (24 - E)) by (apply Z.pow_pos_nonneg; lia). nia. }
    assert (Hq : 2 ^ (24 - E) <= q).
    { assert (0 < 2 ^ (24 - E)) by (apply Z.pow_pos_nonneg; lia).
      destruct (Z_lt_le_dec q (2 ^ (24 - E))) as [C|C]; [exfalso|assumption].
      assert (q + 1 <= 2 ^ (24 - E)) by lia. nia. }
    pose proof (Zdigits2_ge_of_le q (24 - E) Hk Hq). lia.
  - pose proof (proj1 (Zdigits2_pos_iff q ltac:(lia)) ltac:(lia)). lia.
Qed.

Lemma div_ge_one (a b : float) :
  F32.is_float a -> F32.is_float b ->
  (F32.zero <? b)%f32 = true -> FloatSpec.is_finite b = true ->
  (b <=? a)%f32 = true ->
  (F32.one <=? a / b)%f32 = true.
Proof.
  intros Va Vb Hb Fb Hle.
  destruct b as [sb|sb| |sb mb eb]; try discriminate.
  destruct sb; [discriminate|].
  destruct a as [sa|sa| |sa ma ea]; try discriminate.
  - destruct sa; [discriminate|reflexivity].
  - destruct sa; [discriminate|].
    unfold F32.div. cbn [SFdiv xorb].
    pose proof (div_core_ge_one ma ea mb eb Va Vb Hle) as C.
    destruct (SFdiv_core_binary F32.prec F32.emax (Zpos ma) ea (Zpos mb) eb) as [[q e'] l].
    destruct C as [Hq Hd]. now apply round_ge_one.
Qed.

Lemma smoothstepCubic_clamp_ge_one (q : float) :
  (F32.one <=? q)%f32 = true ->
  smoothstepCubic (clamp q F32.zero F32.one) = F32.one.
Proof.
  intros H. unfold clamp, min.
  destruct (q <=? F32.one)%f32 eqn:E; [|reflexivity].
  assert (Eq : q = F32.one).
  { apply same_eq, eqb_same.
    - destruct q as [[]|[]| |[] ? ?]; try discriminate; reflexivity.
    - reflexivity.
    - now apply leb_antisym. }
  rewrite Eq. reflexivity.
Qed.

Lemma sub_valid (x y : float) :
  F32.is_float x -> F32.is_float y -> F32.is_float (x - y)%f32.
Proof.
  destruct x as [[]|[]| |sx mx ex], y as [[]|[]| |sy my ey]; intros Hx Hy;
    try reflexivity; try assumption.
  apply binary_normalize_valid.
Qed.

(** X30: with [edge0 < edge1] and a finite [edge1 - edge0], [smoothstep] is
    exactly [1.0f] at and above [edge1], [+infinity] included: the rounded
    quotient [(x - edge0) / (edge1 - edge0)] never falls below one. *)
Theorem smoothstep_above_edge1 (edge0 edge1 x : float) :
  F32.is_float edge0 -> F32.is_float edge1 -> F32.is_float x ->
  FloatSpec.is_finite (edge1 - edge0)%f32 = true ->
  (edge0 <? edge1)%f32 = true ->
  (edge1 <=? x)%f32 = true ->
  smoothstep edge0 edge1 x = F32.one.
Proof.
  intros H0 H1 Hx Fin Hlt Hle. unfold smoothstep. cbv zeta.
  assert (F0 : FloatSpec.is_finite edge0 = true)
    by (destruct edge0 as [[]|[]| |[] ? ?], edge1 as [[]|[]| |[] ? ?];
        try discriminate; reflexivity).
  assert (F1 : FloatSpec.is_finite edge1 = true)
    by (destruct edge0 as [[]|[]| |[] ? ?], edge1 as [[]|[]| |[] ? ?];
        try discriminate; reflexivity).
  pose proof (sub_gtb_zero _ _ H0 H1 Hlt) as Pb.
  apply smoothstepCubic_clamp_ge_one.
  destruct (FloatSpec.is_finite x) eqn:Fx.
  - apply div_ge_one; try assumption; try (now apply sub_valid).
    now apply sub_mono_l.
  - assert (Ex : x = INFINITY).
    { destruct x as [[]|[]| |[] ? ?]; try discriminate; try reflexivity;
        destruct edge1 as [[]|[]| |[] ? ?]; discriminate. }
    subst x. revert Pb Fin. generalize (edge1 - edge0)%f32. intros b Pb Fin.
    destruct edge0 as [[]|[]| |[] ? ?]; try discriminate;
      destruct b as [[]|[]| |[] ? ?]; try discriminate; reflexivity.
Qed.

Lemma smoothstep_above_edge1_witness :
  smoothstep (F32.of_Z 1 (-1)) F32.one (F32.of_Z 2 0) = F32.one.
Proof.
  apply (smoothstep_above_edge1 (F32.of_Z 1 (-1)) F32.one (F32.of_Z 2 0));
    reflexivity.
Defined.

(** * Accuracy of the rounded arithmetic *)

Import Accuracy.

(** ** Rounding to a normal number, in integers *)

Lemma shr_1_half r : 0 <= shr_m r -> shr_m (shr_1 r) = shr_m r / 2.
Proof.
  destruct r as [[|[p|p|]|p] ? ?]; cbn [shr_1 shr_m]; intros H; try lia;
    Z.div_mod_to_equations; lia.
Qed.

Lemma iter_shr_1_div n : forall r,
  0 <= shr_m r ->
  0 <= shr_m (iter_pos shr_1 n r)
  /\ shr_m (iter_pos shr_1 n r) = shr_m r / 2 ^ Zpos n.
Proof.
  induction n as [n IH|n IH|]; intros r Hr; cbn [iter_pos].
  - pose proof (shr_1_nonneg r Hr) as H1. pose proof (shr_1_half r Hr) as D1.
    destruct (IH _ H1) as [H2 D2]. destruct (IH _ H2) as [H3 D3].
    split; [assumption|]. rewrite D3, D2, D1.
    replace (Zpos n~1) with (1 + Zpos n + Zpos n) by lia.
    rewrite !Z.pow_add_r by lia. rewrite !Z.div_div by lia.
    f_equal. change (2 ^ 1) with 2. ring.
  - destruct (IH _ Hr) as [H2 D2]. destruct (IH _ H2) as [H3 D3].
    split; [assumption|]. rewrite D3, D2.
    replace (Zpos n~0) with (Zpos n + Zpos n) by lia.
    rewrite !Z.pow_add_r by lia. rewrite !Z.div_div by lia. reflexivity.
  - split; [now apply shr_1_nonneg|]. now rewrite shr_1_half.
Qed.

Lemma shrn_div r n :
  0 <= shr_m r -> 0 <= n -> shr_m (shrn r n) = shr_m r / 2 ^ n.
Proof.
  intros Hr Hn. destruct n as [|n|n]; try lia.
  - cbn. now rewrite Z.div_1_r.
  - now apply iter_shr_1_div.
Qed.

(** A mantissa of at least 24 digits whose value lies in the normal range
    rounds to a normal number: the mantissa [a] cut to 24 digits, or its
    successor. *)
Lemma round_aux_normal mx ex l :
  0 < mx -> 24 <= Zdigits2 mx ->
  -149 <= Zdigits2 mx + ex - 24 -> Zdigits2 mx + ex <= 127 ->
  exists m e a j,
    binary_round_aux F32.prec F32.emax false mx ex l = S754_finite false m e
    /\ 2 ^ 23 <= Zpos m < 2 ^ 24 /\ -149 <= e <= 104
    /\ 2 ^ 23 <= a
    /\ a * 2 ^ (Zdigits2 mx - 24) <= mx < (a + 1) * 2 ^ (Zdigits2 mx - 24)
    /\ 0 <= j <= 1 /\ e = ex + (Zdigits2 mx - 24) + j
    /\ a <= Zpos m * 2 ^ j <= a + 1.
Proof.
  intros Hm HD Hlo Hhi. rewrite binary_round_aux_finish.
  unfold shr_fexp. rewrite shr_shrn, fexp_eq. cbn [fst snd].
  set (D := Zdigits2 mx) in *.
  replace (Z.max (D + ex - 24) (-149) - ex) with (D - 24) by lia.
  set (n := D - 24) in *. replace (Z.max 0 n) with n by lia.
  set (rec := shrn (shr_record_of_loc mx l) n).
  pose proof (shrn_div (shr_record_of_loc mx l) n
                ltac:(rewrite shr_m_record_of_loc; lia) ltac:(lia)) as Ha.
  rewrite shr_m_record_of_loc in Ha. fold rec in Ha.
  pose proof (rne_bounds rec) as B. set (m1 := rne rec) in *.
  set (a := shr_m rec) in *.
  assert (P2n : 0 < 2 ^ n) by (apply Z.pow_pos_nonneg; lia).
  pose proof (Zdigits2_lt mx ltac:(lia)) as U. pose proof (Zdigits2_ge mx Hm) as L.
  fold D in U, L.
  assert (E1 : 2 ^ D = 2 ^ 24 * 2 ^ n)
    by (rewrite <- Z.pow_add_r by lia; f_equal; lia).
  assert (E2 : 2 ^ (D - 1) = 2 ^ 23 * 2 ^ n)
    by (rewrite <- Z.pow_add_r by lia; f_equal; lia).
  assert (Hdiv : a * 2 ^ n <= mx < (a + 1) * 2 ^ n).
  { rewrite Ha. pose proof (Z.div_mod mx (2 ^ n) ltac:(lia)).
    pose proof (Z.mod_pos_bound mx (2 ^ n) P2n). nia. }
  assert (Ha23 : 2 ^ 23 <= a < 2 ^ 24) by nia.
  rewrite finish_out by lia.
  destruct (Z.eq_dec m1 (2 ^ 24)) as [Em|Em].
  - rewrite Em. change (Zdigits2 (2 ^ 24)) with 25.
    exists 8388608%positive, (ex + n + 1), a, 1.
    change (shr_m (shrn (exact_record (2 ^ 24)) (25 - 24))) with 8388608.
    change (Z.max 0 (25 - 24)) with 1. unfold out.
    destruct (Z.leb_spec (ex + n + 1) (F32.emax - F32.prec)) as [_|C];
      [|unfold F32.emax, F32.prec in C; lia].
    change (2 ^ 1) with 2. change (2 ^ 23) with 8388608 in *.
    change (2 ^ 24) with 16777216 in *.
    repeat split; try lia.
  - assert (Hd : Zdigits2 m1 = 24).
    { apply Zdigits2_eq; [|change (24 - 1) with 23|]; lia. }
    rewrite Hd. change (24 - 24) with 0. change (Z.max 0 0) with 0.
    change (shrn (exact_record m1) 0) with (exact_record m1).
    cbn [exact_record shr_m]. rewrite Z.add_0_r.
    destruct m1 as [|p|p]; try lia.
    exists p, (ex + n), a, 0. unfold out.
    destruct (Z.leb_spec (ex + n) (F32.emax - F32.prec)) as [_|C];
      [|unfold F32.emax, F32.prec in C; lia].
    change (2 ^ 0) with 1.
    repeat split; try lia.
Qed.

(** ** Powers of two as real numbers *)

Lemma pow2_pos e : (0 < pow2 e)%R.
Proof. apply powerRZ_lt. lra. Qed.

Lemma pow2_add a b : pow2 (a + b) = (pow2 a * pow2 b)%R.
Proof. apply powerRZ_add. lra. Qed.

Lemma pow2_1 : pow2 1 = 2%R.
Proof. unfold pow2. simpl. lra. Qed.

Lemma pow2_succ a : pow2 (a + 1) = (2 * pow2 a)%R.
Proof. rewrite pow2_add, pow2_1. lra. Qed.

Lemma pow2_IZR k : 0 <= k -> IZR (2 ^ k) = pow2 k.
Proof.
  intros Hk. pattern k. apply natlike_ind; [reflexivity| |assumption].
  intros x Hx IH. rewrite Z.pow_succ_r by assumption.
  rewrite mult_IZR, IH. unfold Z.succ. rewrite pow2_succ. reflexivity.
Qed.

Lemma pow2_le a b : a <= b -> (pow2 a <= pow2 b)%R.
Proof.
  intros H. replace b with (a + (b - a)) by lia. rewrite pow2_add.
  rewrite <- (pow2_IZR (b - a)) by lia.
  assert (1 <= 2 ^ (b - a))
    by (pose proof (Z.pow_pos_nonneg 2 (b - a) ltac:(lia) ltac:(lia)); lia).
  apply IZR_le in H0. pose proof (pow2_pos a). nra.
Qed.

Lemma pow2_lt a b : a < b -> (pow2 a < pow2 b)%R.
Proof.
  intros H. replace b with (a + (b - a)) by lia. rewrite pow2_add.
  rewrite <- (pow2_IZR (b - a)) by lia.
  assert (2 <= 2 ^ (b - a)).
  { change 2 with (2 ^ 1) at 1. apply Z.pow_le_mono_r; lia. }
  apply IZR_le in H0. pose proof (pow2_pos a). nra.
Qed.

Lemma pow2_lt_inv a b : (pow2 a < pow2 b)%R -> a < b.
Proof.
  intros H. destruct (Z_lt_le_dec a b) as [|C]; [assumption|exfalso].
  apply pow2_le in C. lra.
Qed.

Lemma pow2_le_inv a b : (pow2 a <= pow2 b)%R -> a <= b.
Proof.
  intros H. destruct (Z_le_gt_dec a b) as [|C]; [assumption|exfalso].
  apply Z.gt_lt, pow2_lt in C. lra.
Qed.

(** The position of a positive integer mantissa among the powers of two. *)
Lemma digits_value m e :
  0 < m ->
  (pow2 (Zdigits2 m + e - 1) <= IZR m * pow2 e < pow2 (Zdigits2 m + e))%R.
Proof.
  intros Hm. pose proof (Zdigits2_lt m ltac:(lia)) as U.
  pose proof (Zdigits2_ge m Hm) as L.
  pose proof (proj1 (Zdigits2_pos_iff m ltac:(lia)) Hm) as D.
  apply IZR_lt in U. apply IZR_le in L.
  rewrite pow2_IZR in U, L by lia.
  replace (Zdigits2 m + e - 1) with ((Zdigits2 m - 1) + e) by lia.
  rewrite !pow2_add. pose proof (pow2_pos e). nra.
Qed.

Lemma digits_above m e lo :
  0 < m -> (pow2 lo <= IZR m * pow2 e)%R -> lo + 1 <= Zdigits2 m + e.
Proof.
  intros Hm H. pose proof (digits_value m e Hm) as [_ U].
  assert (lo < Zdigits2 m + e) by (apply pow2_lt_inv; lra). lia.
Qed.

Lemma digits_below m e hi :
  0 < m -> (IZR m * pow2 e <= pow2 hi)%R -> Zdigits2 m + e <= hi + 1.
Proof.
  intros Hm H. pose proof (digits_value m e Hm) as [L _].
  assert (Zdigits2 m + e - 1 <= hi) by (apply pow2_le_inv; lra). lia.
Qed.

(** ** Closeness *)

Lemma step_gt_1 : (1 < step)%R.
Proof. unfold step. lra. Qed.

Lemma step_pow_ge_1 k : (1 <= step ^ k)%R.
Proof. apply pow_R1_Rle. pose proof step_gt_1. lra. Qed.

Lemma step_pow_add j k : (step ^ (j + k) = step ^ j * step ^ k)%R.
Proof. apply pow_add. Qed.

Lemma step_pow_le j k : (j <= k)%nat -> (step ^ j <= step ^ k)%R.
Proof. apply Rle_pow. pose proof step_gt_1. lra. Qed.

Lemma close_refl x : (0 < x)%R -> close 0 x x.
Proof. intros H. unfold close. cbn. repeat split; lra. Qed.

Lemma close_sym k x y : close k x y -> close k y x.
Proof. unfold close. tauto. Qed.

Lemma close_weaken j k x y : (j <= k)%nat -> close j x y -> close k x y.
Proof.
  intros H (Hx & Hy & A & B). pose proof (step_pow_le j k H).
  unfold close. repeat split; try assumption; nra.
Qed.

Lemma close_trans j k x y z : close j x y -> close k y z -> close (j + k) x z.
Proof.
  intros (Hx & Hy & A & B) (_ & Hz & C & D).
  pose proof (step_pow_ge_1 j). pose proof (step_pow_ge_1 k).
  unfold close. rewrite step_pow_add. repeat split; try assumption.
  - apply Rle_trans with (1 := A). nra.
  - apply Rle_trans with (1 := D).
    replace (x * (step ^ j * step ^ k))%R with ((x * step ^ j) * step ^ k)%R by ring.
    nra.
Qed.

Lemma close_mul j k x y x' y' :
  close j x y -> close k x' y' -> close (j + k) (x * x') (y * y').
Proof.
  intros (Hx & Hy & A & B) (Hx' & Hy' & A' & B').
  pose proof (step_pow_ge_1 j). pose proof (step_pow_ge_1 k).
  unfold close. rewrite step_pow_add. repeat split.
  - now apply Rmult_lt_0_compat.
  - now apply Rmult_lt_0_compat.
  - replace (y * y' * (step ^ j * step ^ k))%R
      with ((y * step ^ j) * (y' * step ^ k))%R by ring.
    apply Rmult_le_compat; lra.
  - replace (x * x' * (step ^ j * step ^ k))%R
      with ((x * step ^ j) * (x' * step ^ k))%R by ring.
    apply Rmult_le_compat; lra.
Qed.

Lemma close_add k x y x' y' :
  close k x y -> close k x' y' -> close k (x + x') (y + y').
Proof.
  intros (Hx & Hy & A & B) (Hx' & Hy' & A' & B').
  unfold close. repeat split; lra.
Qed.

Lemma close_inv k x y : close k x y -> close k (/ x) (/ y).
Proof.
  intros (Hx & Hy & A & B).
  pose proof (Rinv_0_lt_compat x Hx) as Ix. pose proof (Rinv_0_lt_compat y Hy) as Iy.
  pose proof (step_pow_ge_1 k) as S.
  unfold close. repeat split; try assumption.
  - (* / x <= / y * s  <-  y <= x * s *)
    apply Rmult_le_reg_l with (r := (x * y)%R); [now apply Rmult_lt_0_compat|].
    replace (x * y * / x)%R with y by (field; lra).
    replace (x * y * (/ y * step ^ k))%R with (x * step ^ k)%R by (field; lra).
    assumption.
  - apply Rmult_le_reg_l with (r := (x * y)%R); [now apply Rmult_lt_0_compat|].
    replace (x * y * / y)%R with x by (field; lra).
    replace (x * y * (/ x * step ^ k))%R with (y * step ^ k)%R by (field; lra).
    assumption.
Qed.

Lemma close_sqrt k x y : close k x y -> close k (sqrt x) (sqrt y).
Proof.
  intros (Hx & Hy & A & B).
  pose proof (step_pow_ge_1 k) as S.
  assert (Sx : (0 < sqrt x)%R) by now apply sqrt_lt_R0.
  assert (Sy : (0 < sqrt y)%R) by now apply sqrt_lt_R0.
  assert (Hs : (sqrt (step ^ k) <= step ^ k)%R).
  { rewrite <- (sqrt_square (step ^ k)) at 2 by lra.
    apply sqrt_le_1_alt. nra. }
  assert (Ps : (0 <= sqrt (step ^ k))%R) by apply sqrt_pos.
  unfold close. repeat split; try assumption.
  - apply Rle_trans with (sqrt (y * step ^ k)); [now apply sqrt_le_1_alt|].
    rewrite sqrt_mult by lra. nra.
  - apply Rle_trans with (sqrt (x * step ^ k)); [now apply sqrt_le_1_alt|].
    rewrite sqrt_mult by lra. nra.
Qed.

(** Up to 64 steps stay within a factor of two. *)
Lemma step_pow_le_2 k : (k <= 64)%nat -> (step ^ k <= 2)%R.
Proof.
  intros H. apply Rle_trans with (step ^ 64)%R; [now apply step_pow_le|].
  unfold step. lra.
Qed.

(** ** One rounding step, in real numbers *)

Lemma normal_pos s f x : normal s f x -> (0 < x)%R.
Proof.
  intros (m & e & _ & _ & _ & ->).
  apply Rmult_lt_0_compat; [now apply IZR_lt|apply pow2_pos].
Qed.

Lemma normal_low s f x : normal s f x -> (pow2 (-126) <= x)%R.
Proof.
  intros (m & e & _ & Hm & He & ->).
  replace (-126) with (23 + -149) by lia. rewrite pow2_add, <- (pow2_IZR 23) by lia.
  assert (H1 : (IZR (2 ^ 23) <= IZR (Zpos m))%R) by (apply IZR_le; lia).
  assert (H2 : (pow2 (-149) <= pow2 e)%R) by (apply pow2_le; lia).
  pose proof (pow2_pos (-149)). pose proof (pow2_pos e).
  assert (H5 : (0 < IZR (2 ^ 23))%R) by (apply IZR_lt; lia).
  apply Rmult_le_compat; lra.
Qed.

Lemma normal_opp s f x : normal s f x -> normal (negb s) (SFopp f) x.
Proof.
  intros (m & e & -> & Hm & He & ->). exists m, e. cbn. auto.
Qed.

(** A value [v] between [mx * 2^ex] and [(mx + 1) * 2^ex], known through a
    mantissa [mx] of at least 24 digits, rounds to a normal number within
    one step of [v]. *)
Lemma round_aux_close s mx ex l v :
  0 < mx -> 24 <= Zdigits2 mx ->
  (IZR mx * pow2 ex <= v <= IZR (mx + 1) * pow2 ex)%R ->
  (pow2 (-125) <= v <= pow2 125)%R ->
  exists y,
    normal s (binary_round_aux F32.prec F32.emax s mx ex l) y /\ close 1 v y.
Proof.
  intros Hm HD [Hv1 Hv2] [Hr1 Hr2].
  assert (P : forall y,
             normal false (binary_round_aux F32.prec F32.emax false mx ex l) y ->
             normal s (binary_round_aux F32.prec F32.emax s mx ex l) y).
  { intros y Hy. destruct s; [|assumption].
    rewrite (binary_round_aux_opp false). now apply (normal_opp false). }
  pose proof (digits_value mx ex Hm) as [DL DU].
  pose proof (pow2_pos ex) as Pe.
  assert (Hm' : (1 <= IZR mx)%R) by (apply IZR_le; lia).
  assert (Hlo : -149 <= Zdigits2 mx + ex - 24).
  { assert (-125 < Zdigits2 mx + ex + 1); [|lia].
    apply pow2_lt_inv. rewrite pow2_succ. rewrite plus_IZR in Hv2. nra. }
  assert (Hhi : Zdigits2 mx + ex <= 127).
  { pose proof (digits_below mx ex 125 Hm ltac:(lra)). lia. }
  destruct (round_aux_normal mx ex l Hm HD Hlo Hhi)
    as (m & e & a & j & E & Hm23 & He & Ha & Hdiv & Hj & Ee & Hy).
  set (n := Zdigits2 mx - 24) in *.
  assert (Hn : 0 <= n) by (unfold n; lia). clearbody n.
  exists (IZR (Zpos m) * pow2 e)%R. split.
  { apply P. rewrite E. exists m, e. auto. }
  set (U := pow2 (ex + n)).
  assert (PU : (0 < U)%R) by apply pow2_pos.
  assert (EU : U = (IZR (2 ^ n) * pow2 ex)%R).
  { unfold U. rewrite pow2_add, pow2_IZR by lia. ring. }
  assert (Y : (IZR (Zpos m) * pow2 e = IZR (Zpos m * 2 ^ j) * U)%R).
  { rewrite Ee, mult_IZR, pow2_add, pow2_IZR by lia. unfold U. ring. }
  clearbody U.
  assert (A1 : (IZR a * U <= IZR mx * pow2 ex)%R).
  { rewrite EU. destruct Hdiv as [Hd _]. apply IZR_le in Hd.
    rewrite mult_IZR in Hd. nra. }
  assert (A2 : (IZR (mx + 1) * pow2 ex <= (IZR a + 1) * U)%R).
  { rewrite EU. destruct Hdiv as [_ Hd].
    assert (Hd' : mx + 1 <= (a + 1) * 2 ^ n) by lia.
    apply IZR_le in Hd'. rewrite mult_IZR, !plus_IZR in Hd'.
    rewrite plus_IZR. nra. }
  assert (Y1 : (IZR a * U <= IZR (Zpos m) * pow2 e <= (IZR a + 1) * U)%R).
  { rewrite Y. destruct Hy as [Hy1 Hy2]. apply IZR_le in Hy1, Hy2.
    rewrite plus_IZR in Hy2. nra. }
  assert (Ha' : (8388608 <= IZR a)%R).
  { apply IZR_le in Ha. exact Ha. }
  unfold close. rewrite pow_1. unfold step.
  repeat split; nra.
Qed.

(** ** The operations on normal numbers *)

Lemma mul_close sa sb a b x y :
  normal sa a x -> normal sb b y ->
  (pow2 (-125) <= x * y <= pow2 125)%R ->
  exists z, normal (xorb sa sb) (a * b)%f32 z /\ close 1 (x * y) z.
Proof.
  intros (ma & ea & -> & Hma & Hea & ->) (mb & eb & -> & Hmb & Heb & ->) Hr.
  unfold F32.mul. cbn [SFmul].
  assert (V : (IZR (Zpos ma) * pow2 ea * (IZR (Zpos mb) * pow2 eb)
               = IZR (Zpos (ma * mb)) * pow2 (ea + eb))%R).
  { rewrite Pos2Z.inj_mul, mult_IZR, pow2_add. ring. }
  rewrite V in *.
  apply round_aux_close; try lia; try assumption.
  - apply (Zdigits2_ge_of_le _ 23); [lia|].
    rewrite Pos2Z.inj_mul. change (2 ^ 23) with 8388608 in *. nia.
  - rewrite plus_IZR. pose proof (pow2_pos (ea + eb)). nra.
Qed.

Lemma normalize_close M e :
  0 < M ->
  (pow2 (-125) <= IZR M * pow2 e <= pow2 125)%R ->
  exists y,
    normal false (binary_normalize F32.prec F32.emax M e false) y
    /\ close 1 (IZR M * pow2 e) y.
Proof.
  intros HM [Hr1 Hr2]. destruct M as [|p|p]; try lia.
  cbn [binary_normalize]. unfold binary_round.
  pose proof (shl_align_spec p e (fexp F32.prec F32.emax (Zpos (digits2_pos p) + e))) as H.
  destruct (shl_align p e _) as [mz ez]. destruct H as (Hez & Hmz & Hd).
  rewrite fexp_eq in Hez.
  pose proof (digits_above (Zpos p) e (-125) ltac:(lia) Hr1) as DA.
  cbn [Zdigits2] in DA.
  assert (V : (IZR (Zpos p) * pow2 e = IZR (Zpos mz) * pow2 ez)%R).
  { rewrite Hmz, mult_IZR, pow2_IZR by lia.
    replace e with ((e - ez) + ez) at 1 by lia. rewrite pow2_add. ring. }
  rewrite V in *.
  apply round_aux_close; try lia.
  - cbn [Zdigits2]. lia.
  - rewrite plus_IZR. pose proof (pow2_pos ez). nra.
  - split; assumption.
Qed.

Lemma add_close a b x y :
  normal false a x -> normal false b y ->
  (x + y <= pow2 125)%R ->
  exists z, normal false (a + b)%f32 z /\ close 1 (x + y) z.
Proof.
  intros (ma & ea & -> & Hma & Hea & ->) (mb & eb & -> & Hmb & Heb & ->) Hr.
  unfold F32.add. cbn [SFadd cond_Zopp]. rewrite !aligned_fst.
  set (ez := Z.min ea eb).
  replace (Z.min ea ez) with ez by (unfold ez; lia).
  replace (Z.min eb ez) with ez by (unfold ez; lia).
  set (M := Zpos ma * 2 ^ (ea - ez) + Zpos mb * 2 ^ (eb - ez)).
  assert (Pa : 0 < 2 ^ (ea - ez)) by (apply Z.pow_pos_nonneg; unfold ez; lia).
  assert (Pb : 0 < 2 ^ (eb - ez)) by (apply Z.pow_pos_nonneg; unfold ez; lia).
  assert (V : (IZR (Zpos ma) * pow2 ea + IZR (Zpos mb) * pow2 eb
               = IZR M * pow2 ez)%R).
  { unfold M. rewrite plus_IZR, !mult_IZR, !pow2_IZR by (unfold ez; lia).
    replace ea with ((ea - ez) + ez) at 1 by lia.
    replace eb with ((eb - ez) + ez) at 1 by lia.
    rewrite !pow2_add. ring. }
  rewrite V in *.
  apply normalize_close; [unfold M; nia|].
  split; [|assumption]. rewrite <- V.
  pose proof (normal_low false _ _ (ex_intro _ ma (ex_intro _ ea
                (conj eq_refl (conj Hma (conj Hea eq_refl)))))) as H1.
  pose proof (normal_low false _ _ (ex_intro _ mb (ex_intro _ eb
                (conj eq_refl (conj Hmb (conj Heb eq_refl)))))) as H2.
  replace (-125) with (-126 + 1) by lia. rewrite pow2_succ. lra.
Qed.

Lemma div_close sa sb a b x y :
  normal sa a x -> normal sb b y ->
  (pow2 (-125) <= x / y <= pow2 125)%R ->
  exists z, normal (xorb sa sb) (a / b)%f32 z /\ close 1 (x / y) z.
Proof.
  intros (ma & ea & -> & Hma & Hea & ->) (mb & eb & -> & Hmb & Heb & ->) Hr.
  unfold F32.div. cbn [SFdiv].
  change (2 ^ 23) with 8388608 in *. change (2 ^ 24) with 16777216 in *.
  assert (Da : Zdigits2 (Zpos ma) = 24)
    by (apply Zdigits2_eq; [lia|change (2 ^ (24 - 1)) with 8388608;
                            change (2 ^ 24) with 16777216; lia|lia]).
  assert (Db : Zdigits2 (Zpos mb) = 24)
    by (apply Zdigits2_eq; [lia|change (2 ^ (24 - 1)) with 8388608;
                            change (2 ^ 24) with 16777216; lia|lia]).
  set (E := ea - eb) in *.
  pose proof (pow2_pos ea) as Pa. pose proof (pow2_pos eb) as Pb.
  pose proof (pow2_pos E) as PE.
  assert (IA : (8388608 <= IZR (Zpos ma) < 16777216)%R)
    by (split; [apply IZR_le|apply IZR_lt]; lia).
  assert (IB : (8388608 <= IZR (Zpos mb) < 16777216)%R)
    by (split; [apply IZR_le|apply IZR_lt]; lia).
  (* the exact quotient *)
  assert (V : (IZR (Zpos ma) * pow2 ea / (IZR (Zpos mb) * pow2 eb)
               = IZR (Zpos ma) / IZR (Zpos mb) * pow2 E)%R).
  { replace ea with (E + eb) at 1 by (unfold E; lia). rewrite pow2_add.
    field. lra. }
  rewrite V in *.
  assert (Q1 : (IZR (Zpos ma) / IZR (Zpos mb) < 2)%R).
  { apply Rmult_lt_reg_r with (IZR (Zpos mb)); [lra|].
    unfold Rdiv. rewrite Rmult_assoc, Rinv_l by lra. lra. }
  assert (HE : -125 <= E).
  { assert (-125 < E + 1); [|lia]. apply pow2_lt_inv. rewrite pow2_succ. nra. }
  unfold SFdiv_core_binary. rewrite Da, Db, fexp_eq.
  replace (24 + ea - (24 + eb)) with E by (unfold E; lia).
  fold E.
  replace (Z.min (Z.max (E - 24) (-149)) E) with (E - 24) by lia.
  replace (E - (E - 24)) with 24 by lia.
  rewrite Z.shiftl_mul_pow2 by lia. change (2 ^ 24) with 16777216.
  pose proof (Z_div_mod (Zpos ma * 16777216) (Zpos mb) ltac:(lia)) as DM.
  destruct (Z.div_eucl (Zpos ma * 16777216) (Zpos mb)) as [q r].
  destruct DM as [DM Hrem].
  assert (Hq : 8388608 <= q) by nia.
  assert (V2 : (IZR (Zpos ma) / IZR (Zpos mb) * pow2 E
                = IZR (Zpos ma * 16777216) / IZR (Zpos mb) * pow2 (E - 24))%R).
  { replace E with (24 + (E - 24)) at 1 by lia.
    rewrite pow2_add, <- (pow2_IZR 24), mult_IZR by lia.
    change (2 ^ 24) with 16777216. field. lra. }
  rewrite V2 in *.
  assert (B : (IZR q <= IZR (Zpos ma * 16777216) / IZR (Zpos mb) <= IZR (q + 1))%R).
  { assert (H1 : Zpos mb * q <= Zpos ma * 16777216) by lia.
    assert (H2 : Zpos ma * 16777216 <= Zpos mb * (q + 1)) by lia.
    apply IZR_le in H1, H2. rewrite (mult_IZR (Zpos mb)) in H1, H2.
    set (T := IZR (Zpos ma * 16777216)) in *. clearbody T.
    clear - H1 H2 IB. split.
    - apply Rmult_le_reg_r with (IZR (Zpos mb)); [lra|].
      unfold Rdiv. rewrite Rmult_assoc, Rinv_l by lra. lra.
    - apply Rmult_le_reg_r with (IZR (Zpos mb)); [lra|].
      unfold Rdiv. rewrite Rmult_assoc, Rinv_l by lra. rewrite plus_IZR in *. lra. }
  pose proof (pow2_pos (E - 24)) as PE'.
  apply round_aux_close; try lia.
  - apply (Zdigits2_ge_of_le _ 23); [lia|]. change (2 ^ 23) with 8388608. lia.
  - destruct B as [B1 B2]. split.
    + apply Rmult_le_compat_r; lra.
    + apply Rmult_le_compat_r; lra.
  - assumption.
Qed.

Lemma sqrt_close a x :
  normal false a x ->
  exists z, normal false (F32.sqrt a) z /\ close 1 (sqrt x) z.
Proof.
  intros (m & e & -> & Hm & He & ->).
  unfold F32.sqrt. cbn [SFsqrt].
  change (2 ^ 23) with 8388608 in *. change (2 ^ 24) with 16777216 in *.
  assert (Dm : Zdigits2 (Zpos m) = 24)
    by (apply Zdigits2_eq; [lia|change (2 ^ (24 - 1)) with 8388608;
                            change (2 ^ 24) with 16777216; lia|lia]).
  unfold SFsqrt_core_binary. rewrite Dm, fexp_eq, !Z.div2_div.
  set (h := (e + 1) / 2).
  assert (Hh : 2 * h <= e + 1 <= 2 * h + 1).
  { unfold h. pose proof (Z.div_mod (e + 1) 2 ltac:(lia)).
    pose proof (Z.mod_pos_bound (e + 1) 2 ltac:(lia)). lia. }
  assert (E1 : (24 + e + 1) / 2 = h + 12).
  { unfold h. replace (24 + e + 1) with ((e + 1) + 12 * 2) by lia.
    now rewrite Z.div_add by lia. }
  assert (E2 : h - 1 <= e / 2 <= h).
  { pose proof (Z.div_mod e 2 ltac:(lia)).
    pose proof (Z.mod_pos_bound e 2 ltac:(lia)). lia. }
  rewrite E1.
  replace (Z.min (Z.max (h + 12 - 24) (-149)) (e / 2)) with (h - 12) by lia.
  set (s := e - 2 * (h - 12)).
  assert (Hs : 23 <= s <= 24) by (unfold s; lia).
  destruct s as [|sp|sp] eqn:Es; try lia. rewrite <- Es in *.
  rewrite Z.shiftl_mul_pow2 by lia.
  assert (P23 : 8388608 <= 2 ^ s <= 16777216).
  { destruct (Z.eq_dec s 23) as [->| ]; [cbn; lia|].
    replace s with 24 by lia. cbn. lia. }
  set (M := Zpos m * 2 ^ s) in *.
  assert (HM : 8388608 * 8388608 <= M < 16777216 * 16777216) by (unfold M; nia).
  pose proof (Z.sqrtrem_spec M ltac:(lia)) as SP.
  destruct (Z.sqrtrem M) as [q r]. destruct SP as [SP Hr].
  assert (Hq : 8388608 <= q < 16777216) by nia.
  set (l := if r =? 0 then loc_Exact else loc_Inexact (if r <=? q then Lt else Gt)).
  clearbody l.
  (* the exact root *)
  assert (V : (IZR (Zpos m) * pow2 e = IZR M * (pow2 (h - 12) * pow2 (h - 12)))%R).
  { unfold M. rewrite mult_IZR, pow2_IZR by lia. rewrite <- !pow2_add.
    rewrite Rmult_assoc, <- pow2_add. do 2 f_equal. unfold s in Es. lia. }
  pose proof (pow2_pos (h - 12)) as Ph.
  assert (PM : (0 < IZR M)%R) by (apply IZR_lt; lia).
  assert (V' : sqrt (IZR (Zpos m) * pow2 e) = (sqrt (IZR M) * pow2 (h - 12))%R).
  { rewrite V, sqrt_mult by nra. rewrite sqrt_square by lra. reflexivity. }
  rewrite V'.
  assert (B : (IZR q <= sqrt (IZR M) <= IZR (q + 1))%R).
  { assert (H1 : q * q <= M) by lia.
    assert (H2 : M <= (q + 1) * (q + 1)) by lia.
    apply IZR_le in H1, H2. rewrite mult_IZR in H1, H2.
    assert (Pq : (0 <= IZR q)%R) by (apply IZR_le; lia).
    assert (Pq1 : (0 <= IZR (q + 1))%R) by (apply IZR_le; lia).
    split.
    - rewrite <- (sqrt_square (IZR q)) by assumption. now apply sqrt_le_1_alt.
    - rewrite <- (sqrt_square (IZR (q + 1))) by assumption. now apply sqrt_le_1_alt. }
  apply round_aux_close; try lia.
  - apply (Zdigits2_ge_of_le _ 23); [lia|]. change (2 ^ 23) with 8388608. lia.
  - destruct B as [B1 B2]. split; apply Rmult_le_compat_r; lra.
  - (* the root of a normal number is far from the ends of the range *)
    destruct B as [B1 B2].
    assert (Q1 : (8388608 <= IZR q)%R) by (apply IZR_le; lia).
    assert (Q2 : (IZR (q + 1) <= 16777216)%R) by (apply IZR_le; lia).
    assert (L1 : (pow2 (-87) <= pow2 (h - 12))%R) by (apply pow2_le; lia).
    assert (L2 : (pow2 (h - 12) <= pow2 41)%R) by (apply pow2_le; lia).
    assert (C1 : (pow2 (-125) <= pow2 (-87))%R) by (apply pow2_le; lia).
    assert (C2 : (16777216 * pow2 41 <= pow2 125)%R).
    { replace 16777216%R with (IZR (2 ^ 24)) by (cbn; lra).
      rewrite pow2_IZR, <- pow2_add by lia. apply pow2_le. lia. }
    pose proof (pow2_pos (-87)). pose proof (pow2_pos 41).
    split.
    + apply Rle_trans with (1 * pow2 (-87))%R; [lra|].
      apply Rmult_le_compat; lra.
    + apply Rle_trans with (16777216 * pow2 41)%R; [|assumption].
      apply Rmult_le_compat; lra.
Qed.

(** ** Ranges *)

Lemma between_pos lo hi t : between lo hi t -> (0 < t)%R.
Proof. intros [H _]. pose proof (pow2_pos lo). lra. Qed.

Lemma between_weaken lo hi lo' hi' t :
  lo' <= lo -> hi <= hi' -> between lo hi t -> between lo' hi' t.
Proof.
  intros Hl Hh [H1 H2]. apply pow2_le in Hl, Hh. unfold between. lra.
Qed.

Lemma between_mul lo hi lo' hi' t t' :
  between lo hi t -> between lo' hi' t' -> between (lo + lo') (hi + hi') (t * t').
Proof.
  intros [H1 H2] [H1' H2']. unfold between. rewrite !pow2_add.
  pose proof (pow2_pos lo). pose proof (pow2_pos lo').
  split; apply Rmult_le_compat; lra.
Qed.

Lemma pow2_opp e : pow2 (- e) = (/ pow2 e)%R.
Proof.
  pose proof (pow2_pos e) as P.
  apply Rmult_eq_reg_l with (pow2 e); [|lra].
  rewrite <- pow2_add, Rinv_r by lra. replace (e + - e) with 0 by lia. reflexivity.
Qed.

Lemma between_inv lo hi t : between lo hi t -> between (- hi) (- lo) (/ t).
Proof.
  intros [H1 H2]. unfold between. rewrite !pow2_opp.
  pose proof (pow2_pos lo). pose proof (pow2_pos hi).
  split; apply Rinv_le_contravar; lra.
Qed.

Lemma sqrt_pow2_even e : sqrt (pow2 (2 * e)) = pow2 e.
Proof.
  replace (2 * e) with (e + e) by lia. rewrite pow2_add.
  apply sqrt_square. pose proof (pow2_pos e). lra.
Qed.

Lemma between_sqrt lo hi t :
  between (2 * lo) (2 * hi) t -> between lo hi (sqrt t).
Proof.
  intros [H1 H2]. unfold between. rewrite <- (sqrt_pow2_even lo), <- (sqrt_pow2_even hi).
  split; now apply sqrt_le_1_alt.
Qed.

Lemma close_between k lo hi t y :
  (k <= 64)%nat -> close k t y -> between lo hi t -> between (lo - 1) (hi + 1) y.
Proof.
  intros Hk (Ht & Hy & A & B) [H1 H2]. pose proof (step_pow_le_2 k Hk) as S.
  pose proof (step_pow_ge_1 k) as S1.
  unfold between. rewrite pow2_succ.
  replace lo with ((lo - 1) + 1) in H1 by lia. rewrite pow2_succ in H1.
  pose proof (pow2_pos (lo - 1)). pose proof (pow2_pos hi).
  split; nra.
Qed.

(** ** Quantities through the operations *)

Lemma normal_one : normal false F32.one 1.
Proof.
  exists 8388608%positive, (-23). repeat split; try lia.
  change (-23) with (- (23)). rewrite pow2_opp, <- (pow2_IZR 23) by lia.
  change (2 ^ 23) with 8388608. field.
Qed.

Lemma approx_weaken s j k f t : (j <= k)%nat -> approx s j f t -> approx s k f t.
Proof.
  intros H [Z|(y & N & C)]; [now left|right].
  exists y. split; [assumption|]. now apply close_weaken with j.
Qed.

Lemma approx_exact s f x : normal s f x -> approx s 0 f x.
Proof.
  intros N. right. exists x. split; [assumption|].
  apply close_refl. now apply normal_pos with s f.
Qed.

Lemma mul_approx s1 s2 k1 k2 f1 f2 t1 t2 lo1 hi1 lo2 hi2 :
  approx s1 k1 f1 t1 -> approx s2 k2 f2 t2 -> (k1 + k2 <= 64)%nat ->
  (t1 = 0%R \/ between lo1 hi1 t1) -> (t2 = 0%R \/ between lo2 hi2 t2) ->
  -124 <= lo1 + lo2 -> hi1 + hi2 <= 124 ->
  approx (xorb s1 s2) (k1 + k2 + 1) (f1 * f2)%f32 (t1 * t2).
Proof.
  intros [[-> ->]|(y1 & N1 & C1)] [[-> ->]|(y2 & N2 & C2)] Hk B1 B2 Hlo Hhi.
  - left. split; [ring|reflexivity].
  - left. split; [ring|].
    destruct N2 as (m & e & -> & _). reflexivity.
  - left. split; [ring|].
    destruct N1 as (m & e & -> & _). reflexivity.
  - right.
    assert (T1 : between lo1 hi1 t1) by (destruct B1; [destruct C1; lra|assumption]).
    assert (T2 : between lo2 hi2 t2) by (destruct B2; [destruct C2; lra|assumption]).
    pose proof (close_mul _ _ _ _ _ _ C1 C2) as C.
    pose proof (close_between _ _ _ _ _ Hk C (between_mul _ _ _ _ _ _ T1 T2)) as B.
    apply (between_weaken _ _ (-125) 125) in B; try lia.
    destruct (mul_close _ _ _ _ _ _ N1 N2 B) as (z & Nz & Cz).
    exists z. split; [assumption|]. now apply close_trans with (y1 * y2)%R.
Qed.

Lemma add_approx k f1 f2 t1 t2 hi :
  approx false k f1 t1 -> approx false k f2 t2 -> (k <= 64)%nat ->
  (t1 + t2 <= pow2 hi)%R -> hi <= 124 ->
  approx false (k + 1) (f1 + f2)%f32 (t1 + t2).
Proof.
  intros [[-> ->]|(y1 & N1 & C1)] [[-> ->]|(y2 & N2 & C2)] Hk B Hhi.
  - left. split; [ring|reflexivity].
  - right. exists y2. rewrite Rplus_0_l. split.
    + destruct N2 as (m & e & -> & H). exists m, e. split; [reflexivity|assumption].
    + apply close_weaken with k; [lia|assumption].
  - right. exists y1. rewrite Rplus_0_r. split.
    + destruct N1 as (m & e & -> & H). exists m, e. split; [reflexivity|assumption].
    + apply close_weaken with k; [lia|assumption].
  - right. pose proof (close_add _ _ _ _ _ C1 C2) as C.
    assert (Hy : (y1 + y2 <= pow2 125)%R).
    { destruct C as (_ & _ & _ & C). pose proof (step_pow_le_2 k Hk) as S.
      assert (pow2 hi <= pow2 124)%R by (apply pow2_le; lia).
      change 125 with (124 + 1). rewrite pow2_succ.
      destruct C1 as (P1 & _). destruct C2 as (P2 & _).
      pose proof (pow2_pos hi). clear - C S H B P1 P2. nra. }
    destruct (add_close _ _ _ _ N1 N2 Hy) as (z & Nz & Cz).
    exists z. split; [assumption|]. now apply close_trans with (y1 + y2)%R.
Qed.

Lemma sqrt_approx k f t y :
  normal false f y -> close k t y ->
  exists z, normal false (F32.sqrt f) z /\ close (k + 1) (sqrt t) z.
Proof.
  intros N C. destruct (sqrt_close _ _ N) as (z & Nz & Cz).
  exists z. split; [assumption|].
  apply close_trans with (sqrt y); [now apply close_sqrt|assumption].
Qed.

Lemma inv_approx k f t y lo hi :
  normal false f y -> close k t y -> (k <= 64)%nat ->
  between lo hi t -> -124 <= lo -> hi <= 124 ->
  exists z, normal false (F32.one / f)%f32 z /\ close (k + 1) (/ t) z.
Proof.
  intros N C Hk B Hlo Hhi.
  pose proof (close_between _ _ _ _ _ Hk C B) as By.
  apply between_inv in By.
  apply (between_weaken _ _ (-125) 125) in By; try lia.
  assert (R1 : (1 / y = / y)%R) by (unfold Rdiv; ring).
  destruct (div_close false false _ _ _ _ normal_one N) as (z & Nz & Cz).
  { rewrite R1. exact By. }
  exists z. split; [assumption|]. rewrite R1 in Cz.
  apply close_trans with (/ y)%R; [now apply close_inv|assumption].
Qed.

(** ** Order of normal numbers *)

Lemma normal_leb f g x y :
  normal false f x -> normal false g y -> (x <= y)%R -> (f <=? g)%f32 = true.
Proof.
  intros (m1 & e1 & -> & Hm1 & He1 & ->) (m2 & e2 & -> & Hm2 & He2 & ->) H.
  unfold F32.leb. rewrite SFleb_key. cbn [key]. unfold key_leb.
  change (2 ^ 23) with 8388608 in *. change (2 ^ 24) with 16777216 in *.
  assert (C : e1 < e2 \/ (e1 = e2 /\ Zpos m1 <= Zpos m2)).
  { destruct (Z.compare_spec e1 e2) as [E|E|E]; [right|left; assumption|exfalso].
    - split; [assumption|]. subst e2. apply le_IZR.
      pose proof (pow2_pos e1) as P. clear - H P. nra.
    - assert (H1 : (pow2 (e2 + 1) <= pow2 e1)%R) by (apply pow2_le; lia).
      rewrite pow2_succ in H1.
      assert (I1 : (8388608 <= IZR (Zpos m1))%R) by (apply IZR_le; lia).
      assert (I2 : (IZR (Zpos m2) < 16777216)%R) by (apply IZR_lt; lia).
      pose proof (pow2_pos e2) as P2. pose proof (pow2_pos e1) as P1.
      clear - H H1 I1 I2 P1 P2. nra. }
  destruct C as [C|[C1 C2]].
  - apply Z.ltb_lt in C. rewrite C. reflexivity.
  - subst e2. apply Z.leb_le in C2. rewrite !Z.eqb_refl, !Z.ltb_irrefl, C2. reflexivity.
Qed.

(** ** Moderate components *)

Lemma moderate_cases x :
  FloatSpec.moderate x = true ->
  exists s X, approx s 0 x X /\ (X = 0%R \/ between (-30) 30 X)
              /\ (X = 0%R <-> FloatSpec.is_zero x = true).
Proof.
  destruct x as [s| | |s m e]; try discriminate; intros H.
  - exists s, 0%R. split; [left; auto|]. split; [now left|]. cbn. tauto.
  - cbn [FloatSpec.moderate SFabs] in H.
    apply andb_true_iff in H as [H Hhi]. apply andb_true_iff in H as [Hv Hlo].
    change (F32.of_Z 1 (-30)) with (S754_finite false 8388608 (-53)) in Hlo.
    change (F32.of_Z 1 30) with (S754_finite false 8388608 7) in Hhi.
    unfold F32.leb in Hlo. unfold F32.ltb in Hhi.
    rewrite SFleb_key in Hlo. rewrite SFltb_key in Hhi.
    cbn [key] in Hlo, Hhi. unfold key_leb in Hlo. unfold key_ltb in Hhi.
    assert (Vs : F32.is_float (S754_finite s m e)).
    { unfold F32.is_float. cbn [valid_binary] in *. exact Hv. }
    pose proof (canonical_bounds _ _ _ Vs) as (D & E & N).
    pose proof (digits2_pos_bounds m) as [L U].
    assert (He7 : -53 <= e <= 7) by lia.
    specialize (N ltac:(lia)). rewrite N in L, U.
    change (2 ^ (24 - 1)) with (2 ^ 23) in L.
    assert (He : -53 <= e <= 6) by (change (2 ^ 23) with 8388608 in L; lia).
    exists s, (IZR (Zpos m) * pow2 e)%R.
    assert (Nm : normal s (S754_finite s m e) (IZR (Zpos m) * pow2 e)).
    { exists m, e. repeat split; try lia. }
    split; [now apply approx_exact|].
    assert (B : between (-30) 30 (IZR (Zpos m) * pow2 e)).
    { unfold between.
      assert (I1 : (IZR (2 ^ 23) <= IZR (Zpos m))%R) by (apply IZR_le; lia).
      assert (I2 : (IZR (Zpos m) <= IZR (2 ^ 24))%R) by (apply IZR_le; lia).
      rewrite !pow2_IZR in * by lia.
      assert (E1 : (pow2 (-53) <= pow2 e)%R) by (apply pow2_le; lia).
      assert (E2 : (pow2 e <= pow2 6)%R) by (apply pow2_le; lia).
      replace (-30) with (23 + -53) by lia. replace 30 with (24 + 6) by lia.
      rewrite !pow2_add.
      pose proof (pow2_pos 23). pose proof (pow2_pos (-53)). pose proof (pow2_pos e).
      split; apply Rmult_le_compat; lra. }
    split; [now right|]. split; [|discriminate].
    intros Z. pose proof (between_pos _ _ _ B). lra.
Qed.

(** ** Normalising a vector *)

Lemma approx_normal s k f t :
  approx s k f t -> (0 < t)%R -> exists y, normal s f y /\ close k t y.
Proof. intros [[-> _]|H] P; [lra|exact H]. Qed.

Lemma range_sq lo hi X :
  (X = 0%R \/ between lo hi X) ->
  ((X * X)%R = 0%R \/ between (lo + lo) (hi + hi) (X * X)).
Proof.
  intros [->|B]; [left; ring|right]. now apply between_mul.
Qed.

Lemma range_upper lo hi X : (X = 0%R \/ between lo hi X) -> (0 <= X <= pow2 hi)%R.
Proof.
  intros [->|[B1 B2]]; pose proof (pow2_pos hi); pose proof (pow2_pos lo); lra.
Qed.

Lemma range_lower lo hi X :
  (X = 0%R \/ between lo hi X) -> X <> 0%R -> (pow2 lo <= X)%R.
Proof. intros [->|[B1 B2]] H; [contradiction|assumption]. Qed.

Section Normalize.
Variables (x1 x2 x3 : float) (s1 s2 s3 : bool) (X1 X2 X3 : R).
Hypothesis A1 : approx s1 0 x1 X1.
Hypothesis A2 : approx s2 0 x2 X2.
Hypothesis A3 : approx s3 0 x3 X3.
Hypothesis B1 : X1 = 0%R \/ between (-30) 30 X1.
Hypothesis B2 : X2 = 0%R \/ between (-30) 30 X2.
Hypothesis B3 : X3 = 0%R \/ between (-30) 30 X3.
Hypothesis NZ : ~ (X1 = 0%R /\ X2 = 0%R /\ X3 = 0%R).

Let S : R := (X1 * X1 + X2 * X2 + X3 * X3)%R.
Let u : R := (/ sqrt S)%R.
Let d : vec3 := vec3.make x1 x2 x3.

Lemma sum_squares_range : between (-60) 62 S.
Proof.
  pose proof (range_sq _ _ _ B1) as Q1. pose proof (range_sq _ _ _ B2) as Q2.
  pose proof (range_sq _ _ _ B3) as Q3.
  pose proof (range_upper _ _ _ Q1) as U1. pose proof (range_upper _ _ _ Q2) as U2.
  pose proof (range_upper _ _ _ Q3) as U3.
  change (30 + 30) with 60 in *. change (-30 + -30) with (-60) in *.
  assert (L : (pow2 (-60) <= X1 * X1 \/ pow2 (-60) <= X2 * X2
               \/ pow2 (-60) <= X3 * X3)%R).
  { destruct (Req_dec X1 0) as [Z1|Z1];
      [|left; apply (range_lower _ _ _ Q1); clear - Z1; nra].
    destruct (Req_dec X2 0) as [Z2|Z2];
      [|right; left; apply (range_lower _ _ _ Q2); clear - Z2; nra].
    destruct (Req_dec X3 0) as [Z3|Z3];
      [|right; right; apply (range_lower _ _ _ Q3); clear - Z3; nra].
    exfalso. apply NZ. auto. }
  unfold between, S. change 62 with (60 + 1 + 1). rewrite !pow2_succ.
  pose proof (pow2_pos 60) as P. clear - U1 U2 U3 L P.
  split; [destruct L as [L|[L|L]]; lra|lra].
Qed.

Lemma inv_length_range : between (-31) 30 u.
Proof.
  pose proof sum_squares_range as B.
  change (-31) with (- (31)). change 30 with (- (-30)).
  apply between_inv, between_sqrt. exact B.
Qed.

Lemma unit_sum :
  (X1 * u * (X1 * u) + X2 * u * (X2 * u) + X3 * u * (X3 * u) = 1)%R.
Proof.
  pose proof (between_pos _ _ _ sum_squares_range) as PS.
  assert (Hs : (sqrt S * sqrt S = S)%R) by (apply sqrt_sqrt; lra).
  assert (Ps : (0 < sqrt S)%R) by now apply sqrt_lt_R0.
  assert (Hu : (u * u * S = 1)%R).
  { unfold u. rewrite <- Hs at 3. field. lra. }
  rewrite <- Hu. unfold S. ring.
Qed.

(** The squared length, as the source accumulates it. *)
Lemma lengthSquared_approx : approx false 3 (vec3.lengthSquared d) S.
Proof.
  pose proof (mul_approx _ _ _ _ _ _ _ _ _ _ _ _ A1 A1 ltac:(lia) B1 B1
                ltac:(lia) ltac:(lia)) as P1.
  pose proof (mul_approx _ _ _ _ _ _ _ _ _ _ _ _ A2 A2 ltac:(lia) B2 B2
                ltac:(lia) ltac:(lia)) as P2.
  pose proof (mul_approx _ _ _ _ _ _ _ _ _ _ _ _ A3 A3 ltac:(lia) B3 B3
                ltac:(lia) ltac:(lia)) as P3.
  rewrite xorb_nilpotent in P1, P2, P3. cbn [Nat.add] in P1, P2, P3.
  pose proof (range_upper _ _ _ (range_sq _ _ _ B1)) as U1.
  pose proof (range_upper _ _ _ (range_sq _ _ _ B2)) as U2.
  pose proof (range_upper _ _ _ (range_sq _ _ _ B3)) as U3.
  change (30 + 30) with 60 in *.
  assert (P12 : approx false 2 (x1 * x1 + x2 * x2)%f32 (X1 * X1 + X2 * X2)).
  { apply (add_approx 1 _ _ _ _ 61); try assumption; try lia.
    change 61 with (60 + 1). rewrite pow2_succ. clear - U1 U2. lra. }
  unfold vec3.lengthSquared, vec3.dot, d, S. cbn [vec3.x vec3.y vec3.z].
  apply (add_approx 2 _ _ _ _ 62); try assumption; try lia.
  - apply approx_weaken with 1%nat; [lia|assumption].
  - change 62 with (60 + 1 + 1). rewrite !pow2_succ.
    pose proof (pow2_pos 60). clear - U1 U2 U3 H. lra.
Qed.

(** The reciprocal of the length. *)
Lemma inv_length_approx : approx false 5 (F32.one / length d)%f32 u.
Proof.
  pose proof sum_squares_range as BS.
  destruct (approx_normal _ _ _ _ lengthSquared_approx (between_pos _ _ _ BS))
    as (y & Ny & Cy).
  destruct (sqrt_approx _ _ _ _ Ny Cy) as (z & Nz & Cz).
  assert (Bl : between (-30) 31 (sqrt S)) by (apply between_sqrt; exact BS).
  destruct (inv_approx _ _ _ _ _ _ Nz Cz ltac:(lia) Bl ltac:(lia) ltac:(lia))
    as (w & Nw & Cw).
  right. exists w. split; assumption.
Qed.

(** The components of the normalised vector. *)
Lemma component_approx (x : float) (s : bool) (X : R) :
  approx s 0 x X -> (X = 0%R \/ between (-30) 30 X) ->
  approx s 6 (x * (F32.one / length d))%f32 (X * u)
  /\ ((X * u)%R = 0%R \/ between (-61) 60 (X * u)).
Proof.
  intros A B. split.
  - pose proof (mul_approx _ _ _ _ _ _ _ _ _ _ _ _ A inv_length_approx
                  ltac:(lia) B (or_intror inv_length_range)
                  ltac:(lia) ltac:(lia)) as P.
    rewrite xorb_false_r in P. exact P.
  - destruct B as [->|B]; [left; ring|right].
    apply (between_mul _ _ _ _ _ _ B inv_length_range).
Qed.

Let n : vec3 := vec3.normalize d.

Lemma normalize_components :
  n = vec3.make (x1 * (F32.one / length d))%f32 (x2 * (F32.one / length d))%f32
                (x3 * (F32.one / length d))%f32.
Proof. reflexivity. Qed.

(** The length of the normalised vector is within 16 roundings of one. *)
Lemma normalize_length : exists z, normal false (length n) z /\ close 16 1 z.
Proof.
  destruct (component_approx _ _ _ A1 B1) as [C1 R1].
  destruct (component_approx _ _ _ A2 B2) as [C2 R2].
  destruct (component_approx _ _ _ A3 B3) as [C3 R3].
  pose proof (mul_approx _ _ _ _ _ _ _ _ _ _ _ _ C1 C1 ltac:(lia) R1 R1
                ltac:(lia) ltac:(lia)) as P1.
  pose proof (mul_approx _ _ _ _ _ _ _ _ _ _ _ _ C2 C2 ltac:(lia) R2 R2
                ltac:(lia) ltac:(lia)) as P2.
  pose proof (mul_approx _ _ _ _ _ _ _ _ _ _ _ _ C3 C3 ltac:(lia) R3 R3
                ltac:(lia) ltac:(lia)) as P3.
  rewrite xorb_nilpotent in P1, P2, P3. cbn [Nat.add] in P1, P2, P3.
  pose proof (range_upper _ _ _ (range_sq _ _ _ R1)) as U1.
  pose proof (range_upper _ _ _ (range_sq _ _ _ R2)) as U2.
  pose proof (range_upper _ _ _ (range_sq _ _ _ R3)) as U3.
  change (60 + 60) with 120 in *.
  set (t1 := (X1 * u)%R) in *. set (t2 := (X2 * u)%R) in *.
  set (t3 := (X3 * u)%R) in *.
  set (k := (F32.one / length d)%f32) in *.
  assert (P12 : approx false 14 (x1 * k * (x1 * k) + x2 * k * (x2 * k))%f32
                  (t1 * t1 + t2 * t2)).
  { apply (add_approx 13 _ _ _ _ 121); try assumption; try lia.
    change 121 with (120 + 1). rewrite pow2_succ. clear - U1 U2. lra. }
  assert (P : approx false 15 (vec3.lengthSquared n)
                (t1 * t1 + t2 * t2 + t3 * t3)).
  { rewrite normalize_components.
    unfold vec3.lengthSquared, vec3.dot. cbn [vec3.x vec3.y vec3.z]. fold k.
    apply (add_approx 14 _ _ _ _ 122); try assumption; try lia.
    - apply approx_weaken with 13%nat; [lia|assumption].
    - change 122 with (120 + 1 + 1). rewrite !pow2_succ.
      pose proof (pow2_pos 120). clear - U1 U2 U3 H. lra. }
  unfold t1, t2, t3 in P. rewrite unit_sum in P.
  destruct (approx_normal _ _ _ _ P ltac:(lra)) as (y & Ny & Cy).
  destruct (sqrt_approx _ _ _ _ Ny Cy) as (z & Nz & Cz).
  rewrite sqrt_1 in Cz. exists z. split; assumption.
Qed.

(** The normalised vector has a positive component along the vector. *)
Lemma normalize_toward : exists z, normal false (dot d n) z.
Proof.
  destruct (component_approx _ _ _ A1 B1) as [C1 R1].
  destruct (component_approx _ _ _ A2 B2) as [C2 R2].
  destruct (component_approx _ _ _ A3 B3) as [C3 R3].
  pose proof (mul_approx _ _ _ _ _ _ _ _ _ _ _ _ A1 C1 ltac:(lia) B1 R1
                ltac:(lia) ltac:(lia)) as P1.
  pose proof (mul_approx _ _ _ _ _ _ _ _ _ _ _ _ A2 C2 ltac:(lia) B2 R2
                ltac:(lia) ltac:(lia)) as P2.
  pose proof (mul_approx _ _ _ _ _ _ _ _ _ _ _ _ A3 C3 ltac:(lia) B3 R3
                ltac:(lia) ltac:(lia)) as P3.
  rewrite xorb_nilpotent in P1, P2, P3. cbn [Nat.add] in P1, P2, P3.
  pose proof (range_upper _ _ _ B1) as V1. pose proof (range_upper _ _ _ B2) as V2.
  pose proof (range_upper _ _ _ B3) as V3.
  pose proof (range_upper _ _ _ R1) as W1. pose proof (range_upper _ _ _ R2) as W2.
  pose proof (range_upper _ _ _ R3) as W3.
  set (t1 := (X1 * u)%R) in *. set (t2 := (X2 * u)%R) in *.
  set (t3 := (X3 * u)%R) in *.
  set (k := (F32.one / length d)%f32) in *.
  assert (E9 : pow2 90 = (pow2 30 * pow2 60)%R) by (rewrite <- pow2_add; reflexivity).
  pose proof (pow2_pos 30) as Q30. pose proof (pow2_pos 60) as Q60.
  assert (U1 : (0 <= X1 * t1 <= pow2 90)%R)
    by (rewrite E9; clear - V1 W1 Q30 Q60; nra).
  assert (U2 : (0 <= X2 * t2 <= pow2 90)%R)
    by (rewrite E9; clear - V2 W2 Q30 Q60; nra).
  assert (U3 : (0 <= X3 * t3 <= pow2 90)%R)
    by (rewrite E9; clear - V3 W3 Q30 Q60; nra).
  assert (P12 : approx false 8 (x1 * (x1 * k) + x2 * (x2 * k))%f32
                  (X1 * t1 + X2 * t2)).
  { apply (add_approx 7 _ _ _ _ 91); try assumption; try lia.
    change 91 with (90 + 1). rewrite pow2_succ. clear - U1 U2. lra. }
  assert (P : approx false 9 (dot d n) (X1 * t1 + X2 * t2 + X3 * t3)).
  { rewrite normalize_components.
    unfold vec3.dot, d. cbn [vec3.x vec3.y vec3.z]. fold d. fold k.
    apply (add_approx 8 _ _ _ _ 92); try assumption; try lia.
    - apply approx_weaken with 7%nat; [lia|assumption].
    - change 92 with (90 + 1 + 1). rewrite !pow2_succ.
      pose proof (pow2_pos 90). clear - U1 U2 U3 H. lra. }
  assert (Pos : (0 < X1 * t1 + X2 * t2 + X3 * t3)%R).
  { pose proof (between_pos _ _ _ inv_length_range) as Pu.
    pose proof (between_pos _ _ _ sum_squares_range) as PS.
    replace (X1 * t1 + X2 * t2 + X3 * t3)%R with (S * u)%R
      by (unfold S, t1, t2, t3; ring).
    now apply Rmult_lt_0_compat. }
  destruct (approx_normal _ _ _ _ P Pos) as (z & Nz & _).
  exists z. exact Nz.
Qed.
End Normalize.

Lemma pow2_neg_const e : 0 <= e -> pow2 (- e) = (/ IZR (2 ^ e))%R.
Proof. intros H. now rewrite pow2_opp, pow2_IZR. Qed.

(** Normalising a vector of moderate components, not all zero, gives a
    vector of length within [2^-18] of one with a positive component
    along the vector it came from. *)
Lemma normalize_separated (v : vec3) :
  DirectionSpec.separated v = true ->
  DirectionSpec.nearly_unit (vec3.normalize v) = true
  /\ DirectionSpec.toward v (vec3.normalize v) = true.
Proof.
  destruct v as [x1 x2 x3]. unfold DirectionSpec.separated, FloatSpec.vec_moderate. cbn [vec3.x vec3.y vec3.z].
  intros H. apply andb_true_iff in H as [H Hnz].
  apply andb_true_iff in H as [H M3]. apply andb_true_iff in H as [M1 M2].
  destruct (moderate_cases _ M1) as (s1 & X1 & A1 & B1 & Z1).
  destruct (moderate_cases _ M2) as (s2 & X2 & A2 & B2 & Z2).
  destruct (moderate_cases _ M3) as (s3 & X3 & A3 & B3 & Z3).
  assert (NZ : ~ (X1 = 0%R /\ X2 = 0%R /\ X3 = 0%R)).
  { intros (E1 & E2 & E3). apply Z1 in E1. apply Z2 in E2. apply Z3 in E3.
    rewrite E1, E2, E3 in Hnz. discriminate. }
  split.
  - destruct (normalize_length _ _ _ _ _ _ _ _ _ A1 A2 A3 B1 B2 B3 NZ)
      as (z & Nz & Cz).
    unfold DirectionSpec.nearly_unit. apply andb_true_iff. split.
    + change (F32.of_Z 262143 (-18)) with (S754_finite false 16777152 (-24)).
      apply normal_leb with (IZR 16777152 * pow2 (-24))%R z; [|assumption|].
      * exists 16777152%positive, (-24). repeat split; lia.
      * destruct Cz as (_ & Pz & Cz & _).
        change (-24) with (- (24)). rewrite pow2_neg_const by lia.
        change (2 ^ 24) with 16777216. unfold step in Cz.
        clear - Pz Cz.
        assert (K : (16777152 * / 16777216 * (1 + / 8388608) ^ 16 <= 1)%R) by lra.
        set (r := ((1 + / 8388608) ^ 16)%R) in *.
        assert (Pr : (0 < r)%R) by (unfold r; lra).
        clearbody r. nra.
    + change (F32.of_Z 262145 (-18)) with (S754_finite false 8388640 (-23)).
      apply normal_leb with z (IZR 8388640 * pow2 (-23))%R; [assumption| |].
      * exists 8388640%positive, (-23). repeat split; lia.
      * destruct Cz as (_ & Pz & _ & Cz).
        change (-23) with (- (23)). rewrite pow2_neg_const by lia.
        change (2 ^ 23) with 8388608. unfold step in Cz.
        clear - Pz Cz.
        assert (K : ((1 + / 8388608) ^ 16 <= 8388640 * / 8388608)%R) by lra.
        lra.
  - destruct (normalize_toward _ _ _ _ _ _ _ _ _ A1 A2 A3 B1 B2 B3 NZ)
      as (z & m & e & E & _).
    unfold DirectionSpec.toward. rewrite E. reflexivity.
Qed.

(** ** The ambient term of the diffuse integrators *)

Lemma normal_PI : exists P, normal false PI P /\ between 1 2 P.
Proof.
  exists (IZR 13176795 * pow2 (-22))%R. split.
  - exists 13176795%positive, (-22). repeat split; lia.
  - unfold between. change (-22) with (- (22)). rewrite pow2_neg_const by lia.
    rewrite <- !pow2_IZR by lia.
    change (2 ^ 22) with 4194304. change (2 ^ 1) with 2. change (2 ^ 2) with 4.
    lra.
Qed.

Lemma approx_value s k f t :
  approx s k f t ->
  FloatSpec.is_finite f = true
  /\ exists y, FloatSpec.value f = ((if s then -1 else 1) * y)%R
               /\ ((t = 0%R /\ y = 0%R) \/ close k t y).
Proof.
  intros [[-> ->]|(y & (m & e & -> & _ & _ & ->) & C)].
  - split; [reflexivity|]. exists 0%R. split; [cbn; ring|now left].
  - split; [reflexivity|]. exists (IZR (Zpos m) * pow2 e)%R.
    split; [cbn; ring|now right].
Qed.

Lemma add_zero_approx s k f t :
  approx s k f t -> exists s', approx s' k (F32.zero + f)%f32 t /\ (t <> 0%R -> s' = s).
Proof.
  intros [[-> ->]|(y & N & C)].
  - exists false. split; [left; split; [reflexivity|]|intros H; now contradict H].
    destruct s; reflexivity.
  - exists s. split; [|reflexivity]. right. exists y. split; [|assumption].
    destruct N as (m & e & -> & H). exists m, e. split; [reflexivity|assumption].
Qed.

(** [0 + pi * (c * (1 / pi)) * a] against [c * a]: equal up to
    rounding. *)
Lemma ambient_component (c a : float) :
  FloatSpec.moderate c = true -> FloatSpec.moderate a = true ->
  FloatSpec.nearly 20 (F32.zero + PI * (c * INV_PI) * a)%f32 (c * a)%f32.
Proof.
  intros Mc Ma.
  destruct (moderate_cases _ Mc) as (sc & C & Ac & Bc & _).
  destruct (moderate_cases _ Ma) as (sa & A & Aa & Ba & _).
  destruct normal_PI as (P & NP & BP).
  pose proof (between_pos _ _ _ BP) as PP.
  destruct (inv_approx 0 _ _ _ _ _ NP (close_refl _ PP) ltac:(lia) BP
              ltac:(lia) ltac:(lia)) as (I & NI & CI).
  fold INV_PI in NI. cbn [Nat.add] in CI.
  assert (AI : approx false 1 INV_PI (/ P)) by (right; exists I; auto).
  assert (BI : between (-2) (-1) (/ P)) by (apply between_inv in BP; exact BP).
  pose proof (mul_approx _ _ _ _ _ _ _ _ _ _ _ _ Ac AI ltac:(lia) Bc
                (or_intror BI) ltac:(lia) ltac:(lia)) as A1.
  cbn [Nat.add] in A1. rewrite xorb_false_r in A1.
  assert (B1 : (C * / P)%R = 0%R \/ between (-32) 29 (C * / P)).
  { destruct Bc as [->|Bc]; [left; ring|right].
    apply (between_mul _ _ _ _ _ _ Bc BI). }
  pose proof (mul_approx _ _ _ _ _ _ _ _ _ _ _ _ (approx_exact _ _ _ NP) A1
                ltac:(lia) (or_intror BP) B1 ltac:(lia) ltac:(lia)) as A2.
  cbn [Nat.add xorb] in A2.
  assert (E2 : (P * (C * / P))%R = C) by (field; lra).
  rewrite E2 in A2.
  pose proof (mul_approx _ _ _ _ _ _ _ _ _ _ _ _ A2 Aa ltac:(lia) Bc Ba
                ltac:(lia) ltac:(lia)) as A3.
  cbn [Nat.add] in A3.
  pose proof (mul_approx _ _ _ _ _ _ _ _ _ _ _ _ Ac Aa ltac:(lia) Bc Ba
                ltac:(lia) ltac:(lia)) as A4.
  cbn [Nat.add] in A4.
  destruct (add_zero_approx _ _ _ _ A3) as (s' & A5 & Hs).
  destruct (approx_value _ _ _ _ A5) as (F1 & y1 & V1 & K1).
  destruct (approx_value _ _ _ _ A4) as (F2 & y2 & V2 & K2).
  unfold FloatSpec.nearly. split; [assumption|]. split; [assumption|].
  rewrite V1, V2.
  change (- (20)) with (-20).
  assert (E20 : pow2 (-20) = (/ 1048576)%R).
  { change (-20) with (- (20)). rewrite pow2_neg_const by lia. reflexivity. }
  rewrite E20.
  destruct K2 as [[Z2 ->]|K2].
  - destruct K1 as [[_ ->]|K1]; [|destruct K1; lra].
    rewrite !Rmult_0_r, Rminus_diag, Rabs_R0. lra.
  - destruct K1 as [[Z1 _]|K1]; [destruct K2; lra|].
    assert (Es : s' = xorb sc sa) by (apply Hs; destruct K1; lra).
    rewrite Es.
    set (g := (if xorb sc sa then -1 else 1)%R).
    assert (Hg : (g = 1 \/ g = -1)%R) by (unfold g; destruct (xorb sc sa); auto).
    replace (g * y1 - g * y2)%R with (g * (y1 - y2))%R by ring.
    rewrite !Rabs_mult.
    assert (Ag : Rabs g = 1%R).
    { destruct Hg as [-> | ->]; unfold Rabs; destruct (Rcase_abs _); lra. }
    rewrite Ag, !Rmult_1_l.
    pose proof (close_trans _ _ _ _ _ (close_sym _ _ _ K1) K2) as K.
    destruct K as (P1 & P2 & K12 & K21). unfold step in K12, K21.
    cbn [Nat.add] in K12, K21.
    rewrite (Rabs_pos_eq y2) by lra.
    assert (S5 : ((1 + / 8388608) ^ 5 <= 1 + / 1048576)%R) by lra.
    set (r := ((1 + / 8388608) ^ 5)%R) in *.
    assert (R1 : (1 <= r)%R) by (unfold r; lra). clearbody r.
    apply Rabs_le. clear - P1 P2 K12 K21 S5 R1. split; nra.
Qed.

(** * Light sample directions *)

(** C7, as the code has it: the ambient light answers the zero vector.  A
    point or cone light answers the normalised vector from the shading
    point to the light's position; when that separation has moderate
    components, not all zero, the answer has length within [2^-18] of one
    and a positive component along the separation, so it points from the
    shading point toward the light.  A directional or cylinder light
    answers the exact negation of its [direction] field, which has that
    field's length: unit exactly when the light was configured with a unit
    direction. *)
Theorem light_sample_directions `{MathLib} (pos : vec3) :
  (forall l : AmbientLight.t,
      LightSample.direction (AmbientLight.sampleRadiance l pos) = vec3.splat F32.zero)
  /\ (forall l : PointLight.t,
         let toLight := (PointLight.origin l - pos)%vec3 in
         let direction := LightSample.direction (PointLight.sampleRadiance l pos) in
         direction = vec3.normalize toLight
         /\ (DirectionSpec.separated toLight = true ->
             DirectionSpec.nearly_unit direction = true
             /\ DirectionSpec.toward toLight direction = true))
  /\ (forall l : DirectionalLight.t,
         LightSample.direction (DirectionalLight.sampleRadiance l pos)
         = (- DirectionalLight.direction l)%vec3
         /\ length (LightSample.direction (DirectionalLight.sampleRadiance l pos))
            = length (DirectionalLight.direction l))
  /\ (forall l : ConeLight.t,
         let toLight := (ConeLight.origin l - pos)%vec3 in
         let direction := LightSample.direction (ConeLight.sampleRadiance l pos) in
         direction = vec3.normalize toLight
         /\ (DirectionSpec.separated toLight = true ->
             DirectionSpec.nearly_unit direction = true
             /\ DirectionSpec.toward toLight direction = true))
  /\ (forall l : CylinderLight.t,
         LightSample.direction (CylinderLight.sampleRadiance l pos)
         = (- CylinderLight.direction l)%vec3
         /\ length (LightSample.direction (CylinderLight.sampleRadiance l pos))
            = length (CylinderLight.direction l)).
Proof.
  split; [intros l; reflexivity|].
  split.
  { intros l. cbv zeta. split; [reflexivity|].
    intros Hsep. exact (normalize_separated _ Hsep). }
  split.
  { intros l. split; [reflexivity|].
    cbn [DirectionalLight.sampleRadiance LightSample.direction]. apply length_neg. }
  split.
  { intros l. cbv zeta. split; [reflexivity|].
    intros Hsep. exact (normalize_separated _ Hsep). }
  intros l. split; [reflexivity|].
  unfold CylinderLight.sampleRadiance.
  cbn [DirectionalLight.sampleRadiance LightSample.direction DirectionalLight.direction].
  apply length_neg.
Qed.

Lemma light_sample_directions_witness :
  DirectionSpec.nearly_unit
    (LightSample.direction
       (PointLight.sampleRadiance Examples.corner_lamp (Examples.v3 0 0 0))) = true
  /\ DirectionSpec.toward
       (PointLight.origin Examples.corner_lamp - Examples.v3 0 0 0)%vec3
       (LightSample.direction
          (PointLight.sampleRadiance Examples.corner_lamp (Examples.v3 0 0 0))) = true.
Proof.
  apply (proj2 (proj1 (proj2 (@light_sample_directions Examples.libm (Examples.v3 0 0 0)))
                  Examples.corner_lamp)).
  vm_compute. reflexivity.
Defined.

(** C7, as stated, fails for every variant.  The ambient light's
    direction is the zero vector.  A point light at [(1, 1, 1)] seen from
    the origin answers a direction of length [1 - 2^-24], not [1.0f]; seen
    from its own position it answers NaN components; a point light at
    [(2^70, 0, 0)] answers the zero vector, because the squared distance
    overflows.  A cone light at [(1, 1, 1)] answers as the point light
    does.  A directional or cylinder light with direction [(0, 0, 2)]
    answers a direction of length 2. *)
Lemma light_directions_not_unit :
  ~ LightSpec.unit_length
      (LightSample.direction
         (AmbientLight.sampleRadiance Examples.dark (Examples.v3 0 0 0)))
  /\ ~ LightSpec.unit_length
         (LightSample.direction
            (PointLight.sampleRadiance Examples.corner_lamp (Examples.v3 0 0 0)))
  /\ DirectionSpec.nearly_unit
       (LightSample.direction
          (PointLight.sampleRadiance Examples.corner_lamp (Examples.v3 1 1 1))) = false
  /\ DirectionSpec.nearly_unit
       (LightSample.direction
          (PointLight.sampleRadiance Examples.far_lamp (Examples.v3 0 0 0))) = false
  /\ ~ LightSpec.unit_length
         (LightSample.direction
            (@ConeLight.sampleRadiance Examples.libm Examples.spot (Examples.v3 0 0 0)))
  /\ ~ LightSpec.unit_length
         (LightSample.direction
            (DirectionalLight.sampleRadiance Examples.long_sun (Examples.v3 0 0 0)))
  /\ ~ LightSpec.unit_length
         (LightSample.direction
            (@CylinderLight.sampleRadiance Examples.libm Examples.long_beam
               (Examples.v3 0 0 0))).
Proof.
  unfold LightSpec.unit_length.
  repeat split; vm_compute; try reflexivity; discriminate.
Qed.

(** * The ambient term of the local integrator *)

Lemma ambient_term_nearly (scene : Scene.t) (surfaceColor : vec3) :
  FloatSpec.vec_moderate surfaceColor = true ->
  FloatSpec.vec_moderate (AmbientLight.radiance (Scene.ambientLight scene)) = true ->
  FloatSpec.vec_nearly 20
    (ShadingSpec.ambient_term scene (surfaceColor :* INV_PI)%vec3)
    (surfaceColor * AmbientLight.radiance (Scene.ambientLight scene))%vec3.
Proof.
  unfold FloatSpec.vec_moderate. intros Hc Ha.
  apply andb_true_iff in Hc as [Hc Hc3]. apply andb_true_iff in Hc as [Hc1 Hc2].
  apply andb_true_iff in Ha as [Ha Ha3]. apply andb_true_iff in Ha as [Ha1 Ha2].
  unfold FloatSpec.vec_nearly, ShadingSpec.ambient_term.
  cbn [vec3.add vec3.mul vec3.scalar_mul vec3.mul_scalar vec3.splat
         vec3.x vec3.y vec3.z].
  repeat split; now apply ambient_component.
Qed.

(** C6, as the code has it: on a valid nearest hit the local integrator
    returns black plus the ambient term [pi * albedo * ambientRadiance],
    with [albedo = surfaceColor * (1 / pi)], plus, for every point,
    directional, cone and cylinder light in that order,
    [albedo * incidentRadiance * max(0, dot(orientedNormal, directionToLight))]
    (times the visibility [1.0f]); the oriented normal is the hit normal,
    flipped when [dot(ray.direction, normal) >= 0] and kept when it is
    [< 0]; without a hit the result is black.  The ambient term equals
    [surfaceColor * ambientRadiance] up to rounding only: each component is
    within [2^-20] of it, relatively, when the components of the colour and
    of the ambient radiance are moderate. *)
Theorem diffuse_local_radiance `{MathLib} (scene : Scene.t) (ray : Ray.t) :
  let hit := Scene.intersect scene ray F32.zero INFINITY in
  let cosRayNormal := dot (Ray.d ray) (Intersection.normal hit) in
  let surfaceColor := Intersection.color hit in
  let ambientRadiance := AmbientLight.radiance (Scene.ambientLight scene) in
  DiffuseLocalDirectIlluminationIntegrator.radiance scene ray
  = (if valid hit then
       ShadingSpec.direct_lighting scene ray hit (Intersection.pos hit) (fun _ => F32.one)
     else vec3.splat F32.zero)
  /\ ((cosRayNormal >=? F32.zero)%f32 = true ->
      facing_normal ray hit = (- Intersection.normal hit)%vec3)
  /\ ((cosRayNormal <? F32.zero)%f32 = true ->
      facing_normal ray hit = Intersection.normal hit)
  /\ (FloatSpec.vec_moderate surfaceColor = true ->
      FloatSpec.vec_moderate ambientRadiance = true ->
      FloatSpec.vec_nearly 20
        (ShadingSpec.ambient_term scene (surfaceColor :* INV_PI)%vec3)
        (surfaceColor * ambientRadiance)%vec3).
Proof.
  cbv zeta. split; [apply local_radiance_sum|].
  unfold facing_normal. split; [|split].
  - intros Hcos. now rewrite (geb_zero_not_ltb _ Hcos).
  - intros Hcos. now rewrite Hcos.
  - apply ambient_term_nearly.
Qed.

Lemma diffuse_local_radiance_witness :
  FloatSpec.vec_nearly 20
    (ShadingSpec.ambient_term Examples.grey_scene
       (Intersection.color
          (Scene.intersect Examples.grey_scene Examples.ray F32.zero INFINITY)
        :* INV_PI)%vec3)
    (Intersection.color
       (Scene.intersect Examples.grey_scene Examples.ray F32.zero INFINITY)
     * AmbientLight.radiance (Scene.ambientLight Examples.grey_scene))%vec3.
Proof.
  apply (proj2 (proj2 (proj2 (@diffuse_local_radiance Examples.libm Examples.grey_scene
                                Examples.ray)))).
  - vm_compute. reflexivity.
  - vm_compute. reflexivity.
Defined.

(** C6, as stated, fails in its parenthesis: for the grey sphere of colour
    [0.75] under ambient radiance [1.0] and no other light, the ray hits,
    the surface colour is [0.75], and the radiance, which is the ambient
    term alone, is [12582911 * 2^-24] in every component, whereas
    [surfaceColor * ambientRadiance] is [0.75 = 12582912 * 2^-24]. *)
Lemma ambient_term_not_surface_color :
  valid (Scene.intersect Examples.grey_scene Examples.ray F32.zero INFINITY) = true
  /\ Intersection.color
       (Scene.intersect Examples.grey_scene Examples.ray F32.zero INFINITY)
     = Examples.grey
  /\ @DiffuseLocalDirectIlluminationIntegrator.radiance Examples.libm
       Examples.grey_scene Examples.ray
     = ShadingSpec.ambient_term Examples.grey_scene (Examples.grey :* INV_PI)%vec3
  /\ @DiffuseLocalDirectIlluminationIntegrator.radiance Examples.libm
       Examples.grey_scene Examples.ray
     = vec3.splat (S754_finite false 12582911 (-24))
  /\ (Examples.grey * AmbientLight.radiance (Scene.ambientLight Examples.grey_scene))%vec3
     = vec3.splat (S754_finite false 12582912 (-24))
  /\ @DiffuseLocalDirectIlluminationIntegrator.radiance Examples.libm
       Examples.grey_scene Examples.ray
     <> (Examples.grey
         * AmbientLight.radiance (Scene.ambientLight Examples.grey_scene))%vec3.
Proof.
  repeat split; vm_compute; try reflexivity; discriminate.
Qed.
